(** * Backup deduplication: a model of [main.py] and its properties

    The program walks a working folder whose sub-folders are full backups,
    takes the newest one (largest name) as the master and removes from the
    older ones every path that the master also holds with the same size.

    The file system is modelled as a tree with ordered directory listings,
    the program as functions in a state-and-exception monad over that tree
    together with the trace of the calls that matter to the properties.

    What the model covers.  A tree holds directories and regular files, and
    every path names an object of its own: a working folder with symbolic
    links, or with a file reachable under two names (hard links), is not
    a tree of this kind, and the program treats it differently ([exists],
    [stat] and [is_dir] follow symbolic links, [unlink] acts through a
    linked directory).  The stats of a directory are kept as they are when
    an entry is removed below it, whereas on disk its [st_ctime] changes
    and on some file systems its [st_size] too; what the statements say is
    left unchanged by a removal is therefore said of regular files, and of
    directories that the removal is not below.
    The program is taken to run alone on the working folder, and names are
    taken to be writable in the encoding of the log and of the terminal. *)

From Stdlib Require Import Ascii String ZArith QArith Qround.
From Equations Require Import Equations.
From stdpp Require Import base list strings gmap sorting.

Set Default Goal Selector "!".
Set Warnings "-clear-no-such-hyp".
Open Scope string_scope.
Open Scope list_scope.

(** ** File-system trees *)

(** What [Path.stat] returns, as far as the program reads it.  [st_ctime] is
    a float in Python; it is only copied into the log, so any carrier does. *)
Record stats := { st_size : Z; st_ctime : Z }.

(** A path is the list of its components under the working folder. *)
Abbreviation path := (list string).

(** A node is a regular file or a directory; a directory keeps its entries
    in the order in which the operating system lists them.  There are no
    links: two paths never stand for the same file, and no path leads out
    of the directory that lists it. *)
#[warnings="-register-all"]
Inductive node :=
| File (st : stats)
| Dir (st : stats) (entries : list (string * node)).

Definition stat_of (t : node) : stats :=
  match t with File st => st | Dir st _ => st end.

Definition is_dir (t : node) : bool :=
  match t with Dir _ _ => true | File _ => false end.

Definition is_file (t : node) : bool := negb (is_dir t).

Definition entries_of (t : node) : list (string * node) :=
  match t with File _ => [] | Dir _ es => es end.

#[global] Instance stats_eq_dec : EqDecision stats.
Proof. solve_decision. Defined.

(** Induction over a tree that also covers the listed children. *)
Lemma node_induction (P : node → Prop) :
  (∀ st, P (File st)) →
  (∀ st es, Forall (λ e, P e.2) es → P (Dir st es)) →
  ∀ t, P t.
Proof.
  intros HF HD. fix IH 1. intros [st|st es].
  - apply HF.
  - apply HD. induction es as [|[n c] es IHes]; constructor; [apply IH|apply IHes].
Qed.

Fixpoint assoc (name : string) (es : list (string * node)) : option node :=
  match es with
  | [] => None
  | (m, c) :: es' => if decide (name = m) then Some c else assoc name es'
  end.

Fixpoint lookup_path (p : path) (t : node) : option node :=
  match p with
  | [] => Some t
  | name :: p' =>
      match t with
      | File _ => None
      | Dir _ es =>
          match assoc name es with
          | Some c => lookup_path p' c
          | None => None
          end
      end
  end.

Definition names (es : list (string * node)) : list string := es.*1.

Definition dirnames (es : list (string * node)) : list string :=
  (filter (λ e, is_dir e.2 = true) es).*1.

Definition filenames (es : list (string * node)) : list string :=
  (filter (λ e, is_dir e.2 = false) es).*1.

(** Well-formed trees: within a directory no name is empty and no name is
    listed twice.  Every tree read off a disk is of this kind. *)
Fixpoint wf_node (t : node) : bool :=
  match t with
  | File _ => true
  | Dir _ es =>
      bool_decide (NoDup (names es)) && bool_decide ("" ∉ names es)
      && forallb (λ e, wf_node e.2) es
  end.

(** ** Exceptions and results *)

Inductive exn :=
| AssertionError (msg : string)
| IndexError
| KeyError
| FileNotFoundError
| IsADirectoryError
| NotADirectoryError
| DirectoryNotEmpty.

Inductive result (A : Type) :=
| Ok (a : A)
| Raise (e : exn).
Arguments Ok {A} a.
Arguments Raise {A} e.

Definition is_ok {A} (r : result A) : bool :=
  match r with Ok _ => true | Raise _ => false end.

(** ** Mutations of the tree *)

(** [alter_entry name f es] applies [f] to the entry called [name]; [f]
    answers with the new node, or with [None] to drop the entry. *)
Fixpoint alter_entry (name : string) (f : node → result (option node))
    (es : list (string * node)) : result (list (string * node)) :=
  match es with
  | [] => Raise FileNotFoundError
  | (m, c) :: es' =>
      if decide (name = m) then
        match f c with
        | Ok (Some c') => Ok ((m, c') :: es')
        | Ok None => Ok es'
        | Raise e => Raise e
        end
      else
        match alter_entry name f es' with
        | Ok es'' => Ok ((m, c) :: es'')
        | Raise e => Raise e
        end
  end.

(** The directories on the way to [p] are rebuilt around the new listing
    with the stats they had: the change of their [st_ctime], and of their
    [st_size] where the file system derives it from the entries, is not
    tracked. *)
Fixpoint alter_path (p : path) (f : node → result (option node)) (t : node)
    : result (option node) :=
  match p with
  | [] => f t
  | name :: p' =>
      match t with
      | File _ => Raise NotADirectoryError
      | Dir st es =>
          match alter_entry name (alter_path p' f) es with
          | Ok es' => Ok (Some (Dir st es'))
          | Raise e => Raise e
          end
      end
  end.

(** [Path.unlink]: removes a regular file, refuses a directory. *)
Definition unlink_node (t : node) : result (option node) :=
  match t with
  | File _ => Ok None
  | Dir _ _ => Raise IsADirectoryError
  end.

(** [Path.rmdir]: removes an empty directory, refuses anything else. *)
Definition rmdir_node (t : node) : result (option node) :=
  match t with
  | File _ => Raise NotADirectoryError
  | Dir _ [] => Ok None
  | Dir _ (_ :: _) => Raise DirectoryNotEmpty
  end.

(** The working folder itself is never the target of a removal; a removal
    that would take it away is reported like a missing path. *)
Definition apply_at (p : path) (f : node → result (option node)) (t : node)
    : result node :=
  match alter_path p f t with
  | Ok (Some t') => Ok t'
  | Ok None => Raise FileNotFoundError
  | Raise e => Raise e
  end.

Definition fs_unlink (p : path) (t : node) : result node := apply_at p unlink_node t.
Definition fs_rmdir (p : path) (t : node) : result node := apply_at p rmdir_node t.

(** [open(path, "w")] on a file directly under the working folder: an
    existing file is truncated, a missing one is added to the listing, a
    directory of that name makes the call fail. *)
Definition fs_create (name : string) (new : stats) (t : node) : result node :=
  match t with
  | File _ => Raise NotADirectoryError
  | Dir st es =>
      match assoc name es with
      | None => Ok (Dir st (es ++ [(name, File new)]))
      | Some (File _) =>
          match alter_entry name (λ _, Ok (Some (File new))) es with
          | Ok es' => Ok (Dir st es')
          | Raise e => Raise e
          end
      | Some (Dir _ _) => Raise IsADirectoryError
      end
  end.

(** ** The trace of a run *)

(** One line of the reconstruction log. *)
Inductive line :=
| Header
| Row (alt_file master_file : path) (alt_ctime master_ctime : Z).

#[global] Instance line_eq_dec : EqDecision line.
Proof. solve_decision. Defined.

(** What the program prints. *)
Inductive message :=
| Deleting (file : path)
| DeletingEmptyDirectory (dir : path)
| Freed (amount : Q) (unit_label : string).

(** The calls a run issues on single paths, in program order.  The reads
    that enumerate ([iterdir], [is_dir], [glob], [walk]) leave no event. *)
Inductive event :=
| EvExists (p : path)
| EvStat (p : path)
| EvOpen (p : path)
| EvWrite (l : line)
| EvPrint (m : message)
| EvUnlink (p : path)
| EvRmdir (p : path).

Definition is_mutation (e : event) : bool :=
  match e with
  | EvOpen _ | EvUnlink _ | EvRmdir _ => true
  | _ => false
  end.

(** The rows written to the reconstruction log, header left out. *)
Fixpoint log_rows (tr : list event) : list line :=
  match tr with
  | [] => []
  | EvWrite (Row a m ac mc) :: tr' => Row a m ac mc :: log_rows tr'
  | _ :: tr' => log_rows tr'
  end.

(** The paths a trace removes files from. *)
Fixpoint unlinked (tr : list event) : list path :=
  match tr with
  | [] => []
  | EvUnlink p :: tr' => p :: unlinked tr'
  | _ :: tr' => unlinked tr'
  end.

(** ** The monad of the program *)

Record state := { fs : node; trace : list event }.

Definition M (A : Type) : Type := state → result A * state.

Definition ret {A} (a : A) : M A := λ s, (Ok a, s).

Definition bind {A B} (m : M A) (k : A → M B) : M B :=
  λ s, match m s with
       | (Ok a, s') => k a s'
       | (Raise e, s') => (Raise e, s')
       end.

Definition raise {A} (e : exn) : M A := λ s, (Raise e, s).

Declare Scope prog_scope.
Delimit Scope prog_scope with prog.
Notation "x <- m ;; k" := (bind m (λ x, k))
  (at level 100, m at next level, right associativity) : prog_scope.
Notation "m ;;; k" := (bind m (λ _, k))
  (at level 100, right associativity) : prog_scope.
Open Scope prog_scope.

Definition emit (e : event) : M unit :=
  λ s, (Ok tt, {| fs := fs s; trace := trace s ++ [e] |}).

Definition assert (b : bool) (msg : string) : M unit :=
  if b then ret tt else raise (AssertionError msg).

(** A mutation either succeeds, changing the tree and leaving its event, or
    raises and leaves the state as it was. *)
Definition mutate (f : node → result node) (e : event) : M unit :=
  λ s, match f (fs s) with
       | Ok t' => (Ok tt, {| fs := t'; trace := trace s ++ [e] |})
       | Raise x => (Raise x, s)
       end.

(** [Path.exists] *)
Definition path_exists (p : path) : M bool :=
  λ s, (Ok (bool_decide (is_Some (lookup_path p (fs s)))),
        {| fs := fs s; trace := trace s ++ [EvExists p] |}).

(** [Path.stat] *)
Definition path_stat (p : path) : M stats :=
  λ s, match lookup_path p (fs s) with
       | Some t => (Ok (stat_of t), {| fs := fs s; trace := trace s ++ [EvStat p] |})
       | None => (Raise FileNotFoundError, s)
       end.

(** [Path.is_dir] *)
Definition path_is_dir (p : path) : M bool :=
  λ s, (Ok (from_option is_dir false (lookup_path p (fs s))), s).

(** [Path.iterdir], as the list of entry names *)
Definition iterdir (p : path) : M (list string) :=
  λ s, match lookup_path p (fs s) with
       | Some (Dir _ es) => (Ok (names es), s)
       | Some (File _) => (Raise NotADirectoryError, s)
       | None => (Raise FileNotFoundError, s)
       end.

Definition unlink (p : path) : M unit := mutate (fs_unlink p) (EvUnlink p).
Definition rmdir (p : path) : M unit := mutate (fs_rmdir p) (EvRmdir p).

(** [reconstruction_log.write] and [print], as the calls the program makes
    in their order.  How far the text has reached the disk or the terminal
    when the next call is made is not modelled, nor is the encoding of the
    text: a name that the encoding cannot represent makes the real call
    raise [UnicodeEncodeError]. *)
Definition write (l : line) : M unit := emit (EvWrite l).
Definition print (m : message) : M unit := emit (EvPrint m).

(** ** Names *)

(** [str.endswith] *)
Fixpoint endswith (s suffix : string) : bool :=
  bool_decide (s = suffix)
  || match s with
     | EmptyString => false
     | String _ s' => endswith s' suffix
     end.

Definition lower_ascii (c : ascii) : ascii :=
  let n := nat_of_ascii c in
  if (65 <=? n)%nat && (n <=? 90)%nat then ascii_of_nat (n + 32) else c.

Fixpoint lower (s : string) : string :=
  match s with
  | EmptyString => EmptyString
  | String c s' => String (lower_ascii c) (lower s')
  end.

Definition DEFAULT_EXTENSIONS : list string :=
  ["jpg"; "jpeg"; "png"; "tif"; "bmp"; "webp"; "gif"; "mp4"; "mov"; "txt"; "md"; "pdf";
   "docx"; "doc"; "xlsx"; "ods"; "odt"; "zip"; "pptx"; "apk"; "enc"; "exe"; "mp3"; "wav";
   "opus"; "m4a"; "ipynb"; "json"; "csv"; "tsv"; "dic"; "amr"].

(** A name is the sequence of the bytes of its UTF-8 form.  [byte_is n c]
    says that the byte [c] has the value [n]. *)
Definition byte_is (n : nat) (c : ascii) : bool := (nat_of_ascii c =? n)%nat.

(** What [re.IGNORECASE] identifies with a lower-case ASCII letter, on the
    bytes of a name: the capitals [A] to [Z], and the four letters outside
    ASCII that Python's matcher folds onto ASCII ones, which are U+017F
    (long s, bytes C5 BF) for [s], U+212A (Kelvin sign, bytes E2 84 AA) for
    [k], and U+0130 and U+0131 (dotted capital and dotless small i, bytes
    C4 B0 and C4 B1) for [i].  Every other byte stays as it is. *)
Fixpoint casefold (s : string) : string :=
  match s with
  | EmptyString => EmptyString
  | String c s1 =>
      match s1 with
      | EmptyString => String (lower_ascii c) EmptyString
      | String d s2 =>
          if byte_is 197 c && byte_is 191 d then String "s" (casefold s2)
          else if byte_is 196 c && (byte_is 176 d || byte_is 177 d)
          then String "i" (casefold s2)
          else
            match s2 with
            | EmptyString => String (lower_ascii c) (casefold s1)
            | String e s3 =>
                if byte_is 226 c && byte_is 132 d && byte_is 170 e
                then String "k" (casefold s3)
                else String (lower_ascii c) (casefold s1)
            end
      end
  end.

(** The last component of the pattern ["**/*." + ex], matched with
    [case_sensitive=False], that is under [re.IGNORECASE]: the name ends,
    letters folded, with a dot and the extension. *)
Definition matches_ext (ex name : string) : bool :=
  endswith (casefold name) (lower ("." +:+ ex)).

(** [master_backup.glob("**/*." + ex, case_sensitive=False)], relative to the
    directory it starts from: the matching entries of a directory, files and
    directories alike, then those of each sub-directory in listing order. *)
Fixpoint glob_ext (ex : string) (t : node) : list path :=
  match t with
  | File _ => []
  | Dir _ es =>
      ((λ n, [n]) <$> filter (λ n, matches_ext ex n = true) (names es))
      ++ (es ≫= λ e, (cons e.1) <$> glob_ext ex e.2)
  end.

Definition glob_all (t : node) : list path :=
  DEFAULT_EXTENSIONS ≫= λ ex, glob_ext ex t.

(** The generator [master_files].  Python draws from it while the loop runs;
    the tree below the master is the same at every draw, so the list is
    taken when the generator is built. *)
Definition master_files_of (master_backup : string) : M (list path) :=
  λ s, (Ok (from_option glob_all [] (lookup_path [master_backup] (fs s))), s).

(** [sorted(..., key=lambda f: f.name, reverse=True)] *)
Definition sorted_reverse (l : list string) : list string :=
  merge_sort (flip String.le) l.

Definition log_suffix : string := ".log.csv".

(** The list [children] of [deduplicate]. *)
Definition children_of (entries : list string) : list string :=
  filter (λ n, endswith n log_suffix = false) (sorted_reverse entries).

(** What [datetime.now()] gives: its ISO rendering names the log, its value
    in seconds stamps the file created. *)
Record datetime := { isoformat : string; timestamp : Z }.

Definition log_name (now : datetime) (dry_run : bool) : string :=
  "deduplication-" +:+ isoformat now +:+ (if dry_run then "-dry" else "") +:+ log_suffix.

(** The file is empty when [open] returns; how it grows with the rows is
    not tracked, no path of the program ever stats a run log. *)
Definition open_w (name : string) (now : datetime) : M unit :=
  mutate (fs_create name {| st_size := 0; st_ctime := timestamp now |}) (EvOpen [name]).

(** ** The program *)

(** [delete] *)
Definition delete (file : path) (dry_run : bool) : M unit :=
  print (Deleting file);;;
  if dry_run then ret tt else unlink file.

(** The [for backup in older_backups] loop of [deduplicate], for one
    candidate.  [break] returns the running total, [continue] goes on with
    the remaining backups. *)
Fixpoint scan (dry_run assume_continuity : bool) (file : path)
    (master_file : path) (master_stats : stats)
    (older_backups : list string) (bytes_freed : Z) : M Z :=
  match older_backups with
  | [] => ret bytes_freed
  | backup :: rest =>
      let alt_file := backup :: file in
      e <- path_exists alt_file;;
      if negb e then
        if assume_continuity then ret bytes_freed
        else scan dry_run assume_continuity file master_file master_stats rest bytes_freed
      else
        alt_stats <- path_stat alt_file;;
        if negb (st_size alt_stats =? st_size master_stats)%Z then
          if assume_continuity then ret bytes_freed
          else scan dry_run assume_continuity file master_file master_stats rest bytes_freed
        else
          write (Row alt_file master_file (st_ctime alt_stats) (st_ctime master_stats));;;
          delete alt_file dry_run;;;
          scan dry_run assume_continuity file master_file master_stats rest
            (bytes_freed + st_size alt_stats)%Z
  end.

(** The body of [for file in master_files].  A candidate is a list of
    components below the master, so it cannot be absolute and the source's
    assertion on it has nothing to reject. *)
Definition scan_file (dry_run assume_continuity : bool) (master_backup : string)
    (older_backups : list string) (file : path) (bytes_freed : Z) : M Z :=
  let master_file := master_backup :: file in
  master_stats <- path_stat master_file;;
  scan dry_run assume_continuity file master_file master_stats older_backups bytes_freed.

Fixpoint scan_files (dry_run assume_continuity : bool) (master_backup : string)
    (older_backups : list string) (master_files : list path) (bytes_freed : Z) : M Z :=
  match master_files with
  | [] => ret bytes_freed
  | file :: rest =>
      b <- scan_file dry_run assume_continuity master_backup older_backups file bytes_freed;;
      scan_files dry_run assume_continuity master_backup older_backups rest b
  end.

(** [Path.walk(top_down=False)]: the triples [(dirpath, dirnames, filenames)]
    of a directory, every sub-directory before its parent.  The listing of a
    directory is read before its sub-directories are visited and the only
    removals in between are below it, so the triples are those of the tree
    as it is when the walk starts.  A root that is no directory yields
    nothing. *)
Fixpoint walk (p : path) (t : node) : list (path * list string * list string) :=
  match t with
  | File _ => []
  | Dir _ es =>
      (es ≫= λ e, walk (p ++ [e.1]) e.2)
      ++ [(p, dirnames es, filenames es)]
  end.

Definition path_walk (root : path) : M (list (path * list string * list string)) :=
  λ s, (Ok (from_option (walk root) [] (lookup_path root (fs s))), s).

(** [any(files)] on a list of names: some name is not the empty string. *)
Definition any_name (files : list string) : bool :=
  existsb (λ f, negb (bool_decide (f = ""))) files.

(** The loop of [delete_empty_folders] over the triples of the walk. *)
Fixpoint reclaim (triples : list (path * list string * list string))
    (deleted : gset path) : M (gset path) :=
  match triples with
  | [] => ret deleted
  | (current_dir, subdirs, files) :: rest =>
      let still_has_subdirs :=
        existsb (λ subdir, bool_decide (current_dir ++ [subdir] ∉ deleted)) subdirs in
      if negb (any_name files) && negb still_has_subdirs then
        listing <- iterdir current_dir;;
        assert (bool_decide (listing = []))
          "Supposedly empty directory still contains file or subfolder!";;;
        print (DeletingEmptyDirectory current_dir);;;
        rmdir current_dir;;;
        reclaim rest ({[current_dir]} ∪ deleted)
      else reclaim rest deleted
  end.

Definition delete_empty_folders (root : path) : M (gset path) :=
  triples <- path_walk root;;
  reclaim triples ∅.

(** [for backup in older_backups: delete_empty_folders(backup)] *)
Fixpoint delete_empty_folders_all (older_backups : list string) : M unit :=
  match older_backups with
  | [] => ret tt
  | backup :: rest =>
      delete_empty_folders [backup];;;
      delete_empty_folders_all rest
  end.

(** [format_bytes].  The loop [while size > power: size /= power; n += 1]
    runs on exact rationals; the rendering of the amount with two decimals
    is left out, the amount and the label are returned as they are.  Python
    divides floats: for a total of at most 2^53 bytes every quotient by the
    power of two 1024 is exact and the two loops agree; beyond that the
    first quotient is rounded, and a total outside the range of a float
    makes the division raise [OverflowError]. *)
Definition power : Q := 1024.

Lemma format_loop_decreases (size : Q) :
  (power < size)%Q →
  (Z.to_nat (Z.log2 (Qfloor (size / power))) < Z.to_nat (Z.log2 (Qfloor size)))%nat.
Proof.
  intros Hlt.
  assert (Ha : (1024 ≤ Qfloor size)%Z).
  { change 1024%Z with (Qfloor power). apply Qfloor_resp_le, Qlt_le_weak, Hlt. }
  assert (Hx : (1 ≤ Qfloor (size / power))%Z).
  { change 1%Z with (Qfloor 1). apply Qfloor_resp_le.
    apply Qle_shift_div_l; [reflexivity|]. rewrite Qmult_1_l. by apply Qlt_le_weak. }
  assert (Hxa : (1024 * Qfloor (size / power) ≤ Qfloor size)%Z).
  { apply Z.lt_succ_r. rewrite Zlt_Qlt.
    eapply Qle_lt_trans; [|apply (Qlt_floor size)].
    rewrite inject_Z_mult. change (inject_Z 1024) with power.
    eapply Qle_trans.
    - apply Qmult_le_l; [reflexivity|]. apply Qfloor_le.
    - rewrite Qmult_div_r; [apply Qle_refl|done]. }
  apply Z2Nat.inj_lt; [apply Z.log2_nonneg..|].
  apply Z.lt_le_trans with (Z.log2 (2 * Qfloor (size / power))).
  - rewrite Z.log2_double by lia. lia.
  - apply Z.log2_le_mono. lia.
Qed.

Equations format_loop (size : Q) (n : nat) : Q * nat
    by wf (Z.to_nat (Z.log2 (Qfloor size))) lt :=
  format_loop size n with Qlt_le_dec power size := {
    | left Hlt => format_loop (size / power) (S n)
    | right _ => (size, n) }.
Next Obligation. intros size Hlt _ _. by apply format_loop_decreases. Qed.

Definition power_labels (n : nat) : option string :=
  match n with
  | 0%nat => Some "bytes"
  | 1%nat => Some "kb"
  | 2%nat => Some "mb"
  | 3%nat => Some "gb"
  | 4%nat => Some "tb"
  | _ => None
  end.

Definition format_bytes (size : Z) : result (Q * string) :=
  let '(amount, n) := format_loop (inject_Z size) 0 in
  match power_labels n with
  | Some label => Ok (amount, label)
  | None => Raise KeyError
  end.

(** [all(c.is_dir() for c in children)] *)
Fixpoint all_is_dir (children : list string) : M bool :=
  match children with
  | [] => ret true
  | c :: rest =>
      d <- path_is_dir [c];;
      if d then all_is_dir rest else ret false
  end.

(** [deduplicate], run on the working folder that is the root of the tree.
    The Python function returns nothing; the total it prints is handed back
    here as well. *)
Definition deduplicate (dry_run assume_continuity : bool) (now : datetime) : M Z :=
  entries <- iterdir [];;
  let children := children_of entries in
  dirs <- all_is_dir children;;
  assert dirs "not all children are directories";;;
  match children with
  | [] => raise IndexError
  | master_backup :: older_backups =>
      master_files <- master_files_of master_backup;;
      open_w (log_name now dry_run) now;;;
      write Header;;;
      bytes_freed <- scan_files dry_run assume_continuity master_backup older_backups
                       master_files 0;;
      (if dry_run then ret tt else delete_empty_folders_all older_backups);;;
      match format_bytes bytes_freed with
      | Ok (amount, label) => print (Freed amount label);;; ret bytes_freed
      | Raise e => raise e
      end
  end.

(** A run from a tree, with an empty trace. *)
Definition run (dry_run assume_continuity : bool) (now : datetime) (t : node)
    : result Z * state :=
  deduplicate dry_run assume_continuity now {| fs := t; trace := [] |}.


(** ** Pure descriptions of the mutations *)

(** The listing with the first entry called [name] replaced, or dropped. *)
Fixpoint replace_entry (name : string) (o : option node)
    (es : list (string * node)) : list (string * node) :=
  match es with
  | [] => []
  | (m, c) :: es' =>
      if decide (name = m) then
        match o with Some c' => (m, c') :: es' | None => es' end
      else (m, c) :: replace_entry name o es'
  end.

(** The tree with the node at [p] replaced by [o], or dropped. *)
Fixpoint put (p : path) (o : option node) (t : node) : option node :=
  match p with
  | [] => o
  | name :: p' =>
      match t with
      | File _ => Some t
      | Dir st es =>
          Some (Dir st match assoc name es with
                       | Some c => replace_entry name (put p' o c) es
                       | None => es
                       end)
      end
  end.

(** Kind and stats of the node at a path: all that [exists], [is_dir] and
    [stat] can tell about it. *)
Definition attr_at (p : path) (t : node) : option (bool * stats) :=
  (λ c, (is_dir c, stat_of c)) <$> lookup_path p t.

Section listings.
Implicit Types (es : list (string * node)) (n m : string) (c : node).

Lemma assoc_None n es : assoc n es = None ↔ n ∉ names es.
Proof.
  unfold names. induction es as [|[m c] es IH]; simpl.
  - split; [intros _; apply not_elem_of_nil|done].
  - rewrite not_elem_of_cons. destruct (decide (n = m)) as [->|Hne].
    + split; [done|]. intros [? _]. done.
    + rewrite IH. tauto.
Qed.

Lemma assoc_Some_elem n es c : assoc n es = Some c → (n, c) ∈ es.
Proof.
  induction es as [|[m c'] es IH]; simpl; [done|].
  destruct (decide (n = m)) as [->|Hne]; intros H.
  - injection H as ->. left.
  - right. auto.
Qed.

Lemma assoc_is_Some n es : is_Some (assoc n es) ↔ n ∈ names es.
Proof.
  destruct (assoc n es) as [c|] eqn:E.
  - split; [intros _|eauto]. apply assoc_Some_elem in E.
    apply list_elem_of_fmap. by exists (n, c).
  - apply assoc_None in E. split; [by intros [? ?]|done].
Qed.

Lemma assoc_elem n es c : NoDup (names es) → (n, c) ∈ es → assoc n es = Some c.
Proof.
  unfold names. induction es as [|[m c'] es IH]; simpl; [by intros _ ?%elem_of_nil|].
  rewrite NoDup_cons, elem_of_cons. intros [Hm Hnd] [?|Hin]; simplify_eq.
  - by rewrite decide_True.
  - rewrite decide_False; [auto|]. intros ->. apply Hm.
    apply list_elem_of_fmap. by exists (m, c).
Qed.

Lemma assoc_app n es1 es2 :
  assoc n (es1 ++ es2) = match assoc n es1 with Some c => Some c | None => assoc n es2 end.
Proof. induction es1 as [|[m c] es1 IH]; simpl; [done|]. by case_decide. Qed.

Lemma alter_entry_spec n f es :
  alter_entry n f es =
    match assoc n es with
    | None => Raise FileNotFoundError
    | Some c =>
        match f c with
        | Ok o => Ok (replace_entry n o es)
        | Raise e => Raise e
        end
    end.
Proof.
  induction es as [|[m c] es IH]; simpl; [done|].
  case_decide.
  - destruct (f c) as [[c'|]|e]; done.
  - rewrite IH. destruct (assoc n es) as [c'|]; [|done]. by destruct (f c').
Qed.

Lemma assoc_replace_ne n m o es : m ≠ n → assoc m (replace_entry n o es) = assoc m es.
Proof.
  intros Hne. induction es as [|[k c] es IH]; simpl; [done|].
  destruct (decide (n = k)) as [->|].
  - rewrite (decide_False (P := m = k)) by done. destruct o; simpl; [|done].
    by rewrite decide_False.
  - simpl. by rewrite IH.
Qed.

Lemma names_replace_Some n c' es : names (replace_entry n (Some c') es) = names es.
Proof.
  unfold names. induction es as [|[k c] es IH]; simpl; [done|].
  case_decide; simpl; [done|]. f_equal. exact IH.
Qed.

Lemma names_replace_sublist n o es : sublist (names (replace_entry n o es)) (names es).
Proof.
  destruct o as [c'|]; [by rewrite names_replace_Some|].
  unfold names. induction es as [|[k c] es IH]; simpl; [done|].
  case_decide; simpl; [by apply sublist_cons|by apply sublist_skip].
Qed.

Lemma assoc_replace_eq n o es :
  NoDup (names es) → is_Some (assoc n es) → assoc n (replace_entry n o es) = o.
Proof.
  unfold names. induction es as [|[k c] es IH]; simpl; [by intros _ [? ?]|].
  rewrite NoDup_cons. intros [Hk Hnd] Hs. case_decide as Hnk.
  - subst k. destruct o; simpl; [by rewrite decide_True|]. by apply assoc_None.
  - simpl. rewrite decide_False by done. auto.
Qed.

Lemma replace_entry_middle n o es1 es2 c :
  n ∉ names es1 →
  replace_entry n o (es1 ++ (n, c) :: es2)
  = es1 ++ match o with Some c' => [(n, c')] | None => [] end ++ es2.
Proof.
  unfold names. induction es1 as [|[k c1] es1 IH]; simpl.
  - intros _. rewrite decide_True by done. by destruct o.
  - rewrite not_elem_of_cons. intros [Hne Hnin].
    rewrite decide_False by done. by rewrite IH.
Qed.

Lemma assoc_replace_Some n c' es :
  is_Some (assoc n es) → assoc n (replace_entry n (Some c') es) = Some c'.
Proof.
  induction es as [|[k c] es IH]; simpl; [by intros [? ?]|].
  case_decide as Hnk; simpl.
  - by rewrite decide_True.
  - by rewrite decide_False.
Qed.

Lemma replace_replace n o o' es :
  replace_entry n o' (replace_entry n (Some o) es) = replace_entry n o' es.
Proof.
  induction es as [|[k c] es IH]; simpl; [done|].
  case_decide as Hnk; simpl.
  - by rewrite decide_True.
  - rewrite decide_False by done. by rewrite IH.
Qed.
End listings.

Section paths.
Implicit Types (p q : path) (t c : node) (o : option node).

Lemma alter_path_Some p f t c :
  lookup_path p t = Some c →
  alter_path p f t = match f c with Ok o => Ok (put p o t) | Raise e => Raise e end.
Proof.
  revert t. induction p as [|n p IH]; intros t; simpl.
  - intros [= ->]. by destruct (f c).
  - destruct t as [st|st es]; [done|].
    rewrite alter_entry_spec. destruct (assoc n es) as [c'|]; [|done].
    intros Hl. rewrite (IH _ Hl). by destruct (f c).
Qed.

Lemma alter_path_None p f t :
  lookup_path p t = None → ∃ e, alter_path p f t = Raise e.
Proof.
  revert t. induction p as [|n p IH]; intros t; simpl; [done|].
  destruct t as [st|st es]; [eauto|].
  rewrite alter_entry_spec. destruct (assoc n es) as [c'|]; [|eauto].
  intros Hl. destruct (IH _ Hl) as [e ->]. eauto.
Qed.

Lemma apply_at_inv p f t t' :
  apply_at p f t = Ok t' →
  ∃ c o, lookup_path p t = Some c ∧ f c = Ok o ∧ put p o t = Some t'.
Proof.
  unfold apply_at. destruct (lookup_path p t) as [c|] eqn:Hl.
  - rewrite (alter_path_Some _ _ _ _ Hl). destruct (f c) as [o|e] eqn:Hf; [|done].
    destruct (put p o t) as [t1|] eqn:Hp; [|done]. intros [= ->]. eauto.
  - destruct (alter_path_None p f t Hl) as [e ->]. done.
Qed.

Lemma apply_at_ok p f t c o t' :
  lookup_path p t = Some c → f c = Ok o → put p o t = Some t' →
  apply_at p f t = Ok t'.
Proof.
  intros Hl Hf Hp. unfold apply_at. by rewrite (alter_path_Some _ _ _ _ Hl), Hf, Hp.
Qed.

Lemma apply_at_raise p f t c e :
  lookup_path p t = Some c → f c = Raise e → apply_at p f t = Raise e.
Proof.
  intros Hl Hf. unfold apply_at. by rewrite (alter_path_Some _ _ _ _ Hl), Hf.
Qed.

Lemma put_Some_is_Some p x t : is_Some (put p (Some x) t).
Proof. destruct p; [by eexists|]. destruct t; by eexists. Qed.

Lemma put_cons_is_Some n p o t : is_Some (put (n :: p) o t).
Proof. destruct t; by eexists. Qed.

(** A change below one entry of the working folder leaves what is below
    the other entries as it was. *)
Lemma lookup_put_head_ne n p o t t' m q :
  put (n :: p) o t = Some t' → m ≠ n →
  lookup_path (m :: q) t' = lookup_path (m :: q) t.
Proof.
  destruct t as [st|st es]; simpl; intros [= <-] Hne; [done|].
  destruct (assoc n es) as [c|]; [|done]. simpl. by rewrite assoc_replace_ne.
Qed.

Lemma put_app p q o t c :
  lookup_path p t = Some c → put (p ++ q) o t = put p (put q o c) t.
Proof.
  revert t. induction p as [|n p IH]; intros t; simpl.
  - by intros [= ->].
  - destruct t as [st|st es]; [done|].
    destruct (assoc n es) as [c1|]; [|done]. intros Hl. by rewrite (IH _ Hl).
Qed.

Lemma lookup_put_Some p x t t' c :
  lookup_path p t = Some c → put p (Some x) t = Some t' → lookup_path p t' = Some x.
Proof.
  revert t t'. induction p as [|n p IH]; intros t t'; simpl.
  - by intros _ [= ->].
  - destruct t as [st|st es]; [done|].
    destruct (assoc n es) as [c1|] eqn:Ha; [|done]. intros Hl [= <-]. simpl.
    destruct (put_Some_is_Some p x c1) as [c1' Hp]. rewrite Hp.
    rewrite assoc_replace_Some by eauto. eauto.
Qed.

Lemma put_put p x o t t1 c :
  lookup_path p t = Some c → put p (Some x) t = Some t1 → put p o t1 = put p o t.
Proof.
  revert t t1. induction p as [|n p IH]; intros t t1; simpl; [done|].
  destruct t as [st|st es]; [done|].
  destruct (assoc n es) as [c1|] eqn:Ha; [|done]. intros Hl [= <-]. simpl.
  destruct (put_Some_is_Some p x c1) as [c1' Hp]. rewrite Hp.
  rewrite assoc_replace_Some by eauto. rewrite replace_replace.
  by rewrite (IH _ _ Hl Hp).
Qed.

Lemma lookup_path_app p q t :
  lookup_path (p ++ q) t = lookup_path p t ≫= lookup_path q.
Proof.
  revert t. induction p as [|n p IH]; intros t; simpl; [done|].
  destruct t as [st|st es]; [done|]. destruct (assoc n es); [apply IH|done].
Qed.
End paths.

(** ** Well-formed trees under mutation *)

Lemma wf_Dir st es :
  wf_node (Dir st es) = true ↔
  NoDup (names es) ∧ ("" ∉ names es) ∧ Forall (λ e, wf_node e.2 = true) es.
Proof.
  simpl. rewrite !andb_true_iff, !bool_decide_eq_true, forallb_forall, Forall_forall.
  split.
  - intros [[H1 H2] H3]. split_and!; [done..|]. intros e He. by apply H3, list_elem_of_In.
  - intros (H1 & H2 & H3). split_and!; [done..|]. intros e He. by apply H3, list_elem_of_In.
Qed.

Lemma wf_assoc st es n c : wf_node (Dir st es) = true → assoc n es = Some c → wf_node c = true.
Proof.
  rewrite wf_Dir, Forall_forall. intros (_ & _ & H) Ha.
  apply (H (n, c)), assoc_Some_elem, Ha.
Qed.

Lemma wf_lookup p t c : wf_node t = true → lookup_path p t = Some c → wf_node c = true.
Proof.
  revert t. induction p as [|n p IH]; intros t Hwf; simpl; [by intros [= <-]|].
  destruct t as [st|st es]; [done|]. destruct (assoc n es) as [c1|] eqn:Ha; [|done].
  apply IH. eapply wf_assoc; eauto.
Qed.

Lemma Forall_replace_entry (P : string * node → Prop) n o es :
  Forall P es → (∀ x, o = Some x → P (n, x)) → Forall P (replace_entry n o es).
Proof.
  intros HF Ho. induction HF as [|[k c] es Hk HF IH]; simpl; [done|].
  case_decide as Hnk.
  - subst k. destruct o; [constructor; auto|done].
  - constructor; auto.
Qed.

Lemma wf_replace_entry st es n o :
  wf_node (Dir st es) = true → (∀ x, o = Some x → wf_node x = true) →
  wf_node (Dir st (replace_entry n o es)) = true.
Proof.
  rewrite !wf_Dir. intros (Hnd & He & HF) Ho. split_and!.
  - eapply sublist_NoDup; [done|apply names_replace_sublist].
  - intros Hin. apply He. eapply elem_of_sublist; [done|apply names_replace_sublist].
  - apply Forall_replace_entry; [done|]. intros x ->. simpl. auto.
Qed.

Lemma wf_put p o t t' :
  wf_node t = true → (∀ x, o = Some x → wf_node x = true) →
  put p o t = Some t' → wf_node t' = true.
Proof.
  revert t t'. induction p as [|n p IH]; intros t t' Hwf Ho; simpl.
  - intros ->. auto.
  - destruct t as [st|st es]; intros [= <-]; [done|].
    destruct (assoc n es) as [c|] eqn:Ha; [|done].
    apply wf_replace_entry; [done|]. intros x Hx. eapply IH; [|done|exact Hx].
    eapply wf_assoc; eauto.
Qed.

(** The functions handed to [apply_at] by [unlink] and [rmdir] take away a
    node that has nothing below it. *)
Definition removes_leaf (f : node → result (option node)) : Prop :=
  ∀ c o, f c = Ok o → o = None ∧ entries_of c = [].

Lemma unlink_removes_leaf : removes_leaf unlink_node.
Proof. intros [st|st es] o; simpl; [|done]. by intros [= <-]. Qed.

Lemma rmdir_removes_leaf : removes_leaf rmdir_node.
Proof. intros [st|st [|e es]] o; simpl; try done. by intros [= <-]. Qed.

Lemma lookup_leaf n q c : entries_of c = [] → lookup_path (n :: q) c = None.
Proof. destruct c as [st|st es]; simpl; [done|]. by intros ->. Qed.

Lemma attr_at_put_leaf p t t' c :
  wf_node t = true → lookup_path p t = Some c → entries_of c = [] → p ≠ [] →
  put p None t = Some t' →
  ∀ q, attr_at q t' = if decide (q = p) then None else attr_at q t.
Proof.
  unfold attr_at. revert t t'. induction p as [|n p IH]; intros t t' Hwf Hl Hc Hne; [done|].
  destruct t as [st|st es]; [done|]. simpl in Hl. simpl.
  destruct (assoc n es) as [c1|] eqn:Ha; [|done]. intros [= <-] [|m q].
  { by rewrite decide_False. }
  simpl. destruct (decide (m = n)) as [->|Hmn].
  - apply wf_Dir in Hwf as Hwf'. destruct Hwf' as (Hnd & _ & _).
    rewrite assoc_replace_eq, Ha by eauto.
    destruct p as [|n' p'].
    + simpl in *. injection Hl as ->. destruct q as [|k q].
      * by rewrite decide_True.
      * rewrite decide_False by done. by rewrite lookup_leaf.
    + destruct (put_cons_is_Some n' p' None c1) as [c1' Hp]. rewrite Hp.
      rewrite (IH c1 c1'); [|by eapply wf_assoc|done..].
      destruct (decide (q = n' :: p')) as [->|Hq].
      * by rewrite decide_True.
      * rewrite decide_False; [done|]. by intros [= ?].
  - rewrite assoc_replace_ne by done. rewrite decide_False; [done|]. by intros [= ? ?].
Qed.

Lemma apply_at_leaf f p t t' :
  removes_leaf f → wf_node t = true → apply_at p f t = Ok t' →
  wf_node t' = true ∧ p ≠ [] ∧ is_Some (lookup_path p t)
  ∧ ∀ q, attr_at q t' = if decide (q = p) then None else attr_at q t.
Proof.
  intros Hf Hwf (c & o & Hl & Hc & Hp)%apply_at_inv.
  destruct (Hf _ _ Hc) as [-> Hleaf].
  assert (p ≠ []) by (by intros ->).
  split_and!; [|done|eauto|].
  - eapply wf_put; [done| |done]. done.
  - by eapply attr_at_put_leaf.
Qed.

Lemma attr_at_None p t : attr_at p t = None ↔ lookup_path p t = None.
Proof. unfold attr_at. by destruct (lookup_path p t). Qed.

Lemma attr_at_agree p t1 t2 c1 :
  attr_at p t1 = attr_at p t2 → lookup_path p t1 = Some c1 →
  ∃ c2, lookup_path p t2 = Some c2 ∧ stat_of c2 = stat_of c1 ∧ is_dir c2 = is_dir c1.
Proof.
  unfold attr_at. intros H Hl. rewrite Hl in H. simpl in H.
  destruct (lookup_path p t2) as [c2|]; [|done]. simpl in H. injection H as ? ?. eauto.
Qed.

Lemma fs_unlink_attr p t t' :
  wf_node t = true → fs_unlink p t = Ok t' →
  wf_node t' = true
  ∧ ∀ q, attr_at q t' = if decide (q = p) then None else attr_at q t.
Proof.
  intros Hwf Hu.
  destruct (apply_at_leaf _ _ _ _ unlink_removes_leaf Hwf Hu) as (? & _ & _ & ?). done.
Qed.

(** A regular file is told by its kind and stats. *)
Lemma attr_at_File p t t' st :
  attr_at p t' = attr_at p t → lookup_path p t = Some (File st) →
  lookup_path p t' = Some (File st).
Proof.
  unfold attr_at. intros H Hl. rewrite Hl in H.
  destruct (lookup_path p t') as [[st'|st' es']|]; simpl in H; [|done..].
  by injection H as ->.
Qed.

Lemma attr_at_kind p t t' :
  attr_at p t' = attr_at p t → is_dir <$> lookup_path p t' = is_dir <$> lookup_path p t.
Proof.
  unfold attr_at. intros H.
  destruct (lookup_path p t'), (lookup_path p t); simpl in *; congruence.
Qed.

Lemma attr_at_Some p t k st :
  attr_at p t = Some (k, st) →
  ∃ c, lookup_path p t = Some c ∧ is_dir c = k ∧ stat_of c = st.
Proof.
  unfold attr_at. destruct (lookup_path p t) as [c|]; [|done].
  intros [= <- <-]. by exists c.
Qed.

Lemma attr_at_is_Some p t t' :
  attr_at p t' = attr_at p t → (is_Some (lookup_path p t') ↔ is_Some (lookup_path p t)).
Proof.
  unfold attr_at. intros H.
  destruct (lookup_path p t'), (lookup_path p t); simpl in H; try done.
Qed.

(** [t'] holds nothing that [t] does not: every path of [t'] is a path of
    [t], with the same kind and stats. *)
Definition shrinks (t t' : node) : Prop :=
  ∀ q, attr_at q t' = None ∨ attr_at q t' = attr_at q t.

#[global] Instance shrinks_preorder : PreOrder shrinks.
Proof.
  split.
  - intros t q. by right.
  - intros t1 t2 t3 H12 H23 q. destruct (H23 q) as [?|H]; [by left|].
    rewrite H. apply H12.
Qed.

Lemma apply_at_leaf_shrinks f p t t' :
  removes_leaf f → wf_node t = true → apply_at p f t = Ok t' → shrinks t t'.
Proof.
  intros Hf Hwf Ha q. destruct (apply_at_leaf _ _ _ _ Hf Hwf Ha) as (_ & _ & _ & ->).
  case_decide; auto.
Qed.

(** ** Relations kept by every step of a computation *)

(** [keeps R m]: whatever [m] does and however it ends, normally or with an
    exception, the state it leaves is related by [R] to the one it started
    from. *)
Definition keeps {A} (R : relation state) (m : M A) : Prop := ∀ s, R s (m s).2.

Section keeps.
Context {R : relation state} `{!PreOrder R}.

Lemma keeps_same {A} (m : M A) : (∀ s, (m s).2 = s) → keeps R m.
Proof. intros H s. by rewrite H. Qed.

Lemma keeps_ret {A} (a : A) : keeps R (ret a).
Proof. by apply keeps_same. Qed.

Lemma keeps_raise {A} e : keeps R (raise (A := A) e).
Proof. by apply keeps_same. Qed.

Lemma keeps_assert b msg : keeps R (assert b msg).
Proof. destruct b; [apply keeps_ret|apply keeps_raise]. Qed.

Lemma keeps_bind_val {A B} (P : A → Prop) (m : M A) (k : A → M B) :
  (∀ s a s', m s = (Ok a, s') → P a) →
  keeps R m → (∀ a, P a → keeps R (k a)) → keeps R (bind m k).
Proof.
  intros HP Hm Hk s. unfold bind. specialize (Hm s). specialize (HP s).
  destruct (m s) as [[a|e] s1]; simpl in *; [|done].
  etrans; [exact Hm|]. apply Hk. eauto.
Qed.

Lemma keeps_bind {A B} (m : M A) (k : A → M B) :
  keeps R m → (∀ a, keeps R (k a)) → keeps R (bind m k).
Proof. intros Hm Hk. apply (keeps_bind_val (λ _, True)); auto. Qed.

(** Two steps taken as one block, followed by the rest. *)
Lemma keeps_block {A B C} (m1 : M A) (m2 : M B) (k : B → M C) :
  keeps R (bind m1 (λ _, m2)) → (∀ b, keeps R (k b)) →
  keeps R (bind m1 (λ _, bind m2 k)).
Proof.
  intros H12 Hk s. specialize (H12 s). unfold bind in *.
  destruct (m1 s) as [[a|e] s1]; [|done].
  destruct (m2 s1) as [[b|e] s2]; [|done].
  etrans; [exact H12|]. apply Hk.
Qed.

Lemma keeps_path_is_dir p : keeps R (path_is_dir p).
Proof. by apply keeps_same. Qed.

Lemma keeps_iterdir p : keeps R (iterdir p).
Proof.
  apply keeps_same. intros s. unfold iterdir.
  by destruct (lookup_path p (fs s)) as [[?|? ?]|].
Qed.

Lemma keeps_master_files_of m : keeps R (master_files_of m).
Proof. by apply keeps_same. Qed.

Lemma keeps_path_walk p : keeps R (path_walk p).
Proof. by apply keeps_same. Qed.

Lemma keeps_all_is_dir cs : keeps R (all_is_dir cs).
Proof.
  induction cs as [|c cs IH]; simpl; [apply keeps_ret|].
  apply keeps_bind; [apply keeps_path_is_dir|]. intros []; [done|apply keeps_ret].
Qed.
End keeps.

(** ** Where a run writes *)

Section confinement.
Variables (master_backup : string) (older_backups : list string).

(** The master is none of the older backups and is not named like a run
    log; both hold for the children of a directory with distinct names. *)
Definition master_apart : Prop :=
  (master_backup ∉ older_backups) ∧ endswith master_backup log_suffix = false.

(** What may appear in the trace of a run: a file is removed only from
    below an older backup and right after its row was written and the
    removal announced; a directory is removed only from an older backup;
    the only file opened is a run log directly in the working folder. *)
Definition trace_ok (tr : list event) : Prop :=
  (∀ pre p post, tr = pre ++ EvUnlink p :: post →
     ∃ g f pre' ac mc,
       p = g :: f ∧ g ∈ older_backups ∧
       pre = pre' ++ [EvWrite (Row p (master_backup :: f) ac mc); EvPrint (Deleting p)])
  ∧ (∀ p, EvRmdir p ∈ tr → ∃ g f, p = g :: f ∧ g ∈ older_backups)
  ∧ (∀ p, EvOpen p ∈ tr → ∃ n, p = [n] ∧ endswith n log_suffix = true).

(** The state after is the state before with nothing changed below the
    master and with a trace grown by admissible events. *)
Definition confined : relation state := λ s s',
  (master_apart →
   ∀ p, lookup_path (master_backup :: p) (fs s') = lookup_path (master_backup :: p) (fs s))
  ∧ ∃ tr, trace s' = trace s ++ tr ∧ trace_ok tr.

Lemma trace_ok_reads tr :
  Forall (λ e, is_mutation e = false) tr → trace_ok tr.
Proof.
  rewrite Forall_forall. intros H. split_and!.
  - intros pre p post ->. specialize (H (EvUnlink p)). simpl in H.
    discriminate H. apply elem_of_app. right. left.
  - intros p Hin. by specialize (H _ Hin).
  - intros p Hin. by specialize (H _ Hin).
Qed.

Lemma trace_ok_app tr1 tr2 : trace_ok tr1 → trace_ok tr2 → trace_ok (tr1 ++ tr2).
Proof.
  intros (U1 & D1 & O1) (U2 & D2 & O2). split_and!.
  - intros pre p post Heq. apply app_eq_inv in Heq as [(k & -> & Hk)|(k & -> & ->)].
    + destruct k as [|e k]; simpl in Hk.
      * subst tr2. destruct (U2 [] p post eq_refl) as (? & ? & pre' & ? & ? & _ & _ & Hpre).
        by destruct pre'.
      * injection Hk as <- ->. eauto.
    + destruct (U2 _ _ _ eq_refl) as (g & f & pre' & ac & mc & ? & ? & ->).
      exists g, f, (tr1 ++ pre'), ac, mc. by rewrite <- (assoc_L (++)).
  - intros p [?|?]%elem_of_app; eauto.
  - intros p [?|?]%elem_of_app; eauto.
Qed.

#[global] Instance confined_preorder : PreOrder confined.
Proof.
  split.
  - intros s. split; [done|]. exists []. split; [by rewrite app_nil_r|].
    by apply trace_ok_reads.
  - intros s1 s2 s3 [F12 (tr1 & E1 & T1)] [F23 (tr2 & E2 & T2)]. split.
    + intros Ha p. by rewrite F23, F12.
    + exists (tr1 ++ tr2). split; [|by apply trace_ok_app].
      by rewrite E2, E1, <- (assoc_L (++)).
Qed.

Lemma confined_emit e : is_mutation e = false → keeps confined (emit e).
Proof.
  intros He s. split; [done|]. exists [e]. split; [done|].
  apply trace_ok_reads. by constructor.
Qed.

Lemma confined_path_exists p : keeps confined (path_exists p).
Proof. apply (confined_emit (EvExists p) eq_refl). Qed.

Lemma confined_path_stat p : keeps confined (path_stat p).
Proof.
  intros s. unfold path_stat. destruct (lookup_path p (fs s)); [|done].
  apply (confined_emit (EvStat p) eq_refl).
Qed.

Lemma put_keeps_master g p o t t' q :
  g ≠ master_backup → put (g :: p) o t = Some t' →
  lookup_path (master_backup :: q) t' = lookup_path (master_backup :: q) t.
Proof. intros Hg Hp. by eapply lookup_put_head_ne. Qed.

Lemma older_not_master g : master_apart → g ∈ older_backups → g ≠ master_backup.
Proof. intros [Hm _] Hg ->. by apply Hm. Qed.

(** Writing the row of a duplicate and deleting it, as one block. *)
Lemma confined_write_delete g f ac mc dry_run :
  g ∈ older_backups →
  keeps confined
    (write (Row (g :: f) (master_backup :: f) ac mc);;; delete (g :: f) dry_run).
Proof.
  intros Hg s. unfold write, delete, print, emit, unlink, mutate, bind, ret. simpl.
  destruct dry_run; simpl.
  { split; [done|]. eexists [_; _]. split; [by rewrite <- (assoc_L (++))|].
    apply trace_ok_reads. by repeat constructor. }
  destruct (fs_unlink (g :: f) (fs s)) as [t'|e] eqn:Hu; simpl.
  - split.
    + apply apply_at_inv in Hu as (c & o & _ & _ & Hp). intros Ha q.
      eapply put_keeps_master; [|done]. by apply older_not_master.
    + eexists [_; _; _]. split; [by rewrite <- !(assoc_L (++))|]. split_and!.
      * intros pre p post Heq.
        destruct pre as [|? [|? [|? pre]]]; simplify_eq/=.
        -- exists g, f, [], ac, mc. done.
        -- by destruct pre.
      * intros p Hin. repeat (apply elem_of_cons in Hin as [?|Hin]; [done|]).
        by apply elem_of_nil in Hin.
      * intros p Hin. repeat (apply elem_of_cons in Hin as [?|Hin]; [done|]).
        by apply elem_of_nil in Hin.
  - split; [done|]. eexists [_; _]. split; [by rewrite <- (assoc_L (++))|].
    apply trace_ok_reads. by repeat constructor.
Qed.

Lemma confined_scan dry_run assume_continuity file master_stats backups bytes_freed :
  backups ⊆ older_backups →
  keeps confined
    (scan dry_run assume_continuity file (master_backup :: file) master_stats
       backups bytes_freed).
Proof.
  revert bytes_freed. induction backups as [|g rest IH]; intros b Hsub; simpl.
  { apply keeps_ret. }
  assert (Hg : g ∈ older_backups) by (apply Hsub; left).
  assert (Hrest : rest ⊆ older_backups) by (intros x ?; apply Hsub; by right).
  apply keeps_bind; [apply confined_path_exists|]. intros e.
  destruct (negb e).
  { destruct assume_continuity; [apply keeps_ret|by apply IH]. }
  apply keeps_bind; [apply confined_path_stat|]. intros alt_stats.
  destruct (negb _).
  { destruct assume_continuity; [apply keeps_ret|by apply IH]. }
  apply keeps_block; [by apply confined_write_delete|]. intros _. by apply IH.
Qed.

Lemma confined_scan_files dry_run assume_continuity files bytes_freed :
  keeps confined
    (scan_files dry_run assume_continuity master_backup older_backups files bytes_freed).
Proof.
  revert bytes_freed. induction files as [|f files IH]; intros b; simpl.
  { apply keeps_ret. }
  apply keeps_bind; [|done]. unfold scan_file.
  apply keeps_bind; [apply confined_path_stat|]. intros ms.
  by apply confined_scan.
Qed.

Lemma confined_rmdir g p : g ∈ older_backups → keeps confined (rmdir (g :: p)).
Proof.
  intros Hg s. unfold rmdir, mutate.
  destruct (fs_rmdir (g :: p) (fs s)) as [t'|e] eqn:Hr; simpl; [|done].
  split.
  - apply apply_at_inv in Hr as (c & o & _ & _ & Hp). intros Ha q.
    eapply put_keeps_master; [|done]. by apply older_not_master.
  - exists [EvRmdir (g :: p)]. split; [done|]. split_and!.
    + intros pre q post Heq. destruct pre as [|? [|? pre]]; simplify_eq/=.
    + intros q [= ->]%list_elem_of_singleton. eauto.
    + intros q [=]%list_elem_of_singleton.
Qed.

Lemma confined_reclaim triples deleted :
  Forall (λ tr, ∃ g p, tr.1.1 = g :: p ∧ g ∈ older_backups) triples →
  keeps confined (reclaim triples deleted).
Proof.
  intros H. revert deleted.
  induction H as [|[[cur subdirs] files] triples (g & p & Hcur & Hg) _ IH];
    intros deleted; simpl.
  { apply keeps_ret. }
  simpl in Hcur. subst cur.
  destruct (_ && _); [|done].
  apply keeps_bind; [apply keeps_iterdir|]. intros listing.
  apply keeps_bind; [apply keeps_assert|]. intros _.
  apply keeps_bind; [by apply confined_emit|]. intros _.
  apply keeps_bind; [by apply confined_rmdir|]. intros _. done.
Qed.

Lemma walk_prefix t : ∀ p tr, tr ∈ walk p t → p `prefix_of` tr.1.1.
Proof.
  induction t as [st|st es IH] using node_induction; intros p tr; simpl.
  { by intros ?%elem_of_nil. }
  rewrite elem_of_app, list_elem_of_bind, list_elem_of_singleton.
  intros [(e & Hin & He)|Heq].
  - rewrite Forall_forall in IH. apply (IH _ He) in Hin.
    by eapply prefix_app_l.
  - by subst tr.
Qed.

Lemma confined_delete_empty_folders g :
  g ∈ older_backups → keeps confined (delete_empty_folders [g]).
Proof.
  intros Hg. unfold delete_empty_folders.
  apply (keeps_bind_val
           (Forall (λ tr, ∃ g p, tr.1.1 = g :: p ∧ g ∈ older_backups)));
    [|apply keeps_path_walk|intros triples ?; by apply confined_reclaim].
  intros s triples s'. unfold path_walk.
  destruct (lookup_path [g] (fs s)) as [t|]; intros [= <- <-]; simpl; [|constructor].
  apply Forall_forall. intros tr [k Hk]%walk_prefix. rewrite Hk. eauto.
Qed.

Lemma confined_delete_empty_folders_all backups :
  backups ⊆ older_backups → keeps confined (delete_empty_folders_all backups).
Proof.
  induction backups as [|g rest IH]; intros Hsub; simpl; [apply keeps_ret|].
  apply keeps_bind.
  - apply confined_delete_empty_folders, Hsub. left.
  - intros _. apply IH. intros x ?. apply Hsub. by right.
Qed.

Lemma fs_create_lookup_ne n new t t' m q :
  fs_create n new t = Ok t' → m ≠ n →
  lookup_path (m :: q) t' = lookup_path (m :: q) t.
Proof.
  destruct t as [st|st es]; simpl; [done|]. intros Hc Hne.
  destruct (assoc n es) as [[st'|st' es']|] eqn:Ha; [|done|].
  - rewrite alter_entry_spec, Ha in Hc. injection Hc as <-. simpl.
    by rewrite assoc_replace_ne.
  - injection Hc as <-. simpl. rewrite assoc_app. simpl.
    rewrite (decide_False (P := m = n)) by done. by destruct (assoc m es).
Qed.

Lemma confined_open_w n now : endswith n log_suffix = true → keeps confined (open_w n now).
Proof.
  intros Hn s. unfold open_w, mutate.
  destruct (fs_create _ _ _) as [t'|e] eqn:Hc; simpl; [|done]. split.
  - intros [_ Hm] q. eapply fs_create_lookup_ne; [done|]. intros ->. congruence.
  - exists [EvOpen [n]]. split; [done|]. split_and!.
    + intros pre q post Heq. destruct pre as [|? [|? pre]]; simplify_eq/=.
    + intros q [=]%list_elem_of_singleton.
    + intros q [= ->]%list_elem_of_singleton. eauto.
Qed.
End confinement.

Lemma endswith_refl s : endswith s s = true.
Proof. destruct s; cbn [endswith]; by rewrite bool_decide_eq_true_2. Qed.

Lemma endswith_app a s suffix : endswith s suffix = true → endswith (a +:+ s) suffix = true.
Proof.
  intros H. induction a as [|c a IH]; [done|].
  change (String c a +:+ s) with (String c (a +:+ s)). cbn [endswith].
  rewrite IH. apply orb_true_r.
Qed.

Lemma log_name_suffix now dry_run : endswith (log_name now dry_run) log_suffix = true.
Proof. unfold log_name. do 3 apply endswith_app. apply endswith_refl. Qed.

(** ** The children of the working folder *)

#[global] Instance string_ge_total : Total (flip String.le).
Proof. intros x y. unfold flip. destruct (total String.le y x); auto. Qed.

#[global] Instance string_ge_trans : Transitive (flip String.le).
Proof. intros x y z. unfold flip. intros ? ?. by etrans. Qed.

#[global] Instance string_ge_antisymm : AntiSymm (=) (flip String.le).
Proof. intros x y. unfold flip. intros ? ?. by apply (anti_symm String.le). Qed.

Lemma children_of_elem l n :
  n ∈ children_of l ↔ n ∈ l ∧ endswith n log_suffix = false.
Proof.
  unfold children_of, sorted_reverse.
  rewrite list_elem_of_filter, merge_sort_Permutation. tauto.
Qed.

Lemma children_of_NoDup l : NoDup l → NoDup (children_of l).
Proof.
  intros H. apply NoDup_filter. unfold sorted_reverse. by rewrite merge_sort_Permutation.
Qed.

Lemma StronglySorted_filter {A} (R : relation A) (P : A → Prop) `{∀ x, Decision (P x)} l :
  StronglySorted R l → StronglySorted R (filter P l).
Proof.
  induction 1 as [|x l Hl IH Hx]; [constructor|].
  rewrite filter_cons. case_decide; [|done]. constructor; [done|].
  apply Forall_forall. intros y [_ Hy]%list_elem_of_filter.
  rewrite Forall_forall in Hx. auto.
Qed.

Lemma children_of_sorted l : StronglySorted (flip String.le) (children_of l).
Proof. apply StronglySorted_filter, StronglySorted_merge_sort; apply _. Qed.

Lemma children_of_apart l master_backup older_backups :
  NoDup l → children_of l = master_backup :: older_backups →
  master_apart master_backup older_backups.
Proof.
  intros Hnd Hc. split.
  - apply children_of_NoDup in Hnd. rewrite Hc in Hnd. by apply NoDup_cons in Hnd as [? _].
  - apply (children_of_elem l). rewrite Hc. left.
Qed.

Lemma confined_deduplicate dry_run assume_continuity now s master_backup older_backups :
  children_of (names (entries_of (fs s))) = master_backup :: older_backups →
  confined master_backup older_backups s (deduplicate dry_run assume_continuity now s).2.
Proof.
  intros Hc. unfold deduplicate, bind at 1, iterdir. simpl.
  destruct (fs s) as [st|st es]; [reflexivity|]. simpl in Hc. rewrite Hc.
  match goal with |- confined _ _ _ (?m s).2 =>
    cut (keeps (confined master_backup older_backups) m); [intros K; apply K|] end.
  apply keeps_bind; [apply keeps_all_is_dir|]. intros dirs.
  apply keeps_bind; [apply keeps_assert|]. intros _.
  apply keeps_bind; [apply keeps_master_files_of|]. intros files.
  apply keeps_bind; [apply confined_open_w, log_name_suffix|]. intros _.
  apply keeps_bind; [by apply confined_emit|]. intros _.
  apply keeps_bind; [apply confined_scan_files|]. intros b.
  apply keeps_bind.
  { destruct dry_run; [apply keeps_ret|]. by apply confined_delete_empty_folders_all. }
  intros _. destruct (format_bytes b) as [[amount label]|e]; [|apply keeps_raise].
  apply keeps_bind; [by apply confined_emit|]. intros _. apply keeps_ret.
Qed.

Lemma deduplicate_no_children dry_run assume_continuity now s :
  children_of (names (entries_of (fs s))) = [] →
  (deduplicate dry_run assume_continuity now s).2 = s.
Proof.
  intros Hc. unfold deduplicate, bind at 1, iterdir. simpl.
  destruct (fs s) as [st|st es]; [done|]. simpl in Hc. by rewrite Hc.
Qed.

(** ** Sample trees *)

Definition file (size ctime : Z) : node := File {| st_size := size; st_ctime := ctime |}.

Definition folder (es : list (string * node)) : node :=
  Dir {| st_size := 4096; st_ctime := 0 |} es.

Definition noon : datetime := {| isoformat := "2024-06-01T12:00:00"; timestamp := 1717243200 |}.

Definition evening : datetime := {| isoformat := "2024-06-01T19:30:00"; timestamp := 1717270200 |}.

(** A master [2024] and one older backup that shares a photo with it. *)
Definition photo_tree : node :=
  folder [("2023", folder [("photo.jpg", file 1000 1); ("note.txt", file 50 2)]);
          ("2024", folder [("photo.jpg", file 1000 3)])].

(** ** Master invariance and the order of log and delete *)

(** X20 (the master is left alone, in a working folder without links).  Take
    any tree, hence a working folder without symbolic links and without
    files under two names, whose top-level names are distinct and whose
    children are [master_backup :: older_backups].  In the state a run of
    [deduplicate] leaves, with any [dry_run] and [assume_continuity] and
    whether it returns or raises, every path below the master resolves to
    what it resolved to before the run, and every file or directory removal
    recorded in the trace is at a path below one of the older backups, none
    of which is the master.  (With a symbolic link from an older backup into
    the master the program does remove files of the master; such a folder is
    no tree of the model.) *)
Theorem master_invariance dry_run assume_continuity now t master_backup older_backups :
  NoDup (names (entries_of t)) →
  children_of (names (entries_of t)) = master_backup :: older_backups →
  (∀ p, lookup_path (master_backup :: p) (fs (run dry_run assume_continuity now t).2)
        = lookup_path (master_backup :: p) t)
  ∧ (∀ p, EvUnlink p ∈ trace (run dry_run assume_continuity now t).2
          ∨ EvRmdir p ∈ trace (run dry_run assume_continuity now t).2 →
       ∃ g f, p = g :: f ∧ g ∈ older_backups ∧ g ≠ master_backup).
Proof.
  intros Hnd Hc. pose proof (children_of_apart _ _ _ Hnd Hc) as Ha.
  destruct (confined_deduplicate dry_run assume_continuity now
              {| fs := t; trace := [] |} _ _ Hc) as [Hfs (tr & Htr & U & D & _)].
  fold (run dry_run assume_continuity now t) in *. simpl in Htr. split.
  - intros p. by rewrite Hfs.
  - rewrite Htr. intros p [Hin|Hin].
    + apply list_elem_of_split in Hin as (pre & post & ->).
      destruct (U _ _ _ eq_refl) as (g & f & _ & _ & _ & -> & Hg & _).
      exists g, f. split_and!; [done..|]. by eapply older_not_master.
    + destruct (D _ Hin) as (g & f & -> & Hg).
      exists g, f. split_and!; [done..|]. by eapply older_not_master.
Qed.

Lemma master_invariance_witness :
  (∀ p, lookup_path ("2024" :: p) (fs (run false true noon photo_tree).2)
        = lookup_path ("2024" :: p) photo_tree)
  ∧ (∀ p, EvUnlink p ∈ trace (run false true noon photo_tree).2
          ∨ EvRmdir p ∈ trace (run false true noon photo_tree).2 →
       ∃ g f, p = g :: f ∧ g ∈ ["2023"] ∧ g ≠ "2024").
Proof.
  apply (master_invariance false true noon photo_tree "2024" ["2023"]).
  - apply (bool_decide_unpack _). vm_compute. exact I.
  - vm_compute. reflexivity.
Defined.

(** C4 (log before delete).  In the trace of any run, returning or raising,
    every removal of a file is immediately preceded by the announcement of
    that removal and, right before it, by the write of the log row for that
    very path: the row names the removed path under an older backup and the
    same relative path under the master.  A removal therefore never occurs
    in a trace, nor in any initial part of it, without its row before it. *)
Theorem log_before_delete dry_run assume_continuity now t pre p post :
  trace (run dry_run assume_continuity now t).2 = pre ++ EvUnlink p :: post →
  ∃ master_backup older_backups g f pre' alt_ctime master_ctime,
    children_of (names (entries_of t)) = master_backup :: older_backups
    ∧ g ∈ older_backups ∧ p = g :: f
    ∧ pre = pre' ++ [EvWrite (Row p (master_backup :: f) alt_ctime master_ctime);
                     EvPrint (Deleting p)].
Proof.
  unfold run. destruct (children_of (names (entries_of t))) as [|m older] eqn:Hc.
  - rewrite deduplicate_no_children by done. simpl. intros Heq. by destruct pre.
  - destruct (confined_deduplicate dry_run assume_continuity now
                {| fs := t; trace := [] |} _ _ Hc) as [_ (tr & Htr & U & _)].
    simpl in Htr. rewrite Htr. intros Heq.
    destruct (U _ _ _ Heq) as (g & f & pre' & ac & mc & -> & Hg & ->).
    by exists m, older, g, f, pre', ac, mc.
Qed.

Lemma log_before_delete_witness :
  ∃ master_backup older_backups g f pre' alt_ctime master_ctime,
    children_of (names (entries_of photo_tree)) = master_backup :: older_backups
    ∧ g ∈ older_backups ∧ ["2023"; "photo.jpg"] = g :: f
    ∧ [EvOpen [log_name noon false]; EvWrite Header; EvStat ["2024"; "photo.jpg"];
       EvExists ["2023"; "photo.jpg"]; EvStat ["2023"; "photo.jpg"];
       EvWrite (Row ["2023"; "photo.jpg"] ["2024"; "photo.jpg"] 1 3);
       EvPrint (Deleting ["2023"; "photo.jpg"])]
      = pre' ++ [EvWrite (Row ["2023"; "photo.jpg"] (master_backup :: f)
                            alt_ctime master_ctime);
                 EvPrint (Deleting ["2023"; "photo.jpg"])].
Proof.
  apply (log_before_delete false true noon photo_tree _ _ [EvPrint (Freed 1000 "bytes")]).
  vm_compute. reflexivity.
Defined.

(** ** Enumerating the generations *)

Lemma all_is_dir_spec cs s :
  all_is_dir cs s
  = (Ok (forallb (λ c, from_option is_dir false (lookup_path [c] (fs s))) cs), s).
Proof.
  induction cs as [|c cs IH]; [done|].
  cbn [all_is_dir forallb]. unfold bind, path_is_dir.
  destruct (from_option is_dir false (lookup_path [c] (fs s))); [apply IH|done].
Qed.

(** C7 (generation enumeration).  For a working folder with entries [es],
    the children the program works on are exactly the entry names that do
    not end with [.log.csv] (same names, same multiplicities), in descending
    order of name.  If one of them is not a directory, every run raises the
    assertion error and leaves the tree as it was and the trace empty: no
    log is created and nothing is removed. *)
Theorem generation_enumeration st es dry_run assume_continuity now :
  children_of (names es) ≡ₚ filter (λ n, endswith n log_suffix = false) (names es)
  ∧ StronglySorted (flip String.le) (children_of (names es))
  ∧ ((∃ c, c ∈ children_of (names es) ∧ from_option is_dir false (assoc c es) = false) →
     run dry_run assume_continuity now (Dir st es)
     = (Raise (AssertionError "not all children are directories"),
        {| fs := Dir st es; trace := [] |})).
Proof.
  split_and!.
  - unfold children_of, sorted_reverse. by rewrite merge_sort_Permutation.
  - apply children_of_sorted.
  - intros (c & Hin & Hc). unfold run, deduplicate, bind at 1, iterdir. simpl.
    unfold bind at 1. rewrite all_is_dir_spec. simpl.
    replace (forallb _ _) with false; [done|].
    symmetry. apply not_true_iff_false. rewrite forallb_forall.
    intros H. specialize (H c). rewrite <- list_elem_of_In in H. specialize (H Hin).
    destruct (assoc c es); simpl in *; congruence.
Qed.

(** A working folder in which a stray file sits beside the backups. *)
Definition stray_tree : node :=
  folder [("2023", folder [("photo.jpg", file 1000 1)]);
          ("2024", folder [("photo.jpg", file 1000 3)]);
          ("README", file 12 5);
          ("deduplication-2024-05-01T08:00:00.log.csv", file 70 4)].

Lemma generation_enumeration_witness :
  children_of (names (entries_of stray_tree)) = ["README"; "2024"; "2023"]
  ∧ run false true noon stray_tree
    = (Raise (AssertionError "not all children are directories"),
       {| fs := stray_tree; trace := [] |}).
Proof.
  split; [vm_compute; reflexivity|].
  apply (generation_enumeration {| st_size := 4096; st_ctime := 0 |}
           (entries_of stray_tree) false true noon).
  exists "README". split; [|reflexivity].
  apply (bool_decide_unpack _). vm_compute. exact I.
Defined.

(** ** Formatting the total *)

Fixpoint pow1024 (n : nat) : Q :=
  match n with
  | O => 1
  | S n' => power * pow1024 n'
  end.

Lemma pow1024_pos n : (0 < pow1024 n)%Q.
Proof.
  induction n as [|n IH]; simpl; [reflexivity|].
  apply Qmult_lt_0_compat; [reflexivity|done].
Qed.

Lemma format_loop_spec size n :
  (n ≤ (format_loop size n).2)%nat
  ∧ ((format_loop size n).1 * pow1024 ((format_loop size n).2 - n) == size)%Q
  ∧ ((format_loop size n).1 <= power)%Q
  ∧ ∀ k, (k < (format_loop size n).2 - n)%nat → (power * pow1024 k < size)%Q.
Proof.
  apply (format_loop_elim (λ size n r,
    (n ≤ r.2)%nat ∧ (r.1 * pow1024 (r.2 - n) == size)%Q ∧ (r.1 <= power)%Q
    ∧ ∀ k, (k < r.2 - n)%nat → (power * pow1024 k < size)%Q)); clear size n.
  - intros size Hlt n (Hn & Hv & Hle & Hmin) _.
    set (r := format_loop (size / power) (S n)) in *.
    assert (Hsub : (r.2 - n = S (r.2 - S n))%nat) by lia.
    split_and!; [lia| |done|].
    + rewrite Hsub. simpl. rewrite (Qmult_comm power), Qmult_assoc, Hv.
      unfold Qdiv. rewrite <- Qmult_assoc, (Qmult_comm (/ power)), Qmult_inv_r; [|done].
      apply Qmult_1_r.
    + rewrite Hsub. intros [|k] Hk; simpl.
      * by rewrite Qmult_1_r.
      * assert (Hk' : (k < r.2 - S n)%nat) by lia. apply Hmin in Hk'.
        apply (Qmult_lt_l _ _ power) in Hk'; [|reflexivity].
        eapply Qlt_le_trans; [exact Hk'|]. unfold Qdiv.
        rewrite (Qmult_comm size), Qmult_assoc, Qmult_inv_r; [|done].
        rewrite Qmult_1_l. apply Qle_refl.
  - intros size Hle n _. simpl. replace (n - n)%nat with 0%nat by lia. simpl.
    split_and!; [done|apply Qmult_1_r|done|]. intros k Hk. lia.
Qed.



(** ** One step of the scan *)

(** The state with more events in its trace and the same tree. *)
Definition record (s : state) (evs : list event) : state :=
  {| fs := fs s; trace := trace s ++ evs |}.

Lemma record_record s evs1 evs2 : record (record s evs1) evs2 = record s (evs1 ++ evs2).
Proof. unfold record. simpl. by rewrite <- (assoc_L (++)). Qed.

Section scan_steps.
Context (dry_run assume_continuity : bool) (file master_file : path) (master_stats : stats).
Implicit Types (g : string) (rest : list string) (b : Z) (s : state).

#[local] Abbreviation scan_from := (scan dry_run assume_continuity file master_file master_stats).

Lemma scan_absent g rest b s :
  lookup_path (g :: file) (fs s) = None →
  scan_from (g :: rest) b s
  = if assume_continuity then (Ok b, record s [EvExists (g :: file)])
    else scan_from rest b (record s [EvExists (g :: file)]).
Proof.
  intros Hl. cbn [scan]. unfold bind at 1, path_exists. rewrite Hl.
  rewrite bool_decide_eq_false_2 by (by intros [? ?]). simpl.
  by destruct assume_continuity.
Qed.

Lemma scan_mismatch g rest b s alt :
  lookup_path (g :: file) (fs s) = Some alt →
  st_size (stat_of alt) ≠ st_size master_stats →
  scan_from (g :: rest) b s
  = if assume_continuity
    then (Ok b, record s [EvExists (g :: file); EvStat (g :: file)])
    else scan_from rest b (record s [EvExists (g :: file); EvStat (g :: file)]).
Proof.
  intros Hl Hne. cbn [scan]. unfold bind at 1, path_exists. rewrite Hl.
  rewrite bool_decide_eq_true_2 by eauto. cbn [negb].
  unfold bind at 1, path_stat. cbn [fs trace]. rewrite Hl.
  apply Z.eqb_neq in Hne. rewrite Hne. cbn [negb].
  rewrite <- (assoc_L (++)). by destruct assume_continuity.
Qed.

Lemma scan_match g rest b s alt :
  lookup_path (g :: file) (fs s) = Some alt →
  st_size (stat_of alt) = st_size master_stats →
  scan_from (g :: rest) b s
  = (delete (g :: file) dry_run;;;
     scan_from rest (b + st_size (stat_of alt))%Z)
      (record s [EvExists (g :: file); EvStat (g :: file);
                 EvWrite (Row (g :: file) master_file (st_ctime (stat_of alt))
                            (st_ctime master_stats))]).
Proof.
  intros Hl He. cbn [scan]. unfold bind at 1, path_exists. rewrite Hl.
  rewrite bool_decide_eq_true_2 by eauto. cbn [negb].
  unfold bind at 1, path_stat. cbn [fs trace]. rewrite Hl.
  apply Z.eqb_eq in He. rewrite He. cbn [negb].
  unfold bind at 1, write, emit. cbn [fs trace]. unfold record.
  by rewrite <- !(assoc_L (++)).
Qed.
End scan_steps.

Lemma delete_dry file s :
  delete file true s = (Ok tt, record s [EvPrint (Deleting file)]).
Proof. done. Qed.

Lemma delete_real file s :
  delete file false s
  = match fs_unlink file (fs s) with
    | Ok t' => (Ok tt, {| fs := t'; trace := trace s ++ [EvPrint (Deleting file); EvUnlink file] |})
    | Raise e => (Raise e, record s [EvPrint (Deleting file)])
    end.
Proof.
  unfold delete, bind, print, emit, unlink, mutate. cbn [fs trace].
  destruct (fs_unlink file (fs s)); [|done]. by rewrite <- (assoc_L (++)).
Qed.

Lemma scan_files_cons dry_run assume_continuity master_backup older_backups f files b s cm :
  lookup_path (master_backup :: f) (fs s) = Some cm →
  scan_files dry_run assume_continuity master_backup older_backups (f :: files) b s
  = match scan dry_run assume_continuity f (master_backup :: f) (stat_of cm) older_backups b
            (record s [EvStat (master_backup :: f)]) with
    | (Ok b1, s1) =>
        scan_files dry_run assume_continuity master_backup older_backups files b1 s1
    | (Raise e, s1) => (Raise e, s1)
    end.
Proof.
  intros Hl. cbn [scan_files]. unfold bind at 1, scan_file, bind at 1, path_stat.
  by rewrite Hl.
Qed.

Lemma scan_files_missing dry_run assume_continuity master_backup older_backups f files b s :
  lookup_path (master_backup :: f) (fs s) = None →
  scan_files dry_run assume_continuity master_backup older_backups (f :: files) b s
  = (Raise FileNotFoundError, s).
Proof.
  intros Hl. cbn [scan_files]. unfold bind at 1, scan_file, bind at 1, path_stat.
  by rewrite Hl.
Qed.

Lemma fs_unlink_file p t st :
  p ≠ [] → lookup_path p t = Some (File st) →
  ∃ t', fs_unlink p t = Ok t' ∧ put p None t = Some t'.
Proof.
  intros Hp Hl. destruct p as [|n p]; [done|].
  destruct (put_cons_is_Some n p None t) as [t' Ht']. exists t'. split; [|done].
  by eapply apply_at_ok.
Qed.

Lemma fs_unlink_dir p t st es :
  lookup_path p t = Some (Dir st es) → fs_unlink p t = Raise IsADirectoryError.
Proof. intros Hl. by eapply apply_at_raise. Qed.

Lemma scan_exhaustive_probes dry_run file master_file master_stats gens :
  ∀ b s b' s',
    scan dry_run false file master_file master_stats gens b s = (Ok b', s') →
    ∃ tr, trace s' = trace s ++ tr ∧ ∀ g, g ∈ gens → EvExists (g :: file) ∈ tr.
Proof.
  induction gens as [|g rest IH]; intros b s b' s'.
  { intros [= <- <-]. exists []. split; [by rewrite app_nil_r|]. by intros g ?%elem_of_nil. }
  assert (Hstep : ∀ s1 b1 evs,
    scan dry_run false file master_file master_stats rest b1 s1 = (Ok b', s') →
    trace s1 = trace s ++ EvExists (g :: file) :: evs →
    ∃ tr, trace s' = trace s ++ tr ∧ ∀ g', g' ∈ g :: rest → EvExists (g' :: file) ∈ tr).
  { intros s1 b1 evs Hs Htr. destruct (IH _ _ _ _ Hs) as (tr & Htr' & Hin).
    exists (EvExists (g :: file) :: evs ++ tr). split.
    - rewrite Htr', Htr. by rewrite <- (assoc_L (++)).
    - intros g' [->|Hg']%elem_of_cons; [left|].
      right. apply elem_of_app. right. auto. }
  destruct (lookup_path (g :: file) (fs s)) as [alt|] eqn:Hl.
  - destruct (decide (st_size (stat_of alt) = st_size master_stats)) as [He|Hne].
    + rewrite (scan_match _ _ _ _ _ _ _ _ _ _ Hl He). unfold bind.
      destruct dry_run.
      * rewrite delete_dry. intros Hs. eapply Hstep; [exact Hs|].
        simpl. by rewrite <- (assoc_L (++)).
      * rewrite delete_real. cbn [fs record].
        destruct (fs_unlink (g :: file) (fs s)) as [t'|e]; [|done].
        intros Hs. eapply Hstep; [exact Hs|]. simpl. by rewrite <- !(assoc_L (++)).
    + rewrite (scan_mismatch _ _ _ _ _ _ _ _ _ _ Hl Hne).
      intros Hs. eapply Hstep; [exact Hs|]. done.
  - rewrite (scan_absent _ _ _ _ _ _ _ _ _ Hl). intros Hs. eapply Hstep; [exact Hs|]. done.
Qed.

(** ** The matcher, step by step *)

(** A master [2024] whose photo is missing from [2023] and present, with the
    same size, in [2022]. *)
Definition gap_tree : node :=
  folder [("2022", folder [("photo.jpg", file 1000 1)]);
          ("2023", folder [("note.txt", file 50 2)]);
          ("2024", folder [("photo.jpg", file 1000 3)])].

(** The only way a scan fails: in a real run, on the unlink of a directory. *)
Lemma scan_raises dry_run assume_continuity file master_file master_stats backups :
  ∀ b s e s',
    scan dry_run assume_continuity file master_file master_stats backups b s = (Raise e, s') →
    e = IsADirectoryError ∧ dry_run = false.
Proof.
  induction backups as [|g rest IH]; intros b s e s'; [done|].
  destruct (lookup_path (g :: file) (fs s)) as [alt|] eqn:Hl; cycle 1.
  { rewrite (scan_absent _ _ _ _ _ _ _ _ _ Hl). destruct assume_continuity; [done|apply IH]. }
  destruct (decide (st_size (stat_of alt) = st_size master_stats)) as [He|Hne]; cycle 1.
  { rewrite (scan_mismatch _ _ _ _ _ _ _ _ _ _ Hl Hne).
    destruct assume_continuity; [done|apply IH]. }
  rewrite (scan_match _ _ _ _ _ _ _ _ _ _ Hl He). unfold bind. destruct dry_run.
  - rewrite delete_dry. apply IH.
  - rewrite delete_real. cbn [fs record].
    destruct (fs_unlink (g :: file) (fs s)) as [t'|e0] eqn:Hu; [apply IH|].
    intros [= <- <-]. split; [|done]. destruct alt as [st|st es].
    + destruct (fs_unlink_file (g :: file) (fs s) st) as (t' & Hu' & _); [done..|].
      congruence.
    + rewrite (fs_unlink_dir _ _ _ _ Hl) in Hu. by injection Hu as <-.
Qed.

(** X22 (what absence and a different size do to the scan).  Let the scan
    for [file] arrive at the older backup [g], with [rest] still older, in a
    state where [g/file] does not exist or has a size other than the
    master's.  With [assume_continuity = true] the scan returns at once with
    the total it had; the tree is untouched and the trace grows by the
    probes of [g/file] alone, so nothing of [rest] is looked at.  With
    [assume_continuity = false] the scan is the scan of [rest] from that
    same state and total; when it returns, every backup of [rest] has been
    probed for [file], and it fails to return in one case only, which is a
    real run that calls [unlink] on a directory. *)
Theorem continuity_short_circuit dry_run file master_file master_stats g rest
    bytes_freed s :
  (∀ alt, lookup_path (g :: file) (fs s) = Some alt →
          st_size (stat_of alt) ≠ st_size master_stats) →
  let probes := EvExists (g :: file)
                :: (if lookup_path (g :: file) (fs s) is Some _ then [EvStat (g :: file)] else []) in
  scan dry_run true file master_file master_stats (g :: rest) bytes_freed s
  = (Ok bytes_freed, record s probes)
  ∧ scan dry_run false file master_file master_stats (g :: rest) bytes_freed s
    = scan dry_run false file master_file master_stats rest bytes_freed (record s probes)
  ∧ match scan dry_run false file master_file master_stats (g :: rest) bytes_freed s with
    | (Ok _, s') =>
        ∃ tr, trace s' = trace s ++ probes ++ tr
              ∧ Forall (λ g', EvExists (g' :: file) ∈ tr) rest
    | (Raise e, _) => dry_run = false ∧ e = IsADirectoryError
    end.
Proof.
  intros Hne probes.
  assert (Hskip : ∀ c,
    scan dry_run c file master_file master_stats (g :: rest) bytes_freed s
    = if c then (Ok bytes_freed, record s probes)
      else scan dry_run c file master_file master_stats rest bytes_freed (record s probes)).
  { intros c. subst probes. destruct (lookup_path (g :: file) (fs s)) as [alt|] eqn:Hl.
    - apply scan_mismatch with alt; auto.
    - by apply scan_absent. }
  split_and!; [apply (Hskip true)|apply (Hskip false)|].
  rewrite (Hskip false).
  destruct (scan dry_run false file master_file master_stats rest bytes_freed
              (record s probes)) as [[b'|e] s'] eqn:Hscan.
  - apply scan_exhaustive_probes in Hscan as (tr & Htr & Hin). exists tr. split.
    + rewrite Htr. simpl. by rewrite <- (assoc_L (++)).
    + by apply Forall_forall.
  - apply scan_raises in Hscan as [-> ->]. done.
Qed.

Lemma continuity_short_circuit_witness :
  scan false true ["photo.jpg"] ["2024"; "photo.jpg"] {| st_size := 1000; st_ctime := 3 |}
    ["2023"; "2022"] 0 {| fs := gap_tree; trace := [] |}
  = (Ok 0%Z, {| fs := gap_tree; trace := [EvExists ["2023"; "photo.jpg"]] |})
  ∧ scan false false ["photo.jpg"] ["2024"; "photo.jpg"] {| st_size := 1000; st_ctime := 3 |}
      ["2023"; "2022"] 0 {| fs := gap_tree; trace := [] |}
    = scan false false ["photo.jpg"] ["2024"; "photo.jpg"] {| st_size := 1000; st_ctime := 3 |}
        ["2022"] 0 {| fs := gap_tree; trace := [EvExists ["2023"; "photo.jpg"]] |}
  ∧ match scan false false ["photo.jpg"] ["2024"; "photo.jpg"]
            {| st_size := 1000; st_ctime := 3 |} ["2023"; "2022"] 0
            {| fs := gap_tree; trace := [] |} with
    | (Ok _, s') =>
        ∃ tr, trace s' = [] ++ [EvExists ["2023"; "photo.jpg"]] ++ tr
              ∧ Forall (λ g', EvExists [g'; "photo.jpg"] ∈ tr) ["2022"]
    | (Raise e, _) => false = false ∧ e = IsADirectoryError
    end.
Proof.
  apply (continuity_short_circuit false ["photo.jpg"] ["2024"; "photo.jpg"]
           {| st_size := 1000; st_ctime := 3 |} "2023" ["2022"] 0
           {| fs := gap_tree; trace := [] |}).
  intros alt. vm_compute. discriminate.
Defined.

(** A master whose [album.jpg] has no copy in [2023], a directory of the
    same name and [st_size] in [2022], and a copy in [2021]. *)
Definition gap_clash_tree : node :=
  folder [("2021", folder [("album.jpg", file 4096 1)]);
          ("2022", folder [("album.jpg", folder [("cover.png", file 20 1)])]);
          ("2023", folder [("note.txt", file 50 2)]);
          ("2024", folder [("album.jpg", file 4096 3)])].

(** C3 (continuity short-circuit), at the input where the program does not
    do what the claim says for [assume_continuity = false].  In
    [gap_clash_tree] the candidate [album.jpg] is absent from [2023], so
    the scan skips [2023] and goes on to [2022]; there [album.jpg] is a
    directory with the [st_size] of the master's file, the real run writes
    its row and raises [IsADirectoryError] on the unlink.  The scan ends
    with the run: [2021], which is older than the skipped [2023] and holds
    a copy of the same size, is never examined for [album.jpg], neither
    probed nor stat'ed, and its copy stays. *)
Lemma continuity_off_directory :
  children_of (names (entries_of gap_clash_tree)) = ["2024"; "2023"; "2022"; "2021"]
  ∧ lookup_path ["2023"; "album.jpg"] gap_clash_tree = None
  ∧ lookup_path ["2021"; "album.jpg"] gap_clash_tree = Some (file 4096 1)
  ∧ (run false false noon gap_clash_tree).1 = Raise IsADirectoryError
  ∧ trace (run false false noon gap_clash_tree).2
    = [EvOpen [log_name noon false]; EvWrite Header;
       EvStat ["2024"; "album.jpg"];
       EvExists ["2023"; "album.jpg"];
       EvExists ["2022"; "album.jpg"]; EvStat ["2022"; "album.jpg"];
       EvWrite (Row ["2022"; "album.jpg"] ["2024"; "album.jpg"] 0 3);
       EvPrint (Deleting ["2022"; "album.jpg"])]
  ∧ lookup_path ["2021"; "album.jpg"] (fs (run false false noon gap_clash_tree).2)
    = Some (file 4096 1).
Proof. vm_compute. done. Qed.

(** A master whose [album.jpg] is a regular file of 4096 bytes, over an
    older backup where [album.jpg] is a directory, of size 4096 as
    directories commonly are. *)
Definition clash_tree : node :=
  folder [("2023", folder [("album.jpg", folder [("cover.png", file 20 1)])]);
          ("2024", folder [("album.jpg", file 4096 3)])].

(** C2 (a copy of the same size is logged, deleted and counted, and the scan
    goes on), at the input where the program does not do it.  The glob takes
    any name with a listed extension, and [exists] and [stat] do not tell a
    directory from a file: in [clash_tree] the candidate [album.jpg] of the
    master has in [2023] a directory of the same name and [st_size].  The
    real run writes the row for [(2023/album.jpg, 2024/album.jpg)],
    announces the removal and calls [unlink] on the directory, which raises
    [IsADirectoryError]: nothing is removed, no size is added to a total,
    the scan does not go on and the run ends there, without reclaiming
    directories and without printing what it freed. *)
Lemma duplicate_on_directory :
  children_of (names (entries_of clash_tree)) = ["2024"; "2023"]
  ∧ glob_all (folder [("album.jpg", file 4096 3)]) = [["album.jpg"]]
  ∧ attr_at ["2023"; "album.jpg"] clash_tree = Some (true, {| st_size := 4096; st_ctime := 0 |})
  ∧ attr_at ["2024"; "album.jpg"] clash_tree = Some (false, {| st_size := 4096; st_ctime := 3 |})
  ∧ run false true noon clash_tree
    = (Raise IsADirectoryError,
       {| fs := folder [("2023", folder [("album.jpg", folder [("cover.png", file 20 1)])]);
                        ("2024", folder [("album.jpg", file 4096 3)]);
                        (log_name noon false, file 0 (timestamp noon))];
          trace := [EvOpen [log_name noon false]; EvWrite Header;
                    EvStat ["2024"; "album.jpg"];
                    EvExists ["2023"; "album.jpg"]; EvStat ["2023"; "album.jpg"];
                    EvWrite (Row ["2023"; "album.jpg"] ["2024"; "album.jpg"] 0 3);
                    EvPrint (Deleting ["2023"; "album.jpg"])] |}).
Proof. vm_compute. done. Qed.

(** X21 (the step of the scan at a regular file of the master's size).  Let
    the scan for [file] arrive at the older backup [g], with [rest] still
    older, in a state where [g/file] is a regular file with the size of the
    master's file.  The existence and stat probes, the row for
    [(g/file, master_file)] with both ctimes and the announcement of the
    removal are recorded in this order.  In a dry run nothing is removed;
    in a real run the file is unlinked right after, and on a well-formed
    tree [g/file] is then gone, every other path that stood for something
    still does, and every other regular file is what it was.  In both cases
    the scan is then the scan of [rest] with the size of [g/file] added to
    the total, whatever [assume_continuity] is: a match never ends the
    scan. *)
Theorem duplicate_step dry_run assume_continuity file master_file master_stats g rest
    bytes_freed s alt_stats :
  lookup_path (g :: file) (fs s) = Some (File alt_stats) →
  st_size alt_stats = st_size master_stats →
  let seen := [EvExists (g :: file); EvStat (g :: file);
               EvWrite (Row (g :: file) master_file (st_ctime alt_stats)
                          (st_ctime master_stats));
               EvPrint (Deleting (g :: file))] in
  let total := (bytes_freed + st_size alt_stats)%Z in
  let scan_from := scan dry_run assume_continuity file master_file master_stats in
  (dry_run = true → scan_from (g :: rest) bytes_freed s = scan_from rest total (record s seen))
  ∧ (dry_run = false →
       ∃ t', fs_unlink (g :: file) (fs s) = Ok t'
             ∧ scan_from (g :: rest) bytes_freed s
               = scan_from rest total
                   {| fs := t'; trace := trace s ++ seen ++ [EvUnlink (g :: file)] |}
             ∧ (wf_node (fs s) = true →
                lookup_path (g :: file) t' = None
                ∧ ∀ q, q ≠ g :: file →
                    (is_Some (lookup_path q t') ↔ is_Some (lookup_path q (fs s)))
                    ∧ ∀ st, lookup_path q (fs s) = Some (File st) →
                            lookup_path q t' = Some (File st))).
Proof.
  intros Hl He seen total scan_from. subst scan_from.
  rewrite (scan_match _ _ _ _ _ _ _ _ _ _ Hl He). unfold bind. split.
  - intros ->. rewrite delete_dry, record_record. done.
  - intros ->.
    destruct (fs_unlink_file (g :: file) (fs s) alt_stats) as (t' & Hu & Hp); [done..|].
    exists t'. rewrite delete_real. cbn [fs record trace]. rewrite Hu. split_and!; [done| |].
    + by rewrite <- !(assoc_L (++)).
    + intros Hwf. destruct (fs_unlink_attr _ _ _ Hwf Hu) as [_ Ha]. split.
      * apply attr_at_None. rewrite Ha. by rewrite decide_True.
      * intros q Hq. specialize (Ha q). rewrite decide_False in Ha by done. split.
        -- by apply attr_at_is_Some.
        -- intros st Hst. by apply (attr_at_File _ _ _ _ Ha).
Qed.

Lemma duplicate_step_witness :
  ∃ t', fs_unlink ["2023"; "photo.jpg"] photo_tree = Ok t'
        ∧ scan false true ["photo.jpg"] ["2024"; "photo.jpg"]
            {| st_size := 1000; st_ctime := 3 |} ["2023"] 0 {| fs := photo_tree; trace := [] |}
          = scan false true ["photo.jpg"] ["2024"; "photo.jpg"]
              {| st_size := 1000; st_ctime := 3 |} [] 1000
              {| fs := t';
                 trace := [EvExists ["2023"; "photo.jpg"]; EvStat ["2023"; "photo.jpg"];
                           EvWrite (Row ["2023"; "photo.jpg"] ["2024"; "photo.jpg"] 1 3);
                           EvPrint (Deleting ["2023"; "photo.jpg"]);
                           EvUnlink ["2023"; "photo.jpg"]] |}
        ∧ (wf_node photo_tree = true →
           lookup_path ["2023"; "photo.jpg"] t' = None
           ∧ ∀ q, q ≠ ["2023"; "photo.jpg"] →
               (is_Some (lookup_path q t') ↔ is_Some (lookup_path q photo_tree))
               ∧ ∀ st, lookup_path q photo_tree = Some (File st) →
                       lookup_path q t' = Some (File st)).
Proof.
  apply (duplicate_step false true ["photo.jpg"] ["2024"; "photo.jpg"]
           {| st_size := 1000; st_ctime := 3 |} "2023" [] 0
           {| fs := photo_tree; trace := [] |} {| st_size := 1000; st_ctime := 1 |});
    reflexivity.
Defined.

(** ** What the reclaimer leaves of a tree *)

(** The tree without the directories that hold no file at any depth; [None]
    when the tree itself is such a directory. *)
Fixpoint prune (t : node) : option node :=
  match t with
  | File _ => Some t
  | Dir st es =>
      match omap (λ e, pair e.1 <$> prune e.2) es with
      | [] => None
      | es' => Some (Dir st es')
      end
  end.

Definition pruned_entries (es : list (string * node)) : list (string * node) :=
  omap (λ e, pair e.1 <$> prune e.2) es.

(** The directories of the tree at [p] that hold no file at any depth,
    every sub-directory before its parent. *)
Fixpoint removed (p : path) (t : node) : list path :=
  match t with
  | File _ => []
  | Dir st es =>
      (es ≫= λ e, removed (p ++ [e.1]) e.2)
      ++ (if prune (Dir st es) is None then [p] else [])
  end.

Definition removal_events (l : list path) : list event :=
  l ≫= λ q, [EvPrint (DeletingEmptyDirectory q); EvRmdir q].

Lemma prune_Dir st es :
  prune (Dir st es)
  = if decide (pruned_entries es = []) then None else Some (Dir st (pruned_entries es)).
Proof.
  unfold pruned_entries. simpl. by destruct (omap _ es).
Qed.

Lemma replace_same n c es : assoc n es = Some c → replace_entry n (Some c) es = es.
Proof.
  induction es as [|[m c'] es IH]; simpl; [done|].
  case_decide as Hnm; [by intros [= ->]|]. intros H. by rewrite IH.
Qed.

Lemma put_same p t c : lookup_path p t = Some c → put p (Some c) t = Some t.
Proof.
  revert t. induction p as [|n p IH]; intros t; simpl; [by intros [= ->]|].
  destruct t as [st|st es]; [done|]. destruct (assoc n es) as [c1|] eqn:Ha; [|done].
  intros Hl. rewrite (IH _ Hl). by rewrite replace_same.
Qed.

Lemma prefix_snoc_inj (p q : path) n m :
  p ++ [n] `prefix_of` q → p ++ [m] `prefix_of` q → n = m.
Proof.
  intros [k1 ->] [k2 H]. rewrite <- !(assoc_L (++)) in H.
  apply app_inv_head in H. by injection H.
Qed.

Lemma prefix_snoc_not_self (p : path) n : ¬ p ++ [n] `prefix_of` p.
Proof.
  intros H%prefix_length. rewrite length_app in H. simpl in H. lia.
Qed.

Lemma removed_prefix t : ∀ p q, q ∈ removed p t → p `prefix_of` q.
Proof.
  induction t as [st|st es IH] using node_induction; intros p q.
  { by intros ?%elem_of_nil. }
  cbn [removed]. rewrite elem_of_app, list_elem_of_bind.
  intros [(e & Hin & He)|Hin].
  - rewrite Forall_forall in IH. apply (IH _ He) in Hin. by eapply prefix_app_l.
  - destruct (prune (Dir st es)); [by apply elem_of_nil in Hin|].
    by apply list_elem_of_singleton in Hin as ->.
Qed.

Lemma removed_self p t : p ∈ removed p t ↔ is_dir t = true ∧ prune t = None.
Proof.
  destruct t as [st|st es].
  { split; [by intros ?%elem_of_nil|by intros [? _]]. }
  cbn [removed]. rewrite elem_of_app, list_elem_of_bind. split.
  - intros [(e & Hin & He)|Hin].
    + apply removed_prefix in Hin. by apply prefix_snoc_not_self in Hin.
    + split; [done|]. destruct (prune (Dir st es)); [by apply elem_of_nil in Hin|done].
  - intros [_ ->]. right. left.
Qed.

Lemma pruned_entries_nil es :
  pruned_entries es = [] ↔ ∀ e, e ∈ es → prune e.2 = None.
Proof.
  unfold pruned_entries. induction es as [|[n c] es IH]; simpl.
  - split; [by intros _ e ?%elem_of_nil|done].
  - destruct (prune c) as [c'|] eqn:Hc; simpl.
    + split; [done|]. intros H. specialize (H (n, c)). simpl in H.
      rewrite Hc in H. discriminate H. left.
    + rewrite IH. split.
      * intros H e [->|?]%elem_of_cons; auto.
      * intros H e He. apply H. by right.
Qed.

Lemma pruned_entries_cons n c es :
  pruned_entries ((n, c) :: es)
  = match prune c with Some c' => [(n, c')] | None => [] end ++ pruned_entries es.
Proof. unfold pruned_entries. simpl. by destruct (prune c). Qed.

Lemma names_pruned_subseteq es : names (pruned_entries es) ⊆ names es.
Proof.
  unfold names. induction es as [|[n c] es IH]; [done|].
  rewrite pruned_entries_cons. destruct (prune c); simpl.
  - intros x [->|?]%elem_of_cons; [left|right; auto].
  - intros x ?. right. auto.
Qed.

Lemma any_name_false files : "" ∉ files → any_name files = negb (bool_decide (files = [])).
Proof.
  destruct files as [|f files]; [done|]. intros Hf. simpl.
  rewrite bool_decide_eq_false_2; [done|]. intros ->. apply Hf. left.
Qed.

Lemma filenames_nil es : filenames es = [] ↔ ∀ e, e ∈ es → is_dir e.2 = true.
Proof.
  unfold filenames. induction es as [|[n c] es IH].
  - split; [by intros _ e ?%elem_of_nil|done].
  - rewrite filter_cons. simpl. destruct (is_dir c) eqn:Hc.
    + rewrite decide_False by done. rewrite IH. split.
      * intros H e [->|?]%elem_of_cons; auto.
      * intros H e He. apply H. by right.
    + rewrite decide_True by done. split; [done|]. intros H.
      specialize (H (n, c)). simpl in H. rewrite Hc in H. discriminate H. left.
Qed.

Lemma filenames_subseteq es : filenames es ⊆ names es.
Proof.
  unfold filenames, names. intros x (e & -> & [_ He]%list_elem_of_filter)%list_elem_of_fmap.
  apply list_elem_of_fmap. eauto.
Qed.

Lemma elem_of_dirnames n es :
  n ∈ dirnames es ↔ ∃ c, (n, c) ∈ es ∧ is_dir c = true.
Proof.
  unfold dirnames. rewrite list_elem_of_fmap. split.
  - intros ([m c] & -> & [Hd He]%list_elem_of_filter). eauto.
  - intros (c & He & Hd). exists (n, c). split; [done|]. by apply list_elem_of_filter.
Qed.

Lemma bool_decide_intro (b : bool) (P : Prop) `{Decision P} :
  (b = true ↔ P) → b = bool_decide P.
Proof.
  intros Hb. destruct b.
  - symmetry. apply bool_decide_eq_true. by apply Hb.
  - symmetry. apply bool_decide_eq_false. intros HP. apply Hb in HP. done.
Qed.

(** The test the loop makes at the triple of a directory, once the triples
    of its sub-directories have been handled, against the description. *)
Lemma reclaim_condition (st : stats) (es : list (string * node)) (p : path)
    (D : gset path) :
  wf_node (Dir st es) = true →
  (∀ q, q ∈ D → ¬ p `prefix_of` q) →
  negb (any_name (filenames es))
  && negb (existsb
             (λ sd, bool_decide
                      (p ++ [sd] ∉ list_to_set (es ≫= λ e, removed (p ++ [e.1]) e.2) ∪ D))
             (dirnames es))
  = bool_decide (pruned_entries es = []).
Proof.
  intros (Hnd & Hempty & Hwf)%wf_Dir HD. apply bool_decide_intro.
  rewrite andb_true_iff, !negb_true_iff, pruned_entries_nil.
  rewrite any_name_false by (intros ?%filenames_subseteq; done).
  rewrite negb_false_iff, bool_decide_eq_true, filenames_nil.
  rewrite <- not_true_iff_false, existsb_exists.
  split.
  - intros [Hfiles Hsub] [n c] Hin. simpl.
    assert (Hc : is_dir c = true) by apply (Hfiles _ Hin).
    destruct (decide (p ++ [n] ∈ list_to_set (es ≫= λ e, removed (p ++ [e.1]) e.2) ∪ D))
      as [Hel|Hnel].
    + apply elem_of_union in Hel as [Hel|Hel].
      * apply elem_of_list_to_set, list_elem_of_bind in Hel as ([m c'] & Hr & Hin').
        simpl in Hr. pose proof (removed_prefix _ _ _ Hr) as Hpre.
        assert (m = n) as -> by (eapply prefix_snoc_inj; [exact Hpre|reflexivity]).
        assert (c' = c) as ->.
        { apply (assoc_elem _ _ _ Hnd) in Hin, Hin'. congruence. }
        by apply removed_self in Hr as [_ ?].
      * exfalso. apply (HD _ Hel). by apply prefix_app_r.
    + exfalso. apply Hsub. exists n. split.
      * apply list_elem_of_In, elem_of_dirnames. eauto.
      * by apply bool_decide_eq_true.
  - intros Hall. split.
    + intros [n c] Hin. specialize (Hall _ Hin). simpl in *. by destruct c.
    + intros (sd & (c & Hin & Hc)%list_elem_of_In%elem_of_dirnames & Hnel%bool_decide_eq_true).
      apply Hnel, elem_of_union. left. apply elem_of_list_to_set, list_elem_of_bind.
      exists (sd, c). split; [|done]. simpl. apply removed_self. split; [done|].
      apply (Hall _ Hin).
Qed.

(** What [reclaim] does with the triples of the tree [t] found at [p],
    before it goes on with further triples [K]. *)
Definition reclaim_ok (t : node) : Prop :=
  ∀ (p : path) K (D : gset path) s,
    p ≠ [] → lookup_path p (fs s) = Some t → is_dir t = true → wf_node t = true →
    (∀ q, q ∈ D → ¬ p `prefix_of` q) →
    ∃ t', put p (prune t) (fs s) = Some t'
          ∧ reclaim (walk p t ++ K) D s
            = reclaim K (list_to_set (removed p t) ∪ D)
                {| fs := t'; trace := trace s ++ removal_events (removed p t) |}.

Lemma removal_events_app l1 l2 :
  removal_events (l1 ++ l2) = removal_events l1 ++ removal_events l2.
Proof. unfold removal_events. apply bind_app. Qed.

Lemma names_app es1 es2 : names (es1 ++ es2) = names es1 ++ names es2.
Proof. unfold names. apply fmap_app. Qed.

Lemma reclaim_children (st : stats) (p : path) :
  p ≠ [] →
  ∀ todo, Forall (λ e, reclaim_ok e.2) todo →
  ∀ (done : list (string * node)) K (D : gset path) s,
    lookup_path p (fs s) = Some (Dir st (done ++ todo)) →
    NoDup (names todo) → (∀ n, n ∈ names todo → n ∉ names done) →
    Forall (λ e, wf_node e.2 = true) todo →
    (∀ q n, q ∈ D → n ∈ names todo → ¬ p ++ [n] `prefix_of` q) →
    ∃ t', put p (Some (Dir st (done ++ pruned_entries todo))) (fs s) = Some t'
          ∧ reclaim ((todo ≫= λ e, walk (p ++ [e.1]) e.2) ++ K) D s
            = reclaim K (list_to_set (todo ≫= λ e, removed (p ++ [e.1]) e.2) ∪ D)
                {| fs := t';
                   trace := trace s
                            ++ removal_events (todo ≫= λ e, removed (p ++ [e.1]) e.2) |}.
Proof.
  intros Hp todo HIH.
  induction HIH as [|[n c] todo Hc HIH IH]; intros done K D s Hl Hnd Hdis Hwf HD.
  { exists (fs s). split.
    - rewrite app_nil_r in *. by apply put_same.
    - simpl. rewrite (left_id_L ∅ (∪)), app_nil_r. by destruct s. }
  unfold names in Hnd, Hdis. simpl in Hnd, Hdis. apply NoDup_cons in Hnd as [Hn Hnd].
  apply Forall_cons in Hwf as [Hwfc Hwf]. simpl in Hc, Hwfc.
  assert (Hn_done : n ∉ names done) by (apply Hdis; left).
  assert (Ha : assoc n (done ++ (n, c) :: todo) = Some c).
  { rewrite assoc_app. apply assoc_None in Hn_done as ->. simpl. by rewrite decide_True. }
  rewrite !bind_cons, pruned_entries_cons. cbn [fst snd].
  destruct c as [stc|stc esc].
  - (* a regular file: no triple, the entry stays *)
    simpl. destruct (IH (done ++ [(n, File stc)]) K D s) as (t' & Hput & Hrun).
    + by rewrite <- (assoc_L (++)).
    + done.
    + intros m Hm. rewrite names_app. intros [?|Hin]%elem_of_app.
      * eapply Hdis; [right; exact Hm|done].
      * apply list_elem_of_singleton in Hin. simpl in Hin. subst m. by apply Hn.
    + done.
    + intros q m Hq Hm. apply HD; [done|]. unfold names. simpl. by right.
    + exists t'. rewrite <- (assoc_L (++)) in Hput. done.
  - (* a directory: its own triples first *)
    destruct (Hc (p ++ [n]) ((todo ≫= λ e, walk (p ++ [e.1]) e.2) ++ K) D s)
      as (t1 & Hput1 & Hrun1).
    + by destruct p.
    + rewrite lookup_path_app, Hl. simpl. by rewrite Ha.
    + done.
    + done.
    + intros q Hq. apply HD; [done|]. unfold names. simpl. left.
    + rewrite <- (assoc_L (++)), Hrun1. clear Hrun1.
      rewrite (put_app _ _ _ _ _ Hl) in Hput1. simpl in Hput1. rewrite Ha in Hput1.
      rewrite replace_entry_middle in Hput1 by done.
      set (kept := match prune (Dir stc esc) with Some c' => [(n, c')] | None => [] end) in *.
      set (s1 := {| fs := t1; trace := _ |}).
      destruct (IH (done ++ kept) K
                  (list_to_set (removed (p ++ [n]) (Dir stc esc)) ∪ D) s1)
        as (t2 & Hput2 & Hrun2).
      * subst s1. cbn [fs]. rewrite <- (assoc_L (++)).
        eapply lookup_put_Some; [exact Hl|]. exact Hput1.
      * done.
      * intros m Hm. rewrite names_app. intros [?|Hin]%elem_of_app.
        -- eapply Hdis; [right; exact Hm|done].
        -- subst kept. destruct (prune (Dir stc esc)); [|by apply elem_of_nil in Hin].
           apply list_elem_of_singleton in Hin. simpl in Hin. subst m. by apply Hn.
      * done.
      * intros q m [Hq|Hq]%elem_of_union Hm.
        -- apply elem_of_list_to_set, removed_prefix in Hq. intros Hpre.
           assert (n = m) as -> by (eapply prefix_snoc_inj; eauto). by apply Hn.
        -- apply HD; [done|]. unfold names. simpl. by right.
      * exists t2. split.
        -- rewrite <- (assoc_L (++)) in Hput2. subst s1. cbn [fs] in Hput2.
           rewrite <- Hput2. symmetry. eapply put_put; [exact Hl|exact Hput1].
        -- rewrite Hrun2. subst s1. cbn [fs trace].
           rewrite list_to_set_app_L, removal_events_app, !(assoc_L (++)).
           f_equal. set_solver.
Qed.

Lemma bind_ok {A B} (m : M A) (k : A → M B) s a s' :
  m s = (Ok a, s') → bind m k s = k a s'.
Proof. unfold bind. by intros ->. Qed.

Lemma bind_raise {A B} (m : M A) (k : A → M B) s e s' :
  m s = (Raise e, s') → bind m k s = (Raise e, s').
Proof. unfold bind. by intros ->. Qed.

Lemma iterdir_dir p s st es :
  lookup_path p (fs s) = Some (Dir st es) → iterdir p s = (Ok (names es), s).
Proof. unfold iterdir. by intros ->. Qed.

Lemma mutate_ok f e s t' :
  f (fs s) = Ok t' → mutate f e s = (Ok tt, {| fs := t'; trace := trace s ++ [e] |}).
Proof. unfold mutate. by intros ->. Qed.

Lemma mutate_raise f e s x : f (fs s) = Raise x → mutate f e s = (Raise x, s).
Proof. unfold mutate. by intros ->. Qed.

Lemma reclaim_walk t : reclaim_ok t.
Proof.
  induction t as [st|st es IH] using node_induction; intros p K D s Hp Hl Hd Hwf HD; [done|].
  pose proof Hwf as (Hnd & _ & Hwfs)%wf_Dir.
  cbn [walk removed]. rewrite <- (assoc_L (++)).
  destruct (reclaim_children st p Hp es IH [] ([(p, dirnames es, filenames es)] ++ K) D s)
    as (t1 & Hput1 & Hrun1); [done|done|by intros n _ ?%elem_of_nil|done| |].
  { intros q n Hq _ Hpre. apply (HD _ Hq). by eapply prefix_app_l. }
  rewrite Hrun1. clear Hrun1. simpl in Hput1. cbn [app reclaim].
  rewrite (reclaim_condition st es p D Hwf HD), prune_Dir.
  pose proof (lookup_put_Some _ _ _ _ _ Hl Hput1) as Hl1.
  destruct (decide (pruned_entries es = [])) as [Hnil|Hne].
  - rewrite bool_decide_eq_true_2 by done. rewrite Hnil in *.
    assert (∃ t2, put p None t1 = Some t2) as [t2 Hput2].
    { destruct p as [|n p]; [done|]. apply put_cons_is_Some. }
    exists t2. split.
    { rewrite <- Hput2. symmetry. eapply put_put; [exact Hl|exact Hput1]. }
    erewrite bind_ok; [|by apply (iterdir_dir _ _ st [])].
    erewrite bind_ok; [|reflexivity].
    erewrite bind_ok; [|reflexivity].
    erewrite bind_ok;
      [|apply mutate_ok, (apply_at_ok p rmdir_node t1 (Dir st []) None t2 Hl1 eq_refl Hput2)].
    cbn [fs trace record].
    rewrite list_to_set_app_L, removal_events_app, <- !(assoc_L (++)).
    f_equal. set_solver.
  - rewrite bool_decide_eq_false_2 by done. exists t1. split; [done|].
    by rewrite !app_nil_r.
Qed.

(** [delete_empty_folders] on a backup of a well-formed tree: it returns,
    the backup is replaced by what [prune] leaves of it, and the set handed
    back holds the directories [removed] lists. *)
Lemma delete_empty_folders_spec g t s :
  lookup_path [g] (fs s) = Some t → is_dir t = true → wf_node t = true →
  ∃ t', put [g] (prune t) (fs s) = Some t'
        ∧ delete_empty_folders [g] s
          = (Ok (list_to_set (removed [g] t)),
             {| fs := t'; trace := trace s ++ removal_events (removed [g] t) |}).
Proof.
  intros Hl Hd Hwf.
  destruct (reclaim_walk t [g] [] ∅ s) as (t' & Hput & Hrun); [done..|set_solver|].
  exists t'. split; [done|].
  unfold delete_empty_folders, bind, path_walk. rewrite Hl. cbn [from_option].
  rewrite app_nil_r in Hrun. rewrite Hrun. cbn [reclaim ret].
  by rewrite (right_id_L ∅ (∪)).
Qed.

(** ** Reading the description of the reclaimer by paths *)

Lemma removed_elem t :
  wf_node t = true →
  ∀ p q', q' ∈ removed p t ↔
          ∃ q c, q' = p ++ q ∧ lookup_path q t = Some c ∧ is_dir c = true ∧ prune c = None.
Proof.
  induction t as [st|st es IH] using node_induction; intros Hwf p q'.
  { split; [by intros ?%elem_of_nil|]. intros ([|n q] & c & _ & Hl & Hd & _); [|done].
    by injection Hl as <-. }
  pose proof Hwf as (Hnd & _ & Hwfs)%wf_Dir.
  rewrite Forall_forall in IH, Hwfs.
  cbn [removed]. rewrite elem_of_app, list_elem_of_bind. split.
  - intros [([n c] & Hin & He)|Hin].
    + apply (IH _ He (Hwfs _ He)) in Hin as (q & c' & -> & Hl & Hd & Hp).
      exists (n :: q), c'. split_and!; [by rewrite <- (assoc_L (++))| |done..].
      simpl. by rewrite (assoc_elem _ _ _ Hnd He).
    + destruct (prune (Dir st es)) eqn:Hp; [by apply elem_of_nil in Hin|].
      apply list_elem_of_singleton in Hin as ->.
      exists [], (Dir st es). by rewrite app_nil_r.
  - intros ([|n q] & c & -> & Hl & Hd & Hp).
    + injection Hl as <-. right. rewrite Hp, app_nil_r. left.
    + left. simpl in Hl. destruct (assoc n es) as [c1|] eqn:Ha; [|done].
      apply assoc_Some_elem in Ha. exists (n, c1). split; [|done].
      apply (IH _ Ha (Hwfs _ Ha)). exists q, c. by rewrite <- (assoc_L (++)).
Qed.

Lemma prune_Dir_None st es :
  prune (Dir st es) = None ↔
  filenames es = [] ∧ ∀ n c, (n, c) ∈ es → is_dir c = true → prune c = None.
Proof.
  rewrite prune_Dir, filenames_nil. case_decide as Hp.
  - rewrite pruned_entries_nil in Hp. split; [intros _|done]. split.
    + intros [n c] Hin. specialize (Hp _ Hin). simpl in *. by destruct c.
    + intros n c Hin _. apply (Hp _ Hin).
  - split; [done|]. intros [Hfiles Hdirs]. exfalso. apply Hp, pruned_entries_nil.
    intros [n c] Hin. simpl. apply (Hdirs n); [done|]. apply (Hfiles _ Hin).
Qed.

Lemma assoc_pruned n es :
  NoDup (names es) → assoc n (pruned_entries es) = assoc n es ≫= prune.
Proof.
  unfold names. induction es as [|[m c] es IH]; [done|].
  rewrite pruned_entries_cons. simpl. rewrite NoDup_cons. intros [Hm Hnd].
  destruct (decide (n = m)) as [->|Hne].
  - simpl. destruct (prune c); simpl; [by rewrite decide_True|].
    apply assoc_None. intros Hin%names_pruned_subseteq. by apply Hm.
  - destruct (prune c); simpl; [rewrite decide_False by done|]; by apply IH.
Qed.

Lemma lookup_prune t :
  wf_node t = true →
  ∀ q c, lookup_path q t = Some c → prune t ≫= lookup_path q = prune c.
Proof.
  intros Hwf q. revert t Hwf. induction q as [|n q IH]; intros t Hwf c.
  { simpl. intros [= <-]. by destruct (prune t). }
  destruct t as [st|st es]; [done|]. simpl lookup_path.
  destruct (assoc n es) as [c1|] eqn:Ha; [|done]. intros Hl.
  pose proof Hwf as (Hnd & _ & _)%wf_Dir.
  assert (Hwf1 : wf_node c1 = true) by (by eapply wf_assoc).
  specialize (IH _ Hwf1 _ Hl). rewrite prune_Dir. case_decide as Hp.
  - rewrite pruned_entries_nil in Hp. apply assoc_Some_elem in Ha.
    specialize (Hp _ Ha). simpl in Hp. rewrite Hp in IH. done.
  - simpl. rewrite (assoc_pruned _ _ Hnd), Ha. simpl.
    destruct (prune c1); [exact IH|done].
Qed.

Lemma prune_Some_Dir st es c : prune (Dir st es) = Some c → ∃ es', c = Dir st es'.
Proof. rewrite prune_Dir. case_decide; [done|]. intros [= <-]. eauto. Qed.

Lemma lookup_put_root g o t t' q :
  NoDup (names (entries_of t)) → is_Some (lookup_path [g] t) →
  put [g] o t = Some t' → lookup_path (g :: q) t' = o ≫= lookup_path q.
Proof.
  destruct t as [st|st es]; [by intros _ [? ?]|]. simpl.
  intros Hnd Hs [= <-]. destruct (assoc g es) as [c|] eqn:Ha; [|by destruct Hs].
  simpl. rewrite assoc_replace_eq by (rewrite ?Ha; eauto). by destruct o.
Qed.

Lemma prune_no_files t :
  wf_node t = true → is_dir t = true →
  (∀ q st, lookup_path q t ≠ Some (File st)) → prune t = None.
Proof.
  induction t as [st|st es IH] using node_induction; intros Hwf Hd Hfiles; [done|].
  pose proof Hwf as (Hnd & _ & Hwfs)%wf_Dir.
  rewrite Forall_forall in IH, Hwfs.
  rewrite prune_Dir. rewrite decide_True; [done|]. apply pruned_entries_nil.
  intros [n c] Hin. simpl.
  assert (Hlk : ∀ q, lookup_path (n :: q) (Dir st es) = lookup_path q c).
  { intros q. simpl. by rewrite (assoc_elem _ _ _ Hnd Hin). }
  destruct c as [stc|stc esc].
  - exfalso. apply (Hfiles [n] stc). by rewrite Hlk.
  - apply (IH _ Hin); [apply (Hwfs _ Hin)|done|].
    intros q st'. rewrite <- Hlk. apply Hfiles.
Qed.

(** The check before a removal: a directory that the bookkeeping takes for
    empty but that still lists an entry makes the loop raise, with nothing
    removed. *)
Lemma reclaim_checks_disk (cur : path) (subdirs files : list string)
    (rest : list (path * list string * list string)) (D : gset path) s st e es :
  lookup_path cur (fs s) = Some (Dir st (e :: es)) →
  any_name files = false → (∀ sd, sd ∈ subdirs → cur ++ [sd] ∈ D) →
  reclaim ((cur, subdirs, files) :: rest) D s
  = (Raise (AssertionError "Supposedly empty directory still contains file or subfolder!"),
     s).
Proof.
  intros Hl Hfiles Hsub. cbn [reclaim]. rewrite Hfiles.
  replace (existsb _ subdirs) with false.
  - cbn [negb andb]. erewrite bind_ok; [|by apply (iterdir_dir _ _ st (e :: es))].
    by destruct e.
  - symmetry. apply not_true_iff_false. rewrite existsb_exists.
    intros (sd & Hin%list_elem_of_In & Hnel%bool_decide_eq_true). by apply Hnel, Hsub.
Qed.

(** ** Which events a computation can add to the trace *)

Definition emits (P : event → Prop) : relation state := λ s s',
  ∃ tr, trace s' = trace s ++ tr ∧ Forall P tr.

#[global] Instance emits_preorder P : PreOrder (emits P).
Proof.
  split.
  - intros s. exists []. by rewrite app_nil_r.
  - intros s1 s2 s3 (tr1 & E1 & F1) (tr2 & E2 & F2). exists (tr1 ++ tr2). split.
    + by rewrite E2, E1, <- (assoc_L (++)).
    + by apply Forall_app.
Qed.

Lemma keeps_run {A} (R : relation state) (m : M A) s r s' :
  keeps R m → m s = (r, s') → R s s'.
Proof. intros H E. specialize (H s). by rewrite E in H. Qed.

Section emits.
Context (P : event → Prop).
Hypothesis reads_allowed : ∀ e, is_mutation e = false → P e.

Lemma emits_emit e : P e → keeps (emits P) (emit e).
Proof. intros He s. exists [e]. split; [done|]. by constructor. Qed.

Lemma emits_mutate f e : P e → keeps (emits P) (mutate f e).
Proof.
  intros He s. unfold mutate. destruct (f (fs s)); simpl; [|reflexivity].
  exists [e]. split; [done|]. by constructor.
Qed.

Lemma emits_path_stat p : keeps (emits P) (path_stat p).
Proof.
  intros s. unfold path_stat. destruct (lookup_path p (fs s)); [|reflexivity].
  exists [EvStat p]. split; [done|]. constructor; [|done]. by apply reads_allowed.
Qed.

Lemma emits_scan dry_run assume_continuity file master_file master_stats backups b :
  (dry_run = false → ∀ p, P (EvUnlink p)) →
  keeps (emits P)
    (scan dry_run assume_continuity file master_file master_stats backups b).
Proof.
  intros Hu. revert b. induction backups as [|g rest IH]; intros b; simpl.
  { apply keeps_ret. }
  apply keeps_bind; [by apply emits_emit, reads_allowed|]. intros e.
  destruct (negb e).
  { destruct assume_continuity; [apply keeps_ret|apply IH]. }
  apply keeps_bind; [apply emits_path_stat|]. intros alt_stats.
  destruct (negb _).
  { destruct assume_continuity; [apply keeps_ret|apply IH]. }
  apply keeps_bind; [by apply emits_emit, reads_allowed|]. intros _.
  apply keeps_bind; [|intros _; apply IH].
  apply keeps_bind; [by apply emits_emit, reads_allowed|]. intros _.
  destruct dry_run; [apply keeps_ret|]. apply emits_mutate. by apply Hu.
Qed.

Lemma emits_scan_files dry_run assume_continuity master_backup older_backups files b :
  (dry_run = false → ∀ p, P (EvUnlink p)) →
  keeps (emits P)
    (scan_files dry_run assume_continuity master_backup older_backups files b).
Proof.
  intros Hu. revert b. induction files as [|f files IH]; intros b; simpl.
  { apply keeps_ret. }
  apply keeps_bind; [|done]. unfold scan_file.
  apply keeps_bind; [apply emits_path_stat|]. intros ms. by apply emits_scan.
Qed.

Lemma emits_reclaim (triples : list (path * list string * list string)) (D : gset path) :
  (∀ m, P (EvPrint m)) → (∀ p, P (EvRmdir p)) → keeps (emits P) (reclaim triples D).
Proof.
  intros Hp Hr. revert D.
  induction triples as [|[[cur subdirs] files] triples IH]; intros D; simpl.
  { apply keeps_ret. }
  destruct (_ && _); [|done].
  apply keeps_bind; [apply keeps_iterdir|]. intros listing.
  apply keeps_bind; [apply keeps_assert|]. intros _.
  apply keeps_bind; [by apply emits_emit|]. intros _.
  apply keeps_bind; [by apply emits_mutate|]. intros _. done.
Qed.

Lemma emits_delete_empty_folders_all backups :
  (∀ m, P (EvPrint m)) → (∀ p, P (EvRmdir p)) →
  keeps (emits P) (delete_empty_folders_all backups).
Proof.
  intros Hp Hr. induction backups as [|g rest IH]; simpl; [apply keeps_ret|].
  apply keeps_bind; [|done]. unfold delete_empty_folders.
  apply keeps_bind; [apply keeps_path_walk|]. intros triples. by apply emits_reclaim.
Qed.
End emits.

Definition is_unlink (e : event) : Prop := ∃ p, e = EvUnlink p.
Definition is_rmdir (e : event) : Prop := ∃ p, e = EvRmdir p.

(** The trace of a run in two parts: up to the end of the scan nothing
    removes a directory, after it nothing removes a file, and a dry run
    removes neither. *)
Lemma run_phases dry_run assume_continuity now t :
  ∃ tr1 tr2,
    trace (run dry_run assume_continuity now t).2 = tr1 ++ tr2
    ∧ Forall (λ e, ¬ is_rmdir e) tr1
    ∧ Forall (λ e, ¬ is_unlink e ∧ (dry_run = true → ¬ is_rmdir e)) tr2
    ∧ (dry_run = true → Forall (λ e, ¬ is_unlink e) tr1).
Proof.
  set (P1 := λ e, ¬ is_rmdir e ∧ (dry_run = true → ¬ is_unlink e)).
  set (P2 := λ e, ¬ is_unlink e ∧ (dry_run = true → ¬ is_rmdir e)).
  assert (H1 : ∀ e, is_mutation e = false → P1 e).
  { intros e He. split; [|intros _]; intros [p ->]; done. }
  assert (H2 : ∀ e, is_mutation e = false → P2 e).
  { intros e He. split; [|intros _]; intros [p ->]; done. }
  assert (Hgoal : ∀ s', (emits P1 {| fs := t; trace := [] |} s'
                         ∨ ∃ s1, emits P1 {| fs := t; trace := [] |} s1 ∧ emits P2 s1 s') →
    ∃ tr1 tr2, trace s' = tr1 ++ tr2 ∧ Forall (λ e, ¬ is_rmdir e) tr1
               ∧ Forall P2 tr2 ∧ (dry_run = true → Forall (λ e, ¬ is_unlink e) tr1)).
  { intros s' [(tr & E & F)|(s1 & (tr1 & E1 & F1) & (tr2 & E2 & F2))].
    - exists tr, []. simpl in E. rewrite app_nil_r. split_and!; [done| |done|].
      + eapply Forall_impl; [exact F|]. by intros e [? _].
      + intros Hd. eapply Forall_impl; [exact F|]. intros e [_ ?]. auto.
    - exists tr1, tr2. simpl in E1. rewrite E2, E1. split_and!; [done| |done|].
      + eapply Forall_impl; [exact F1|]. by intros e [? _].
      + intros Hd. eapply Forall_impl; [exact F1|]. intros e [_ ?]. auto. }
  apply Hgoal. unfold run. set (s0 := {| fs := t; trace := [] |}).
  destruct (deduplicate dry_run assume_continuity now s0) as [r s'] eqn:Hrun.
  cbn [snd]. unfold deduplicate in Hrun.
  assert (Hleft : ∀ s1 (e : exn), emits P1 s0 s1 → (Raise e, s1) = (r, s') →
    emits P1 s0 s' ∨ ∃ s1, emits P1 s0 s1 ∧ emits P2 s1 s').
  { intros s1 e R [= <- <-]. by left. }
  unfold bind at 1 in Hrun. destruct (iterdir [] s0) as [[entries|e] s1] eqn:E1;
    pose proof (keeps_run (emits P1) _ _ _ _ (keeps_iterdir _) E1) as R1;
    [|by eapply Hleft].
  unfold bind at 1 in Hrun. destruct (all_is_dir _ s1) as [[dirs|e] s2] eqn:E2;
    pose proof (keeps_run (emits P1) _ _ _ _ (keeps_all_is_dir _) E2) as R2;
    [|eapply Hleft; [|exact Hrun]; by etrans].
  unfold bind at 1 in Hrun. destruct (assert dirs _ s2) as [[[]|e] s3] eqn:E3;
    pose proof (keeps_run (emits P1) _ _ _ _ (keeps_assert _ _) E3) as R3;
    [|eapply Hleft; [|exact Hrun]; by repeat (etrans; [eassumption|])].
  destruct (children_of entries) as [|master_backup older_backups];
    [eapply Hleft; [|exact Hrun]; by repeat (etrans; [eassumption|])|].
  unfold bind at 1 in Hrun. destruct (master_files_of _ s3) as [[files|e] s4] eqn:E4;
    pose proof (keeps_run (emits P1) _ _ _ _ (keeps_master_files_of _) E4) as R4;
    [|eapply Hleft; [|exact Hrun]; by repeat (etrans; [eassumption|])].
  unfold bind at 1 in Hrun. destruct (open_w _ now s4) as [[[]|e] s5] eqn:E5;
    pose proof (keeps_run (emits P1) _ _ _ _
                  (emits_mutate P1 _ (EvOpen [log_name now dry_run])
                     ltac:(split; [|intros _]; intros [p ?]; done)) E5) as R5;
    [|eapply Hleft; [|exact Hrun]; by repeat (etrans; [eassumption|])].
  unfold bind at 1 in Hrun. destruct (write Header s5) as [[[]|e] s6] eqn:E6;
    pose proof (keeps_run (emits P1) _ _ _ _
                  (emits_emit P1 (EvWrite Header) (H1 (EvWrite Header) eq_refl)) E6) as R6;
    [|eapply Hleft; [|exact Hrun]; by repeat (etrans; [eassumption|])].
  unfold bind at 1 in Hrun.
  assert (K7 : keeps (emits P1)
    (scan_files dry_run assume_continuity master_backup older_backups files 0)).
  { apply emits_scan_files; [done|]. intros -> p. split; [by intros [? ?]|done]. }
  destruct (scan_files dry_run assume_continuity master_backup older_backups files 0 s6)
    as [[b|e] s7] eqn:E7; pose proof (keeps_run _ _ _ _ _ K7 E7) as R7;
    [|eapply Hleft; [|exact Hrun]; by repeat (etrans; [eassumption|])].
  right. exists s7. split; [by repeat (etrans; [eassumption|])|].
  eapply keeps_run; [|exact Hrun].
  apply keeps_bind.
  { destruct dry_run; [apply keeps_ret|]. apply emits_delete_empty_folders_all.
    - intros m. by apply H2.
    - intros p. split; [by intros [? ?]|done]. }
  intros _. destruct (format_bytes b) as [[amount label]|e]; [|apply keeps_raise].
  apply keeps_bind; [by apply emits_emit, H2|]. intros _. apply keeps_ret.
Qed.

Lemma elem_of_deleted g t q c :
  wf_node t = true → lookup_path q t = Some c →
  g :: q ∈ (list_to_set (removed [g] t) : gset path) ↔ is_dir c = true ∧ prune c = None.
Proof.
  intros Hwf Hl. rewrite elem_of_list_to_set, (removed_elem t Hwf). split.
  - intros (q2 & c2 & [= <-] & Hl2 & ? & ?). by simplify_eq.
  - intros [? ?]. by exists q, c.
Qed.

(** A tree with files at several depths and directories that hold none. *)
Definition mixed_tree : node :=
  folder [("2023",
           folder [("docs", folder [("old", folder []); ("cv.pdf", file 300 1)]);
                   ("tmp", folder [("cache", folder [])])]);
          ("2024", folder [("docs", folder [("cv.pdf", file 310 2)])])].

(** ** A backup without files *)

(** A tree whose older backup holds directories only. *)
Definition hollow_tree : node :=
  folder [("2023", folder [("docs", folder [("old", folder [])]); ("tmp", folder [])]);
          ("2024", folder [("docs", folder [("cv.pdf", file 310 2)])])].

(** C10 (a backup without files disappears).  Let [g] be a directory of a
    well-formed tree below which, at the time the reclaimer runs over it, no
    file is left at any depth.  Then [delete_empty_folders] returns, every
    directory of [g] is in the set it hands back and is gone from the tree,
    [g] itself included; [g] is no entry of the working folder any more and
    is not among the children a later enumeration of that folder yields. *)
Theorem empty_generation_removed g t s :
  wf_node (fs s) = true → lookup_path [g] (fs s) = Some t → is_dir t = true →
  (∀ q st, lookup_path q t ≠ Some (File st)) →
  ∃ (deleted : gset path) s',
    delete_empty_folders [g] s = (Ok deleted, s')
    ∧ (∀ q c, lookup_path q t = Some c →
         g :: q ∈ deleted ∧ lookup_path (g :: q) (fs s') = None)
    ∧ lookup_path [g] (fs s') = None
    ∧ (g ∉ names (entries_of (fs s')))
    ∧ (g ∉ children_of (names (entries_of (fs s')))).
Proof.
  intros Hwfs Hl Hd Hfiles.
  assert (Hwf : wf_node t = true) by (by eapply wf_lookup).
  destruct (delete_empty_folders_spec g t s Hl Hd Hwf) as (t' & Hput & Hrun).
  assert (Hroot : NoDup (names (entries_of (fs s)))).
  { destruct (fs s) as [|st0 es0]; [done|]. by apply wf_Dir in Hwfs as [? _]. }
  assert (Hall : ∀ q c, lookup_path q t = Some c → is_dir c = true ∧ prune c = None).
  { intros q c Hq.
    assert (Hc : is_dir c = true).
    { destruct c as [st|]; [|done]. by apply Hfiles in Hq. }
    split; [done|]. apply prune_no_files; [by eapply wf_lookup|done|].
    intros q2 st Hq2. apply (Hfiles (q ++ q2) st). by rewrite lookup_path_app, Hq. }
  assert (Hgone : ∀ q c, lookup_path q t = Some c → lookup_path (g :: q) t' = None).
  { intros q c Hq. rewrite (lookup_put_root g (prune t) (fs s) t' q Hroot); [|eauto|done].
    rewrite (lookup_prune t Hwf q c Hq). by apply Hall in Hq as [_ ?]. }
  assert (Hnames : g ∉ names (entries_of t')).
  { specialize (Hgone [] t eq_refl). destruct t' as [|st' es']; simpl in *.
    - apply not_elem_of_nil.
    - apply assoc_None. by destruct (assoc g es'). }
  eexists _, _. split; [exact Hrun|]. cbn [fs]. split_and!.
  - intros q c Hq. split; [|by eapply Hgone].
    apply (elem_of_deleted g t q c Hwf Hq). by eapply Hall.
  - by apply (Hgone [] t).
  - done.
  - intros [? _]%children_of_elem. done.
Qed.

Lemma empty_generation_removed_witness :
  ∃ (deleted : gset path) s',
    delete_empty_folders ["2023"] {| fs := hollow_tree; trace := [] |} = (Ok deleted, s')
    ∧ (∀ q c, lookup_path q (folder [("docs", folder [("old", folder [])]);
                                     ("tmp", folder [])]) = Some c →
         "2023" :: q ∈ deleted ∧ lookup_path ("2023" :: q) (fs s') = None)
    ∧ lookup_path ["2023"] (fs s') = None
    ∧ ("2023" ∉ names (entries_of (fs s')))
    ∧ ("2023" ∉ children_of (names (entries_of (fs s')))).
Proof.
  apply (empty_generation_removed "2023"
           (folder [("docs", folder [("old", folder [])]); ("tmp", folder [])])
           {| fs := hollow_tree; trace := [] |}); [reflexivity..|].
  intros q st.
  destruct q as [|n1 [|n2 [|n3 q]]]; simpl; repeat case_decide; simpl; try done;
    repeat case_decide; simpl; try done; repeat case_decide; done.
Defined.

(** ** The candidates are listed once *)

Lemma endswith_unfold s suffix :
  endswith s suffix = true ↔
  s = suffix ∨ ∃ c s', s = String c s' ∧ endswith s' suffix = true.
Proof.
  destruct s as [|c s]; cbn [endswith]; rewrite orb_true_iff, bool_decide_eq_true.
  - split; [intros [?|?]; [by left|done]|]. intros [?|(? & ? & ? & _)]; [by left|done].
  - split.
    + intros [?|?]; [by left|]. right. eauto.
    + intros [?|(? & ? & [= <- <-] & ?)]; [by left|by right].
Qed.

(** Two suffixes of one string: one is a suffix of the other. *)
Lemma endswith_comparable s a b :
  endswith s a = true → endswith s b = true →
  endswith a b = true ∨ endswith b a = true.
Proof.
  induction s as [|c s IH]; intros Ha Hb.
  - apply endswith_unfold in Ha as [<-|(? & ? & ? & _)]; [|done]. by left.
  - apply endswith_unfold in Ha as [<-|(? & ? & [= <- <-] & Ha)]; [by left|].
    apply endswith_unfold in Hb as [<-|(? & ? & [= <- <-] & Hb)]; [|by apply IH].
    right. apply endswith_unfold. right. eauto.
Qed.

Lemma matches_ext_unique ex1 ex2 n :
  ex1 ∈ DEFAULT_EXTENSIONS → ex2 ∈ DEFAULT_EXTENSIONS →
  matches_ext ex1 n = true → matches_ext ex2 n = true → ex1 = ex2.
Proof.
  unfold matches_ext. intros H1 H2 M1 M2.
  assert (Hall : forallb (λ x, forallb (λ y,
            bool_decide (x = y)
            || negb (endswith (lower ("." +:+ x)) (lower ("." +:+ y))))
            DEFAULT_EXTENSIONS) DEFAULT_EXTENSIONS = true) by (vm_compute; reflexivity).
  rewrite forallb_forall in Hall.
  assert (Hpair : ∀ x y, x ∈ DEFAULT_EXTENSIONS → y ∈ DEFAULT_EXTENSIONS →
            endswith (lower ("." +:+ x)) (lower ("." +:+ y)) = true → x = y).
  { intros x y Hx%list_elem_of_In Hy%list_elem_of_In He.
    specialize (Hall x Hx). rewrite forallb_forall in Hall. specialize (Hall y Hy).
    rewrite He in Hall. simpl in Hall. rewrite orb_false_r in Hall.
    by apply bool_decide_eq_true in Hall. }
  destruct (endswith_comparable _ _ _ M1 M2) as [H|H]; [|symmetry]; by apply Hpair.
Qed.

Lemma glob_ext_nonempty ex t : [] ∉ glob_ext ex t.
Proof.
  destruct t as [st|st es]; simpl; [apply not_elem_of_nil|].
  rewrite elem_of_app, list_elem_of_fmap, list_elem_of_bind.
  intros [(n & [=] & _)|(e & (q & [=] & _)%list_elem_of_fmap & _)].
Qed.

Lemma glob_ext_last ex t :
  ∀ p, p ∈ glob_ext ex t → ∃ n, last p = Some n ∧ matches_ext ex n = true.
Proof.
  induction t as [st|st es IH] using node_induction; intros p; simpl.
  { by intros ?%elem_of_nil. }
  rewrite elem_of_app, list_elem_of_fmap, list_elem_of_bind.
  intros [(n & -> & [Hm _]%list_elem_of_filter)|(e & (q & -> & Hq)%list_elem_of_fmap & He)].
  - by exists n.
  - rewrite Forall_forall in IH. destruct (IH _ He _ Hq) as (n & Hl & Hm).
    exists n. split; [|done]. destruct q; [done|]. done.
Qed.

Lemma glob_ext_NoDup ex t : wf_node t = true → NoDup (glob_ext ex t).
Proof.
  induction t as [st|st es IH] using node_induction; intros Hwf; simpl.
  { constructor. }
  pose proof Hwf as (Hnd & _ & Hwfs)%wf_Dir.
  rewrite Forall_forall in IH, Hwfs.
  apply NoDup_app. split_and!.
  - apply (NoDup_fmap_2 _). by apply NoDup_filter.
  - intros p (n & -> & _)%list_elem_of_fmap
      (e & (q & [= _ <-] & Hq)%list_elem_of_fmap & _)%list_elem_of_bind.
    by apply glob_ext_nonempty in Hq.
  - apply NoDup_bind.
    + intros [n1 c1] [n2 c2] p H1 H2 (q1 & -> & _)%list_elem_of_fmap
        (q2 & [= <- _] & _)%list_elem_of_fmap.
      simpl in *. f_equal.
      apply (assoc_elem _ _ _ Hnd) in H1, H2. congruence.
    + intros e He. apply (NoDup_fmap_2 _). apply (IH _ He), (Hwfs _ He).
    + by apply NoDup_fmap_1 in Hnd.
Qed.

Lemma glob_all_NoDup t : wf_node t = true → NoDup (glob_all t).
Proof.
  intros Hwf. unfold glob_all. apply NoDup_bind.
  - intros ex1 ex2 p H1 H2 (n1 & Hl1 & M1)%glob_ext_last (n2 & Hl2 & M2)%glob_ext_last.
    rewrite Hl1 in Hl2. injection Hl2 as <-. by eapply matches_ext_unique.
  - intros ex _. by apply glob_ext_NoDup.
  - apply (bool_decide_unpack _). vm_compute. exact I.
Qed.

(** ** The candidates exist *)

Lemma glob_ext_lookup ex t :
  wf_node t = true → ∀ p, p ∈ glob_ext ex t → is_Some (lookup_path p t).
Proof.
  induction t as [st|st es IH] using node_induction; intros Hwf p; simpl.
  { by intros ?%elem_of_nil. }
  pose proof Hwf as (Hnd & _ & Hwfs)%wf_Dir. rewrite Forall_forall in IH, Hwfs.
  rewrite elem_of_app, list_elem_of_fmap, list_elem_of_bind.
  intros [(n & -> & [_ Hn]%list_elem_of_filter)|(e & (q & -> & Hq)%list_elem_of_fmap & He)].
  - simpl. apply assoc_is_Some in Hn as [c ->]. eauto.
  - destruct e as [n c]. simpl in *. rewrite (assoc_elem _ _ _ Hnd He).
    by apply (IH _ He (Hwfs _ He)).
Qed.

Lemma glob_all_lookup t :
  wf_node t = true → ∀ p, p ∈ glob_all t → is_Some (lookup_path p t).
Proof.
  intros Hwf p (ex & Hp & _)%list_elem_of_bind. by eapply glob_ext_lookup.
Qed.

(** ** A real scan next to a dry one *)

Lemma log_rows_app tr1 tr2 : log_rows (tr1 ++ tr2) = log_rows tr1 ++ log_rows tr2.
Proof.
  induction tr1 as [|e tr1 IH]; [done|]. simpl.
  destruct e as [| | |[|]| | |]; simpl; by rewrite ?IH.
Qed.

(** The rows two scans add to their logs are the same. *)
Definition same_rows (sr sr' sd sd' : state) : Prop :=
  ∃ rows, log_rows (trace sr') = log_rows (trace sr) ++ rows
          ∧ log_rows (trace sd') = log_rows (trace sd) ++ rows.

Lemma same_rows_refl sr sd evr evd :
  log_rows evr = [] → log_rows evd = [] →
  same_rows sr (record sr evr) sd (record sd evd).
Proof.
  intros Hr Hd. exists []. unfold record. simpl.
  by rewrite !log_rows_app, Hr, Hd.
Qed.

Lemma same_rows_trans sr sr1 sr2 sd sd1 sd2 :
  same_rows sr sr1 sd sd1 → same_rows sr1 sr2 sd1 sd2 → same_rows sr sr2 sd sd2.
Proof.
  intros (r1 & A1 & B1) (r2 & A2 & B2). exists (r1 ++ r2).
  by rewrite A2, A1, B2, B1, <- !(assoc_L (++)).
Qed.

Lemma scan_sim assume_continuity file master_file master_stats backups :
  ∀ b sr sd b' sr',
    wf_node (fs sr) = true → NoDup backups →
    (∀ g, g ∈ backups → attr_at (g :: file) (fs sr) = attr_at (g :: file) (fs sd)) →
    scan false assume_continuity file master_file master_stats backups b sr = (Ok b', sr') →
    ∃ sd',
      scan true assume_continuity file master_file master_stats backups b sd = (Ok b', sd')
      ∧ fs sd' = fs sd
      ∧ same_rows sr sr' sd sd'
      ∧ wf_node (fs sr') = true
      ∧ ∀ q, (∀ g, g ∈ backups → q ≠ g :: file) → attr_at q (fs sr') = attr_at q (fs sr).
Proof.
  induction backups as [|g rest IH]; intros b sr sd b' sr' Hwf Hnd Hagree.
  { intros [= <- <-]. exists sd. split_and!; [done..| |done|done].
    exists []. by rewrite !app_nil_r. }
  apply NoDup_cons in Hnd as [Hg Hnd].
  assert (Hag : attr_at (g :: file) (fs sr) = attr_at (g :: file) (fs sd))
    by (apply Hagree; left).
  assert (Hskip : ∀ evs, log_rows evs = [] →
    scan false assume_continuity file master_file master_stats rest b (record sr evs)
    = (Ok b', sr') →
    ∃ sd', scan true assume_continuity file master_file master_stats rest b (record sd evs)
           = (Ok b', sd')
      ∧ fs sd' = fs sd ∧ same_rows sr sr' sd sd' ∧ wf_node (fs sr') = true
      ∧ ∀ q, (∀ g', g' ∈ g :: rest → q ≠ g' :: file) →
             attr_at q (fs sr') = attr_at q (fs sr)).
  { intros evs Hevs Hs.
    destruct (IH b (record sr evs) (record sd evs) b' sr') as (sd' & ? & ? & ? & ? & Hfr);
      [done|done| |done|].
    { intros g' Hg'. apply Hagree. by right. }
    exists sd'. split_and!; [done..| |done|].
    - eapply same_rows_trans; [by apply same_rows_refl|done].
    - intros q Hq. apply Hfr. intros g' Hg'. apply Hq. by right. }
  destruct (lookup_path (g :: file) (fs sr)) as [alt|] eqn:Hl.
  - destruct (attr_at_agree _ _ _ _ Hag Hl) as (altd & Hld & Hst & Hkind).
    destruct (decide (st_size (stat_of alt) = st_size master_stats)) as [He|Hne].
    + rewrite (scan_match _ _ _ _ _ _ _ _ _ _ Hl He).
      rewrite (scan_match _ _ _ _ _ _ _ _ _ _ Hld) by (by rewrite Hst).
      unfold bind. rewrite delete_dry, delete_real. cbn [fs record trace].
      destruct (fs_unlink (g :: file) (fs sr)) as [t'|e] eqn:Hu; [|done].
      destruct (fs_unlink_attr _ _ _ Hwf Hu) as [Hwf' Hattr].
      rewrite Hst. intros Hs.
      match type of Hs with scan _ _ _ _ _ _ _ ?s1 = _ => set (sr1 := s1) in * end.
      match goal with |- ∃ _, scan _ _ _ _ _ _ _ ?s1 = _ ∧ _ => set (sd1 := s1) end.
      destruct (IH (b + st_size (stat_of alt))%Z sr1 sd1 b' sr')
        as (sd' & ? & ? & ? & ? & Hfr); [done|done| |done|].
      { intros g' Hg'. subst sr1 sd1. cbn [fs]. rewrite Hattr.
        rewrite decide_False by (intros [= ->]; done). apply Hagree. by right. }
      exists sd'. split_and!; [done..| |done|].
      * eapply same_rows_trans; [|done]. subst sr1 sd1.
        eexists [_]. unfold record. cbn [trace fs].
        rewrite <- !(assoc_L (++)), !log_rows_app. cbn [log_rows app]. done.
      * intros q Hq. rewrite Hfr by (intros g' Hg'; apply Hq; by right).
        subst sr1. cbn [fs]. rewrite Hattr. rewrite decide_False; [done|]. apply Hq. left.
    + rewrite (scan_mismatch _ _ _ _ _ _ _ _ _ _ Hl Hne).
      rewrite (scan_mismatch _ _ _ _ _ _ _ _ _ _ Hld) by (by rewrite Hst).
      destruct assume_continuity.
      * intros [= <- <-]. eexists. split_and!; [done..| |done|done].
        by apply same_rows_refl.
      * by apply Hskip.
  - assert (Hld : lookup_path (g :: file) (fs sd) = None).
    { apply attr_at_None. rewrite <- Hag. by apply attr_at_None. }
    rewrite (scan_absent _ _ _ _ _ _ _ _ _ Hl), (scan_absent _ _ _ _ _ _ _ _ _ Hld).
    destruct assume_continuity.
    + intros [= <- <-]. eexists. split_and!; [done..| |done|done].
      by apply same_rows_refl.
    + by apply Hskip.
Qed.

Lemma bind_inv_ok {A B} (m : M A) (k : A → M B) s b s' :
  bind m k s = (Ok b, s') → ∃ a s1, m s = (Ok a, s1) ∧ k a s1 = (Ok b, s').
Proof. unfold bind. destruct (m s) as [[a|e] s1]; [eauto|done]. Qed.

Lemma scan_files_sim assume_continuity master_backup older_backups files :
  ∀ b sr sd b' sr',
    wf_node (fs sr) = true → NoDup older_backups → NoDup files →
    (∀ f g, f ∈ files → g ∈ master_backup :: older_backups →
            attr_at (g :: f) (fs sr) = attr_at (g :: f) (fs sd)) →
    scan_files false assume_continuity master_backup older_backups files b sr
    = (Ok b', sr') →
    ∃ sd',
      scan_files true assume_continuity master_backup older_backups files b sd
      = (Ok b', sd')
      ∧ fs sd' = fs sd ∧ same_rows sr sr' sd sd' ∧ wf_node (fs sr') = true.
Proof.
  induction files as [|f files IH]; intros b sr sd b' sr' Hwf Hnd Hndf Hagree.
  { intros [= <- <-]. exists sd. split_and!; [done..| |done]. exists []. by rewrite !app_nil_r. }
  apply NoDup_cons in Hndf as [Hf Hndf]. cbn [scan_files].
  intros (b1 & sr1 & Hfile & Hrest)%bind_inv_ok.
  unfold scan_file in Hfile. apply bind_inv_ok in Hfile as (ms & sr0 & Hstat & Hscan).
  unfold path_stat in Hstat.
  destruct (lookup_path (master_backup :: f) (fs sr)) as [c|] eqn:Hl; [|done].
  injection Hstat as <- <-.
  assert (Hm : attr_at (master_backup :: f) (fs sr) = attr_at (master_backup :: f) (fs sd))
    by (apply Hagree; left).
  destruct (attr_at_agree _ _ _ _ Hm Hl) as (cd & Hld & Hst & _).
  destruct (scan_sim assume_continuity f (master_backup :: f) (stat_of c) older_backups b
              (record sr [EvStat (master_backup :: f)])
              (record sd [EvStat (master_backup :: f)]) b1 sr1 Hwf Hnd)
    as (sd1 & Hscand & Hfs1 & Hrows1 & Hwf1 & Hframe); [|exact Hscan|].
  { intros g Hg. apply Hagree; [left|by right]. }
  destruct (IH b1 sr1 sd1 b' sr') as (sd' & Hd & Hfs & Hrows & Hwf'); [done..| |done|].
  { intros f' g Hf' Hg. rewrite Hframe, Hfs1.
    - apply Hagree; [by right|done].
    - intros g' Hg' [= _ ->]. done. }
  exists sd'. split_and!; [|by rewrite Hfs, Hfs1| |done].
  - unfold scan_file. erewrite bind_ok; [exact Hd|].
    erewrite bind_ok; [|unfold path_stat; by rewrite Hld]. by rewrite Hst.
  - eapply same_rows_trans; [|exact Hrows].
    eapply same_rows_trans; [|exact Hrows1]. by apply same_rows_refl.
Qed.

(** [deduplicate] on a directory, phase by phase. *)
Lemma deduplicate_unfold dry_run assume_continuity now st es tr :
  deduplicate dry_run assume_continuity now {| fs := Dir st es; trace := tr |}
  = let s := {| fs := Dir st es; trace := tr |} in
    let children := children_of (names es) in
    if forallb (λ c, from_option is_dir false (lookup_path [c] (Dir st es))) children then
      match children with
      | [] => (Raise IndexError, s)
      | master_backup :: older_backups =>
          match fs_create (log_name now dry_run)
                  {| st_size := 0; st_ctime := timestamp now |} (Dir st es) with
          | Raise e => (Raise e, s)
          | Ok t1 =>
              match scan_files dry_run assume_continuity master_backup older_backups
                      (from_option glob_all [] (lookup_path [master_backup] (Dir st es))) 0
                      {| fs := t1;
                         trace := tr ++ [EvOpen [log_name now dry_run]; EvWrite Header] |}
              with
              | (Raise e, s7) => (Raise e, s7)
              | (Ok b, s7) =>
                  match (if dry_run then ret tt
                         else delete_empty_folders_all older_backups) s7 with
                  | (Raise e, s8) => (Raise e, s8)
                  | (Ok _, s8) =>
                      match format_bytes b with
                      | Ok (amount, label) =>
                          (Ok b, record s8 [EvPrint (Freed amount label)])
                      | Raise e => (Raise e, s8)
                      end
                  end
              end
          end
      end
    else (Raise (AssertionError "not all children are directories"), s).
Proof.
  cbn zeta. unfold deduplicate. unfold bind at 1, iterdir. cbn [lookup_path fs].
  unfold bind at 1. rewrite all_is_dir_spec. cbn [fs].
  destruct (forallb _ _); [|done]. unfold bind at 1. cbn [assert ret].
  destruct (children_of (names es)) as [|master_backup older_backups]; [done|].
  unfold bind at 1, master_files_of. cbn [fs].
  unfold bind at 1, open_w, mutate. cbn [fs trace].
  destruct (fs_create _ _ _) as [t1|e]; [|done].
  unfold bind at 1, write, emit. cbn [fs trace]. rewrite <- (assoc_L (++)). cbn [app].
  unfold bind at 1. destruct (scan_files _ _ _ _ _ _ _) as [[b|e] s7]; [|done].
  unfold bind at 1.
  destruct ((if dry_run then ret tt else delete_empty_folders_all older_backups) s7)
    as [[[]|e] s8]; [|done].
  destruct (format_bytes b) as [[amount label]|e]; [|done].
  unfold bind, print, emit, ret, record. done.
Qed.

Lemma log_name_nonempty now dry_run : log_name now dry_run ≠ "".
Proof. done. Qed.

Lemma wf_fs_create name new t t' :
  wf_node t = true → name ≠ "" → fs_create name new t = Ok t' → wf_node t' = true.
Proof.
  destruct t as [st|st es]; [done|]. intros Hwf Hname. simpl.
  destruct (assoc name es) as [[st'|st' es']|] eqn:Ha; [|done|].
  - rewrite alter_entry_spec, Ha. intros [= <-]. apply wf_replace_entry; [done|].
    by intros x [= <-].
  - intros [= <-]. apply wf_Dir in Hwf as (Hnd & He & Hwfs). apply wf_Dir.
    rewrite names_app. split_and!.
    + apply NoDup_app. split_and!; [done| |apply NoDup_singleton].
      intros x Hx Hs. apply list_elem_of_singleton in Hs as ->.
      apply assoc_None in Ha. by apply Ha.
    + intros [?|Hs]%elem_of_app; [by apply He|].
      apply list_elem_of_singleton in Hs. by apply Hname.
    + apply Forall_app. split; [done|]. by constructor.
Qed.

Lemma fs_create_attr_ne n new t t' m q :
  fs_create n new t = Ok t' → m ≠ n → attr_at (m :: q) t' = attr_at (m :: q) t.
Proof. intros Hc Hne. unfold attr_at. by rewrite (fs_create_lookup_ne _ _ _ _ _ _ Hc Hne). Qed.

Lemma emits_no_rows s s' :
  emits (λ e, log_rows [e] = []) s s' → log_rows (trace s') = log_rows (trace s).
Proof.
  intros (tr & E & F). rewrite E, log_rows_app. clear E.
  replace (log_rows tr) with (@nil line); [by rewrite app_nil_r|].
  induction F as [|e tr He _ IH]; [done|].
  change (e :: tr) with ([e] ++ tr). by rewrite log_rows_app, He, <- IH.
Qed.

Lemma reclaim_all_no_rows older_backups s r s' :
  delete_empty_folders_all older_backups s = (r, s') →
  log_rows (trace s') = log_rows (trace s).
Proof.
  intros H. apply emits_no_rows. eapply keeps_run; [|exact H].
  by apply emits_delete_empty_folders_all.
Qed.

Lemma child_not_log l g now dry_run : g ∈ children_of l → g ≠ log_name now dry_run.
Proof.
  intros [_ Hg]%children_of_elem ->. by rewrite log_name_suffix in Hg.
Qed.

(** ** Directories in the place of a copy *)

(** No older backup holds a directory at the relative path of a candidate
    of the master.  On such a tree every path the scan stats below an older
    backup is a regular file, whose size and [st_ctime] no removal
    elsewhere changes; a directory there has stats that the removals of a
    real run below it can change on disk, and it makes [unlink] raise when
    its size is the master's. *)
Definition no_directory_copy (t : node) : bool :=
  match children_of (names (entries_of t)) with
  | [] => true
  | master_backup :: older_backups =>
      forallb (λ file,
          forallb (λ backup,
              negb (from_option is_dir false (lookup_path (backup :: file) t)))
            older_backups)
        (from_option glob_all [] (lookup_path [master_backup] t))
  end.

(** A folder in which a directory has the name the log of the run would
    get. *)
Definition squatted_tree : node :=
  folder [("2023", folder [("photo.jpg", file 1000 1)]);
          ("2024", folder [("photo.jpg", file 1000 3)]);
          (log_name noon false, folder [])].

(** C6, as the spec states it, fails on the tree with a directory in the
    place of a duplicate: the dry run returns a total of 4096 bytes and one
    row, the real run of the same tree raises on the unlink and reports no
    total.  It also fails on a tree of regular files where the name of the
    real run's log is taken by a directory: the real run raises when it
    opens its log, the dry run, whose log has another name, returns 1000
    bytes and one row. *)
Lemma dry_run_fidelity_counterexample :
  wf_node clash_tree = true
  ∧ (run true true noon clash_tree).1 = Ok 4096%Z
  ∧ log_rows (trace (run true true noon clash_tree).2)
    = [Row ["2023"; "album.jpg"] ["2024"; "album.jpg"] 0 3]
  ∧ (run false true noon clash_tree).1 = Raise IsADirectoryError
  ∧ wf_node squatted_tree = true
  ∧ no_directory_copy squatted_tree = true
  ∧ (run true true noon squatted_tree).1 = Ok 1000%Z
  ∧ log_rows (trace (run true true noon squatted_tree).2)
    = [Row ["2023"; "photo.jpg"] ["2024"; "photo.jpg"] 1 3]
  ∧ (run false true noon squatted_tree).1 = Raise IsADirectoryError
  ∧ log_rows (trace (run false true noon squatted_tree).2) = [].
Proof. vm_compute. done. Qed.

(** ** What a real run leaves behind *)

(** A well-formed tree stays well formed and only loses nodes. *)
Definition shrinking : relation state := λ s s',
  wf_node (fs s) = true → wf_node (fs s') = true ∧ shrinks (fs s) (fs s').

#[global] Instance shrinking_preorder : PreOrder shrinking.
Proof.
  split.
  - intros s Hwf. split; [done|reflexivity].
  - intros s1 s2 s3 H12 H23 Hwf. destruct (H12 Hwf) as [Hwf2 S12].
    destruct (H23 Hwf2) as [Hwf3 S23]. split; [done|by etrans].
Qed.

Lemma shrinking_mutate f p e :
  removes_leaf f → keeps shrinking (mutate (apply_at p f) e).
Proof.
  intros Hf s. unfold mutate. destruct (apply_at p f (fs s)) as [t'|x] eqn:Ha; [|reflexivity].
  intros Hwf. cbn [snd fs]. split.
  - by destruct (apply_at_leaf _ _ _ _ Hf Hwf Ha) as [? _].
  - by eapply apply_at_leaf_shrinks.
Qed.

Lemma shrinking_same {A} (m : M A) : (∀ s, fs (m s).2 = fs s) → keeps shrinking m.
Proof. intros H s Hwf. rewrite H. split; [done|reflexivity]. Qed.

Lemma shrinking_emit e : keeps shrinking (emit e).
Proof. by apply shrinking_same. Qed.

Lemma shrinking_path_stat p : keeps shrinking (path_stat p).
Proof.
  apply shrinking_same. intros s. unfold path_stat. by destruct (lookup_path p (fs s)).
Qed.

Lemma shrinking_scan dry_run assume_continuity file master_file master_stats backups b :
  keeps shrinking (scan dry_run assume_continuity file master_file master_stats backups b).
Proof.
  revert b. induction backups as [|g rest IH]; intros b; simpl.
  { apply keeps_ret. }
  apply keeps_bind; [apply shrinking_emit|]. intros e.
  destruct (negb e).
  { destruct assume_continuity; [apply keeps_ret|apply IH]. }
  apply keeps_bind; [apply shrinking_path_stat|]. intros alt_stats.
  destruct (negb _).
  { destruct assume_continuity; [apply keeps_ret|apply IH]. }
  apply keeps_bind; [apply shrinking_emit|]. intros _.
  apply keeps_bind; [|intros _; apply IH].
  apply keeps_bind; [apply shrinking_emit|]. intros _.
  destruct dry_run; [apply keeps_ret|]. apply shrinking_mutate, unlink_removes_leaf.
Qed.

Lemma shrinking_scan_files dry_run assume_continuity master_backup older_backups files b :
  keeps shrinking
    (scan_files dry_run assume_continuity master_backup older_backups files b).
Proof.
  revert b. induction files as [|f files IH]; intros b; simpl.
  { apply keeps_ret. }
  apply keeps_bind; [|done]. unfold scan_file.
  apply keeps_bind; [apply shrinking_path_stat|]. intros ms. apply shrinking_scan.
Qed.

Lemma shrinking_reclaim (triples : list (path * list string * list string))
    (D : gset path) :
  keeps shrinking (reclaim triples D).
Proof.
  revert D. induction triples as [|[[cur subdirs] files] triples IH]; intros D; simpl.
  { apply keeps_ret. }
  destruct (_ && _); [|done].
  apply keeps_bind; [apply keeps_iterdir|]. intros listing.
  apply keeps_bind; [apply keeps_assert|]. intros _.
  apply keeps_bind; [apply shrinking_emit|]. intros _.
  apply keeps_bind; [apply shrinking_mutate, rmdir_removes_leaf|]. intros _. done.
Qed.

Lemma shrinking_delete_empty_folders_all backups :
  keeps shrinking (delete_empty_folders_all backups).
Proof.
  induction backups as [|g rest IH]; simpl; [apply keeps_ret|].
  apply keeps_bind; [|done]. unfold delete_empty_folders.
  apply keeps_bind; [apply keeps_path_walk|]. intros triples. apply shrinking_reclaim.
Qed.

(** [q] is no duplicate of a master file with stats [ms]: it does not exist
    or its size differs. *)
Definition mismatch (ms : stats) (q : path) (t : node) : Prop :=
  ∀ d st, attr_at q t = Some (d, st) → st_size st ≠ st_size ms.

Lemma mismatch_shrinks ms q t t' : shrinks t t' → mismatch ms q t → mismatch ms q t'.
Proof.
  intros Hs Hm d st Ha. destruct (Hs q) as [Hn|He]; [congruence|].
  rewrite He in Ha. by eapply Hm.
Qed.

Lemma mismatch_None ms q t : lookup_path q t = None → mismatch ms q t.
Proof. intros Hl d st. unfold attr_at. by rewrite Hl. Qed.

Lemma mismatch_Some ms q t c :
  lookup_path q t = Some c → st_size (stat_of c) ≠ st_size ms → mismatch ms q t.
Proof. intros Hl Hne d st. unfold attr_at. rewrite Hl. simpl. by intros [= _ <-]. Qed.

(** The backups a scan is sure to have looked at: the nearest one under
    the continuity assumption, all of them without it. *)
Definition surely_scanned (assume_continuity : bool) (backups : list string)
    : list string :=
  if assume_continuity then take 1 backups else backups.

Lemma scan_post assume_continuity file master_file master_stats backups :
  ∀ b s b' s',
    wf_node (fs s) = true →
    scan false assume_continuity file master_file master_stats backups b s = (Ok b', s') →
    ∀ g, g ∈ surely_scanned assume_continuity backups →
         mismatch master_stats (g :: file) (fs s').
Proof.
  induction backups as [|g rest IH]; intros b s b' s' Hwf Hs g' Hg'.
  { destruct assume_continuity; by apply elem_of_nil in Hg'. }
  assert (Hlater : ∀ s1 b1,
    fs s1 = fs s ∨ (∃ t', fs_unlink (g :: file) (fs s) = Ok t' ∧ fs s1 = t') →
    mismatch master_stats (g :: file) (fs s1) →
    scan false assume_continuity file master_file master_stats rest b1 s1 = (Ok b', s') →
    mismatch master_stats (g' :: file) (fs s')).
  { intros s1 b1 Hfs Hm Hs1.
    assert (Hwf1 : wf_node (fs s1) = true).
    { destruct Hfs as [->|(t' & Hu & ->)]; [done|]. by eapply fs_unlink_attr. }
    pose proof (keeps_run shrinking _ _ _ _ (shrinking_scan _ _ _ _ _ _ _) Hs1 Hwf1)
      as [_ Hsh].
    assert (Hg : mismatch master_stats (g :: file) (fs s')) by (by eapply mismatch_shrinks).
    destruct assume_continuity; cbn [surely_scanned take] in Hg'.
    - by apply list_elem_of_singleton in Hg' as ->.
    - apply elem_of_cons in Hg' as [->|Hg']; [done|]. by eapply (IH _ _ _ _ Hwf1 Hs1). }
  assert (Hhere : mismatch master_stats (g :: file) (fs s) →
    g' ∈ surely_scanned true (g :: rest) → mismatch master_stats (g' :: file) (fs s)).
  { intros Hm Hin. by apply list_elem_of_singleton in Hin as ->. }
  destruct (lookup_path (g :: file) (fs s)) as [alt|] eqn:Hl.
  - destruct (decide (st_size (stat_of alt) = st_size master_stats)) as [He|Hne].
    + rewrite (scan_match _ _ _ _ _ _ _ _ _ _ Hl He) in Hs. unfold bind in Hs.
      rewrite delete_real in Hs. cbn [fs record] in Hs.
      destruct (fs_unlink (g :: file) (fs s)) as [t'|e] eqn:Hu; [|done].
      eapply Hlater; [| |exact Hs].
      * right. eauto.
      * cbn [fs]. destruct (fs_unlink_attr _ _ _ Hwf Hu) as [_ Ha]. intros d st.
        rewrite Ha, decide_True by done. done.
    + pose proof (mismatch_Some _ _ _ _ Hl Hne) as Hm.
      rewrite (scan_mismatch _ _ _ _ _ _ _ _ _ _ Hl Hne) in Hs.
      destruct assume_continuity.
      * injection Hs as <- <-. by apply Hhere.
      * eapply Hlater; [| |exact Hs]; [by left|done].
  - pose proof (mismatch_None master_stats _ _ Hl) as Hm.
    rewrite (scan_absent _ _ _ _ _ _ _ _ _ Hl) in Hs.
    destruct assume_continuity.
    + injection Hs as <- <-. by apply Hhere.
    + eapply Hlater; [| |exact Hs]; [by left|done].
Qed.

Lemma scan_files_post assume_continuity master_backup older_backups files :
  ∀ b s b' s',
    wf_node (fs s) = true → master_apart master_backup older_backups →
    scan_files false assume_continuity master_backup older_backups files b s = (Ok b', s') →
    ∀ f, f ∈ files →
      ∃ cf, lookup_path (master_backup :: f) (fs s) = Some cf
            ∧ ∀ g, g ∈ surely_scanned assume_continuity older_backups →
                   mismatch (stat_of cf) (g :: f) (fs s').
Proof.
  induction files as [|f0 files IH]; intros b s b' s' Hwf Hap Hs f Hf.
  { by apply elem_of_nil in Hf. }
  cbn [scan_files] in Hs. apply bind_inv_ok in Hs as (b1 & s1 & Hfile & Hrest).
  unfold scan_file in Hfile. apply bind_inv_ok in Hfile as (ms & s0 & Hstat & Hscan).
  unfold path_stat in Hstat.
  destruct (lookup_path (master_backup :: f0) (fs s)) as [c0|] eqn:Hl; [|done].
  injection Hstat as <- <-.
  pose proof (keeps_run shrinking _ _ _ _ (shrinking_scan _ _ _ _ _ _ _) Hscan Hwf)
    as [Hwf1 _].
  pose proof (keeps_run shrinking _ _ _ _ (shrinking_scan_files _ _ _ _ _ _) Hrest Hwf1)
    as [_ Hsh].
  apply elem_of_cons in Hf as [->|Hf].
  - exists c0. split; [done|]. intros g Hg. eapply mismatch_shrinks; [exact Hsh|].
    eapply scan_post; [|exact Hscan|exact Hg]. exact Hwf.
  - destruct (IH _ _ _ _ Hwf1 Hap Hrest f Hf) as (cf & Hlf & Hm).
    exists cf. split; [|done]. rewrite <- Hlf. symmetry.
    pose proof (keeps_run (confined master_backup older_backups) _ _ _ _
                  (confined_scan master_backup older_backups false assume_continuity f0
                     (stat_of c0) older_backups b (reflexivity _)) Hscan) as [Hfs _].
    by apply Hfs.
Qed.

(** A scan that meets no duplicate where it is sure to look: under
    continuity it stops at the nearest backup, without it it passes every
    backup; it returns the total it was given and only probes. *)
Lemma scan_no_duplicate dry_run assume_continuity file master_file master_stats backups :
  ∀ b s,
    (∀ g, g ∈ surely_scanned assume_continuity backups →
          mismatch master_stats (g :: file) (fs s)) →
    ∃ evs, scan dry_run assume_continuity file master_file master_stats backups b s
           = (Ok b, record s evs)
           ∧ Forall (λ e, is_mutation e = false ∧ log_rows [e] = []) evs.
Proof.
  induction backups as [|g rest IH]; intros b s Hm.
  { exists []. split; [|done]. unfold record. rewrite app_nil_r. by destruct s. }
  assert (Hg : mismatch master_stats (g :: file) (fs s)).
  { apply Hm. destruct assume_continuity; left. }
  assert (Hnext : ∀ evs, Forall (λ e, is_mutation e = false ∧ log_rows [e] = []) evs →
    ∃ evs', (if assume_continuity then (Ok b, record s evs)
             else scan dry_run assume_continuity file master_file master_stats rest b
                    (record s evs)) = (Ok b, record s evs')
            ∧ Forall (λ e, is_mutation e = false ∧ log_rows [e] = []) evs').
  { intros evs Hevs. destruct assume_continuity; [by exists evs|].
    destruct (IH b (record s evs)) as (evs' & -> & Hevs').
    - intros g' Hg'. apply Hm. by right.
    - exists (evs ++ evs'). rewrite record_record. split; [done|]. by apply Forall_app. }
  destruct (lookup_path (g :: file) (fs s)) as [alt|] eqn:Hl.
  - assert (Hne : st_size (stat_of alt) ≠ st_size master_stats).
    { apply (Hg (is_dir alt)). unfold attr_at. by rewrite Hl. }
    rewrite (scan_mismatch _ _ _ _ _ _ _ _ _ _ Hl Hne). apply Hnext. by repeat constructor.
  - rewrite (scan_absent _ _ _ _ _ _ _ _ _ Hl). apply Hnext. by repeat constructor.
Qed.

Lemma scan_files_no_duplicate dry_run assume_continuity master_backup older_backups files :
  ∀ b s,
    (∀ f, f ∈ files →
       ∃ cf, lookup_path (master_backup :: f) (fs s) = Some cf
             ∧ ∀ g, g ∈ surely_scanned assume_continuity older_backups →
                    mismatch (stat_of cf) (g :: f) (fs s)) →
    ∃ evs, scan_files dry_run assume_continuity master_backup older_backups files b s
           = (Ok b, record s evs)
           ∧ Forall (λ e, is_mutation e = false ∧ log_rows [e] = []) evs.
Proof.
  induction files as [|f files IH]; intros b s Hm.
  { exists []. split; [|done]. unfold record. rewrite app_nil_r. by destruct s. }
  destruct (Hm f) as (cf & Hl & Hmf); [left|].
  destruct (scan_no_duplicate dry_run assume_continuity f (master_backup :: f) (stat_of cf)
              older_backups b (record s [EvStat (master_backup :: f)]) Hmf)
    as (evs1 & Hscan & Hevs1).
  destruct (IH b (record (record s [EvStat (master_backup :: f)]) evs1))
    as (evs2 & Hrest & Hevs2).
  { intros f' Hf'. apply Hm. by right. }
  exists ([EvStat (master_backup :: f)] ++ evs1 ++ evs2). split.
  - cbn [scan_files]. unfold scan_file.
    erewrite bind_ok; [|erewrite bind_ok; [exact Hscan|]; unfold path_stat; by rewrite Hl].
    rewrite Hrest. by rewrite !record_record.
  - apply Forall_app. split; [by repeat constructor|]. by apply Forall_app.
Qed.

(** On a well-formed tree the reclamation pass over any list of top-level
    names returns. *)
Lemma delete_empty_folders_all_ok backups :
  ∀ s, wf_node (fs s) = true →
       ∃ s', delete_empty_folders_all backups s = (Ok tt, s').
Proof.
  induction backups as [|g rest IH]; intros s Hwf; [by eexists|].
  cbn [delete_empty_folders_all].
  assert (∃ D s1, delete_empty_folders [g] s = (Ok D, s1)) as (D & s1 & Hg).
  { destruct (lookup_path [g] (fs s)) as [[st|st es]|] eqn:Hl.
    - unfold delete_empty_folders, bind, path_walk. rewrite Hl. by eexists _, _.
    - destruct (delete_empty_folders_spec g _ s Hl eq_refl) as (t' & _ & ->);
        [by eapply wf_lookup|]. by eexists _, _.
    - unfold delete_empty_folders, bind, path_walk. rewrite Hl. by eexists _, _. }
  assert (Hwf1 : wf_node (fs s1) = true).
  { assert (K : keeps shrinking (delete_empty_folders [g])).
    { unfold delete_empty_folders. apply keeps_bind; [apply keeps_path_walk|].
      intros triples. apply shrinking_reclaim. }
    by destruct (keeps_run _ _ _ _ _ K Hg Hwf). }
  destruct (IH s1 Hwf1) as (s' & Hrest). exists s'.
  erewrite bind_ok; [exact Hrest|exact Hg].
Qed.

Lemma fs_create_names n new st es t' :
  fs_create n new (Dir st es) = Ok t' →
  ∃ es', t' = Dir st es' ∧ ∀ m, m ∈ names es' → m ∈ names es ∨ m = n.
Proof.
  simpl. destruct (assoc n es) as [[st'|st' es'']|] eqn:Ha; [|done|].
  - rewrite alter_entry_spec, Ha. intros [= <-]. eexists. split; [done|].
    intros m. rewrite names_replace_Some. by left.
  - intros [= <-]. eexists. split; [done|]. intros m. rewrite names_app.
    intros [?|Hm]%elem_of_app; [by left|]. apply list_elem_of_singleton in Hm. by right.
Qed.

Lemma shrinks_root st es t' :
  shrinks (Dir st es) t' →
  ∃ es', t' = Dir st es'
         ∧ ∀ n, n ∈ names es' →
                n ∈ names es ∧ attr_at [n] t' = attr_at [n] (Dir st es).
Proof.
  intros Hs. destruct (Hs []) as [Hn|He]; [done|].
  unfold attr_at in He. simpl in He. injection He as Hd Hst.
  destruct t' as [st'|st' es']; [done|]. simpl in Hst. subst st'.
  exists es'. split; [done|]. intros n Hin.
  apply assoc_is_Some in Hin as [x Hx].
  destruct (Hs [n]) as [Hn|He].
  - unfold attr_at in Hn. simpl in Hn. by rewrite Hx in Hn.
  - split; [|done]. apply assoc_is_Some.
    unfold attr_at in He. simpl in He. rewrite Hx in He.
    destruct (assoc n es); [eauto|done].
Qed.

(** The children of a folder whose names are among those of another one
    that has the same largest child. *)
Lemma children_of_head l1 l2 master_backup older1 :
  NoDup l2 →
  children_of l1 = master_backup :: older1 →
  (∀ n, n ∈ children_of l2 → n ∈ children_of l1) →
  master_backup ∈ children_of l2 →
  ∃ older2, children_of l2 = master_backup :: older2 ∧ older2 ⊆ older1.
Proof.
  intros Hnd Hc1 Hsub Hm.
  pose proof (children_of_sorted l1) as Hs1. pose proof (children_of_sorted l2) as Hs2.
  pose proof (children_of_NoDup _ Hnd) as Hnd2.
  destruct (children_of l2) as [|h rest] eqn:Hc2; [by apply elem_of_nil in Hm|].
  rewrite Hc1 in Hs1, Hsub.
  apply StronglySorted_inv in Hs1 as [_ Hle1]. apply StronglySorted_inv in Hs2 as [_ Hle2].
  rewrite Forall_forall in Hle1, Hle2. apply NoDup_cons in Hnd2 as [Hh _].
  assert (h = master_backup) as ->.
  { apply elem_of_cons in Hm as [->|Hm]; [done|].
    assert (Hh1 : h ∈ master_backup :: older1) by (apply Hsub; left).
    apply elem_of_cons in Hh1 as [->|Hh1]; [done|].
    apply (anti_symm (flip String.le)); [by apply Hle2|by apply Hle1]. }
  exists rest. split; [done|]. intros x Hx.
  assert (Hx1 : x ∈ master_backup :: older1) by (apply Hsub; by right).
  apply elem_of_cons in Hx1 as [->|Hx1]; [done|done].
Qed.

Lemma mismatch_attr ms q t t' :
  attr_at q t' = attr_at q t → mismatch ms q t → mismatch ms q t'.
Proof. intros He Hm d st. rewrite He. apply Hm. Qed.

Lemma format_bytes_zero : format_bytes 0 = Ok (0%Q, "bytes").
Proof. reflexivity. Qed.

Lemma log_rows_quiet evs :
  Forall (λ e, is_mutation e = false ∧ log_rows [e] = []) evs → log_rows evs = [].
Proof.
  induction 1 as [|e evs [_ He] _ IH]; [done|].
  change (e :: evs) with ([e] ++ evs). by rewrite log_rows_app, He, IH.
Qed.

(** ** A real scan that cannot fail *)

(** [q] does not stand for a directory. *)
Definition not_a_directory (q : path) (t : node) : Prop :=
  ∀ st, attr_at q t ≠ Some (true, st).

Lemma not_a_directory_shrinks q t t' :
  shrinks t t' → not_a_directory q t → not_a_directory q t'.
Proof.
  intros Hs Hn st Ha. destruct (Hs q) as [H|H]; [congruence|].
  rewrite H in Ha. by eapply Hn.
Qed.

(** Where none of the backups has a directory at [file], every [unlink] of
    the scan meets a regular file and the scan returns. *)
Lemma scan_real_ok assume_continuity file master_file master_stats backups :
  ∀ b s, wf_node (fs s) = true →
    (∀ g, g ∈ backups → not_a_directory (g :: file) (fs s)) →
    ∃ b' s',
      scan false assume_continuity file master_file master_stats backups b s = (Ok b', s').
Proof.
  induction backups as [|g rest IH]; intros b s Hwf Hnd; [by eexists _, _|].
  assert (Hrest : ∀ evs,
    ∃ b' s', (if assume_continuity then (Ok b, record s evs)
              else scan false assume_continuity file master_file master_stats rest b
                     (record s evs)) = (Ok b', s')).
  { intros evs. destruct assume_continuity; [by eexists _, _|].
    apply IH; [done|]. intros g' Hg'. apply Hnd. by right. }
  destruct (lookup_path (g :: file) (fs s)) as [alt|] eqn:Hl.
  - destruct (decide (st_size (stat_of alt) = st_size master_stats)) as [He|Hne].
    + rewrite (scan_match _ _ _ _ _ _ _ _ _ _ Hl He). unfold bind.
      rewrite delete_real. cbn [fs record].
      destruct alt as [st|st es].
      * destruct (fs_unlink_file (g :: file) (fs s) st) as (t' & Hu & _); [done..|].
        rewrite Hu. destruct (fs_unlink_attr _ _ _ Hwf Hu) as [Hwf' Ha].
        apply IH; [done|]. cbn [fs]. intros g' Hg' st' Hst'. rewrite Ha in Hst'.
        case_decide; [done|]. eapply Hnd; [by right|exact Hst'].
      * exfalso. apply (Hnd g (list_elem_of_here _ _) st). unfold attr_at. by rewrite Hl.
    + rewrite (scan_mismatch _ _ _ _ _ _ _ _ _ _ Hl Hne). apply Hrest.
  - rewrite (scan_absent _ _ _ _ _ _ _ _ _ Hl). apply Hrest.
Qed.

Lemma scan_files_real_ok assume_continuity master_backup older_backups files :
  master_apart master_backup older_backups →
  ∀ b s, wf_node (fs s) = true →
    (∀ f, f ∈ files → is_Some (lookup_path (master_backup :: f) (fs s))) →
    (∀ f g, f ∈ files → g ∈ older_backups → not_a_directory (g :: f) (fs s)) →
    ∃ b' s',
      scan_files false assume_continuity master_backup older_backups files b s = (Ok b', s').
Proof.
  intros Hap. induction files as [|f files IH]; intros b s Hwf Hex Hnd; [by eexists _, _|].
  destruct (Hex f) as [cm Hl]; [left|].
  rewrite (scan_files_cons _ _ _ _ _ _ _ _ _ Hl).
  destruct (scan_real_ok assume_continuity f (master_backup :: f) (stat_of cm) older_backups b
              (record s [EvStat (master_backup :: f)])) as (b1 & s1 & Hscan); [done| |].
  { intros g Hg. apply Hnd; [left|done]. }
  rewrite Hscan.
  pose proof (keeps_run shrinking _ _ _ _ (shrinking_scan _ _ _ _ _ _ _) Hscan Hwf)
    as [Hwf1 Hsh].
  pose proof (keeps_run (confined master_backup older_backups) _ _ _ _
                (confined_scan master_backup older_backups false assume_continuity f
                   (stat_of cm) older_backups b (reflexivity _)) Hscan) as [Hm _].
  cbn [fs record] in Hsh, Hm. apply IH; [done| |].
  - intros f' Hf'. rewrite (Hm Hap). apply Hex. by right.
  - intros f' g Hf' Hg. eapply not_a_directory_shrinks; [exact Hsh|].
    apply Hnd; [by right|done].
Qed.

(** ** Dry runs *)

(** C6, amended (dry-run fidelity).  Take a well-formed tree, hence a working
    folder without links, in which no older backup holds a directory at the
    path of a candidate, and two moments at which the log of the real run
    and the log of the dry run can be created.  The dry run and the real
    run of that tree end in the same way, with the same total or with the
    same exception, and they have written the same rows in the same order.
    The dry run leaves the tree as it was, but for its log file where it
    came to create it, and its trace holds no removal of a file or of a
    directory.  What the two runs do where an older backup has a directory
    in the place of a copy is left open: the real run raises on its
    [unlink] when the sizes agree, and a directory does not keep its stats
    on disk while a real run removes entries below it. *)
Theorem dry_run_fidelity assume_continuity now_real now_dry t :
  wf_node t = true →
  no_directory_copy t = true →
  is_ok (fs_create (log_name now_real false)
           {| st_size := 0; st_ctime := timestamp now_real |} t) = true →
  is_ok (fs_create (log_name now_dry true)
           {| st_size := 0; st_ctime := timestamp now_dry |} t) = true →
  (run true assume_continuity now_dry t).1 = (run false assume_continuity now_real t).1
  ∧ log_rows (trace (run true assume_continuity now_dry t).2)
    = log_rows (trace (run false assume_continuity now_real t).2)
  ∧ (fs (run true assume_continuity now_dry t).2 = t
     ∨ fs_create (log_name now_dry true)
         {| st_size := 0; st_ctime := timestamp now_dry |} t
       = Ok (fs (run true assume_continuity now_dry t).2))
  ∧ ∀ p, (EvUnlink p ∉ trace (run true assume_continuity now_dry t).2)
         ∧ (EvRmdir p ∉ trace (run true assume_continuity now_dry t).2).
Proof.
  intros Hwf Hnodir Hlogr Hlogd.
  assert (Hquiet : ∀ p, (EvUnlink p ∉ trace (run true assume_continuity now_dry t).2)
                        ∧ (EvRmdir p ∉ trace (run true assume_continuity now_dry t).2)).
  { intros p. destruct (run_phases true assume_continuity now_dry t)
      as (tr1 & tr2 & -> & F1 & F2 & F3).
    specialize (F3 eq_refl). rewrite Forall_forall in F1, F2, F3.
    split; intros [Hin|Hin]%elem_of_app.
    - apply (F3 _ Hin). by exists p.
    - destruct (F2 _ Hin) as [H _]. apply H. by exists p.
    - apply (F1 _ Hin). by exists p.
    - destruct (F2 _ Hin) as [_ H]. apply H; [done|]. by exists p. }
  cut ((run true assume_continuity now_dry t).1 = (run false assume_continuity now_real t).1
       ∧ log_rows (trace (run true assume_continuity now_dry t).2)
         = log_rows (trace (run false assume_continuity now_real t).2)
       ∧ (fs (run true assume_continuity now_dry t).2 = t
          ∨ fs_create (log_name now_dry true)
              {| st_size := 0; st_ctime := timestamp now_dry |} t
            = Ok (fs (run true assume_continuity now_dry t).2))).
  { intros (? & ? & ?). done. }
  clear Hquiet. unfold run. destruct t as [st|st es]; [done|].
  unfold no_directory_copy in Hnodir. cbn [entries_of] in Hnodir.
  rewrite !deduplicate_unfold. cbn zeta.
  destruct (forallb _ _); [|by split_and!; [..|left]].
  destruct (children_of (names es)) as [|master_backup older_backups] eqn:Hc;
    [by split_and!; [..|left]|].
  destruct (fs_create (log_name now_real false) _ _) as [t_real|e] eqn:Hcr;
    [|done].
  destruct (fs_create (log_name now_dry true) _ _) as [t_dry|e] eqn:Hcd;
    [|done].
  clear Hlogr Hlogd.
  pose proof Hwf as (Hnd & _ & _)%wf_Dir.
  pose proof (children_of_apart _ _ _ Hnd Hc) as Hap.
  pose proof (children_of_NoDup _ Hnd) as Hndc. rewrite Hc in Hndc.
  apply NoDup_cons in Hndc as [_ Hndo].
  assert (Hchild : ∀ g dry now, g ∈ master_backup :: older_backups → g ≠ log_name now dry).
  { intros g dry now Hg. apply (child_not_log (names es)). by rewrite Hc. }
  assert (Hwfr : wf_node t_real = true).
  { eapply wf_fs_create; [exact Hwf|apply log_name_nonempty|exact Hcr]. }
  set (files := from_option glob_all [] (lookup_path [master_backup] (Dir st es))) in *.
  assert (Hfiles : NoDup files
            ∧ ∀ f, f ∈ files → is_Some (lookup_path (master_backup :: f) (Dir st es))).
  { subst files. destruct (lookup_path [master_backup] (Dir st es)) as [m|] eqn:Hm.
    - pose proof (wf_lookup [master_backup] (Dir st es) m Hwf Hm) as Hwfm. split.
      + by apply glob_all_NoDup.
      + intros f Hf. change (master_backup :: f) with ([master_backup] ++ f).
        rewrite lookup_path_app, Hm. simpl. by apply glob_all_lookup.
    - split; [constructor|]. by intros f ?%elem_of_nil. }
  destruct Hfiles as [Hndf Hex].
  destruct (scan_files_real_ok assume_continuity master_backup older_backups files Hap 0
              {| fs := t_real;
                 trace := [] ++ [EvOpen [log_name now_real false]; EvWrite Header] |})
    as (b0 & s7 & Hscan); [done| | |].
  { intros f Hf. cbn [fs].
    rewrite (fs_create_lookup_ne _ _ _ _ master_backup f Hcr); [by apply Hex|].
    apply Hchild. left. }
  { intros f g Hf Hg st' Ha. cbn [fs] in Ha.
    rewrite (fs_create_attr_ne _ _ _ _ g f Hcr) in Ha by (apply Hchild; by right).
    rewrite forallb_forall in Hnodir. apply list_elem_of_In in Hf, Hg.
    specialize (Hnodir f Hf). rewrite forallb_forall in Hnodir. specialize (Hnodir g Hg).
    unfold attr_at in Ha. destruct (lookup_path (g :: f) (Dir st es)) as [c|]; [|done].
    simpl in Ha, Hnodir. injection Ha as Hd _. by rewrite Hd in Hnodir. }
  destruct (scan_files_sim assume_continuity master_backup older_backups files 0
              {| fs := t_real;
                 trace := [] ++ [EvOpen [log_name now_real false]; EvWrite Header] |}
              {| fs := t_dry;
                 trace := [] ++ [EvOpen [log_name now_dry true]; EvWrite Header] |}
              b0 s7)
    as (sd' & Hd & Hfs & (rows & Hrr & Hrd) & Hwf7); [done..| |exact Hscan|].
  { intros f g _ Hg. cbn [fs].
    rewrite (fs_create_attr_ne _ _ _ _ g f Hcr) by (by apply Hchild).
    by rewrite (fs_create_attr_ne _ _ _ _ g f Hcd) by (by apply Hchild). }
  rewrite Hscan, Hd. cbn [ret].
  destruct (delete_empty_folders_all_ok older_backups s7 Hwf7) as [s8 Hdel]. rewrite Hdel.
  pose proof (reclaim_all_no_rows _ _ _ _ Hdel) as Hq. cbn [fs] in Hfs.
  destruct (format_bytes b0) as [[amount label]|e]; cbn [fst snd record trace fs].
  - split_and!; [done| |right; by rewrite Hfs].
    by rewrite !log_rows_app, Hrd, Hq, Hrr.
  - split_and!; [done| |right; by rewrite Hfs]. by rewrite Hrd, Hq, Hrr.
Qed.

Lemma dry_run_fidelity_witness :
  (run true true evening photo_tree).1 = (run false true noon photo_tree).1
  ∧ log_rows (trace (run true true evening photo_tree).2)
    = log_rows (trace (run false true noon photo_tree).2)
  ∧ (fs (run true true evening photo_tree).2 = photo_tree
     ∨ fs_create (log_name evening true)
         {| st_size := 0; st_ctime := timestamp evening |} photo_tree
       = Ok (fs (run true true evening photo_tree).2))
  ∧ ∀ p, (EvUnlink p ∉ trace (run true true evening photo_tree).2)
         ∧ (EvRmdir p ∉ trace (run true true evening photo_tree).2).
Proof. apply (dry_run_fidelity true noon evening photo_tree); reflexivity. Defined.

(** The older generation next to the master: the second of the children
    in descending order of name. *)
Definition nearest_older (t : node) : option string :=
  head (tail (children_of (names (entries_of t)))).

(** A tree on which a second run finds what the first run left: the file
    of 1000 bytes is in the master and in the oldest generation, the
    generation between the two holds only a copy of the note. *)
Definition relay_tree : node :=
  folder [("2022", folder [("photo.jpg", file 1000 1)]);
          ("2023", folder [("note.txt", file 50 2)]);
          ("2024", folder [("note.txt", file 50 3); ("photo.jpg", file 1000 3)])].

(** C5, as the spec states it, fails under the continuity assumption, on a
    tree of regular files: the first real run frees the 50 bytes of the
    note, stops at the middle generation for the photo, and removes the
    middle generation as empty; the second real run on the result then
    finds the oldest generation next to the master, deletes the photo there
    and frees 1000 bytes. *)
Lemma idempotence_counterexample :
  wf_node relay_tree = true
  ∧ no_directory_copy relay_tree = true
  ∧ (run false true noon relay_tree).1 = Ok 50%Z
  ∧ nearest_older relay_tree = Some "2023"
  ∧ nearest_older (fs (run false true noon relay_tree).2) = Some "2022"
  ∧ (run false true evening (fs (run false true noon relay_tree).2)).1 = Ok 1000%Z
  ∧ log_rows (trace (run false true evening (fs (run false true noon relay_tree).2)).2)
    = [Row ["2022"; "photo.jpg"] ["2024"; "photo.jpg"] 1 3].
Proof. vm_compute. done. Qed.

(** ** Running twice *)

(** C5, amended (idempotence).  Take a well-formed tree, hence a working
    folder without links, in which no older backup holds a directory at the
    path of a candidate.  Let a real run on it return, and let a second real
    run with the same continuity setting start on the tree the first one
    left, at a moment whose log file can be created.  If the continuity
    assumption is off, or if the generation next to the master is still the
    one the first run had there, the second run returns a total of 0 bytes
    and writes no row.  What a second run does where an older backup has a
    directory in the place of a copy is left open: the first run can change
    the size of such a directory on disk, which the model does not
    follow. *)
Theorem idempotence assume_continuity now1 now2 t b1 s1 :
  wf_node t = true →
  no_directory_copy t = true →
  run false assume_continuity now1 t = (Ok b1, s1) →
  is_ok (fs_create (log_name now2 false)
           {| st_size := 0; st_ctime := timestamp now2 |} (fs s1)) = true →
  (assume_continuity = true →
   ∀ g, nearest_older (fs s1) = Some g → nearest_older t = Some g) →
  ∃ s2, run false assume_continuity now2 (fs s1) = (Ok 0%Z, s2)
        ∧ log_rows (trace s2) = [].
Proof.
  intros Hwf _ Hrun Hlog Hnear.
  unfold run in *. destruct t as [st|st es]; [done|].
  pose proof Hwf as (Hnd & _ & _)%wf_Dir.
  pose proof (confined_deduplicate false assume_continuity now1
                {| fs := Dir st es; trace := [] |}) as Hconf.
  rewrite Hrun in Hconf. cbn [snd fs entries_of] in Hconf.
  rewrite deduplicate_unfold in Hrun. cbn zeta in Hrun.
  destruct (forallb _ _) eqn:Hdirs; [|done].
  destruct (children_of (names es)) as [|master_backup older_backups] eqn:Hc; [done|].
  specialize (Hconf _ _ eq_refl) as [Hmaster _].
  pose proof (children_of_apart _ _ _ Hnd Hc) as Hap.
  specialize (Hmaster Hap). cbn [fs] in Hmaster.
  destruct (fs_create (log_name now1 false) _ _) as [t1|e] eqn:Hcr; [|done].
  destruct (scan_files false _ _ _ _ _ _) as [[b0|e] s7] eqn:Hscan; [|done].
  destruct (delete_empty_folders_all older_backups s7) as [[[]|e] s8] eqn:Hdel; [|done].
  destruct (format_bytes b0) as [[amount label]|e] eqn:Hfmt; [|done].
  injection Hrun as <- <-. cbn [record fs] in *.
  assert (Hwf1 : wf_node t1 = true).
  { eapply wf_fs_create; [exact Hwf|apply log_name_nonempty|exact Hcr]. }
  pose proof (scan_files_post assume_continuity master_backup older_backups _ 0
                {| fs := t1;
                   trace := [] ++ [EvOpen [log_name now1 false]; EvWrite Header] |}
                b0 s7 Hwf1 Hap Hscan) as Hpost.
  cbn [fs] in Hpost.
  assert (Hsh7 : shrinking
            {| fs := t1; trace := [] ++ [EvOpen [log_name now1 false]; EvWrite Header] |}
            s7).
  { eapply keeps_run; [|exact Hscan]. apply shrinking_scan_files. }
  destruct (Hsh7 Hwf1) as [Hwf7 Hs7]. cbn [fs] in Hs7.
  assert (Hsh8 : shrinking s7 s8).
  { eapply keeps_run; [|exact Hdel]. apply shrinking_delete_empty_folders_all. }
  destruct (Hsh8 Hwf7) as [Hwf8 Hs8].
  destruct (fs_create_names _ _ _ _ _ Hcr) as (es1 & -> & Hn1).
  destruct (shrinks_root st es1 (fs s8)) as (es8 & He8 & Hn8); [by etrans|].
  rewrite He8 in Hlog, Hnear, Hmaster, Hwf8, Hs8, Hn8 |- *.
  pose proof Hwf8 as (Hnd8 & _ & _)%wf_Dir.
  assert (Hkeep : ∀ n q, n ∈ master_backup :: older_backups → n ∈ names es8 →
            attr_at (n :: q) (Dir st es1) = attr_at (n :: q) (Dir st es)).
  { intros n q Hn _. eapply fs_create_attr_ne; [exact Hcr|].
    eapply child_not_log. by rewrite Hc. }
  assert (Hsub : ∀ n, n ∈ children_of (names es8) → n ∈ children_of (names es)).
  { intros n [Hn Hsuf]%children_of_elem. apply children_of_elem. split; [|done].
    destruct (Hn8 n Hn) as [Hn1' _]. destruct (Hn1 n Hn1') as [?| ->]; [done|].
    by rewrite log_name_suffix in Hsuf. }
  assert (Hm2 : master_backup ∈ children_of (names es8)).
  { apply children_of_elem. split; [|apply Hap].
    assert (Hm : master_backup ∈ names es).
    { apply (children_of_elem (names es)). rewrite Hc. left. }
    apply assoc_is_Some in Hm as [x Hx]. apply assoc_is_Some.
    specialize (Hmaster []). simpl in Hmaster. rewrite Hx in Hmaster.
    destruct (assoc master_backup es8); [eauto|done]. }
  destruct (children_of_head (names es) (names es8) master_backup older_backups)
    as (older2 & Hc2 & Ho2); [done..|].
  rewrite Hc in Hsub.
  rewrite deduplicate_unfold. cbn zeta. rewrite Hc2, (Hmaster []).
  replace (forallb _ (master_backup :: older2)) with true; cycle 1.
  { symmetry. apply forallb_forall. intros c Hin%list_elem_of_In.
    assert (Hc1 : c ∈ master_backup :: older_backups) by (apply Hsub; by rewrite Hc2).
    assert (Hc8 : c ∈ names es8).
    { apply (children_of_elem (names es8)). by rewrite Hc2. }
    rewrite forallb_forall in Hdirs. specialize (Hdirs c). rewrite <- list_elem_of_In in Hdirs.
    specialize (Hdirs Hc1). destruct (Hn8 c Hc8) as [_ Ha].
    rewrite (Hkeep c [] Hc1 Hc8) in Ha. unfold attr_at in Ha.
    destruct (lookup_path [c] (Dir st es)) as [x|]; [|done].
    destruct (lookup_path [c] (Dir st es8)) as [y|]; [|done].
    simpl in *. congruence. }
  destruct (fs_create (log_name now2 false) _ (Dir st es8)) as [t2|e] eqn:Hcr2; [|done].
  assert (Hwf2 : wf_node t2 = true).
  { eapply wf_fs_create; [exact Hwf8|apply log_name_nonempty|exact Hcr2]. }
  destruct (scan_files_no_duplicate false assume_continuity master_backup older2
              (from_option glob_all [] (lookup_path [master_backup] (Dir st es))) 0
              {| fs := t2;
                 trace := [] ++ [EvOpen [log_name now2 false]; EvWrite Header] |})
    as (evs & Hscan2 & Hevs).
  { intros f Hf. destruct (Hpost f Hf) as (cf & Hcf & Hmis). exists cf. cbn [fs]. split.
    - rewrite (fs_create_lookup_ne _ _ _ _ master_backup f Hcr2), Hmaster, <- Hcf.
      + symmetry. eapply fs_create_lookup_ne; [exact Hcr|].
        eapply child_not_log. rewrite Hc. left.
      + eapply child_not_log. rewrite Hc. left.
    - intros g Hg.
      assert (Hg2 : g ∈ older2).
      { destruct assume_continuity; [|done]. simpl in Hg.
        destruct older2; [by apply elem_of_nil in Hg|].
        apply list_elem_of_singleton in Hg as ->. left. }
      assert (Hg1 : g ∈ surely_scanned assume_continuity older_backups).
      { destruct assume_continuity; [|by apply Ho2]. simpl in Hg.
        destruct older2 as [|g2 rest]; [by apply elem_of_nil in Hg|].
        apply list_elem_of_singleton in Hg as ->.
        specialize (Hnear eq_refl g2). unfold nearest_older in Hnear.
        cbn [entries_of] in Hnear. rewrite Hc, Hc2 in Hnear. simpl in Hnear.
        specialize (Hnear eq_refl). destruct older_backups; [done|].
        injection Hnear as ->. simpl. left. }
      assert (Hgc : g ∈ master_backup :: older_backups) by (right; by apply Ho2).
      eapply mismatch_attr.
      { eapply fs_create_attr_ne; [exact Hcr2|]. eapply child_not_log. by rewrite Hc. }
      eapply mismatch_shrinks; [exact Hs8|]. by apply Hmis. }
  rewrite Hscan2. cbn beta iota.
  destruct (delete_empty_folders_all_ok older2
              (record {| fs := t2;
                         trace := [] ++ [EvOpen [log_name now2 false]; EvWrite Header] |}
                 evs) Hwf2) as [s8' Hdel2].
  rewrite Hdel2. cbn beta iota. rewrite format_bytes_zero.
  eexists. split; [reflexivity|]. cbn [record trace].
  rewrite log_rows_app, (reclaim_all_no_rows _ _ _ _ Hdel2). cbn [record trace].
  by rewrite !log_rows_app, (log_rows_quiet _ Hevs).
Qed.

Lemma idempotence_witness :
  ∃ s2, run false true evening (fs (run false true noon photo_tree).2) = (Ok 0%Z, s2)
        ∧ log_rows (trace s2) = [].
Proof.
  apply (idempotence true noon evening photo_tree 1000 (run false true noon photo_tree).2);
    [reflexivity..|].
  intros _ g. vm_compute. done.
Defined.

(** * Further properties of the program *)

(** ** Runs that stop before anything is written *)

Lemma children_of_nil l :
  (∀ n, n ∈ l → endswith n log_suffix = true) → children_of l = [].
Proof.
  intros H. destruct (children_of l) as [|c cs] eqn:Hc; [done|].
  assert (Hin : c ∈ children_of l) by (rewrite Hc; left).
  apply children_of_elem in Hin as [Hin Hs]. by rewrite (H _ Hin) in Hs.
Qed.

(** A folder left with run logs only, as after an earlier run. *)
Definition logs_only_tree : node :=
  folder [("deduplication-2024-05-01T08:00:00.log.csv", file 52 1);
          ("deduplication-2024-05-01T08:00:00-dry.log.csv", file 52 1)].

(** X1.  A working folder that holds no backup at all, being empty or holding
    only files named like run logs, makes [children[0]] raise [IndexError]:
    no log is opened, nothing is printed and the tree is as it was. *)
Theorem no_generation_raises dry_run assume_continuity now st es :
  (∀ n, n ∈ names es → endswith n log_suffix = true) →
  run dry_run assume_continuity now (Dir st es)
  = (Raise IndexError, {| fs := Dir st es; trace := [] |}).
Proof.
  intros H. unfold run. rewrite deduplicate_unfold. cbn zeta.
  by rewrite (children_of_nil _ H).
Qed.

Lemma no_generation_raises_witness :
  run false true noon logs_only_tree
  = (Raise IndexError, {| fs := logs_only_tree; trace := [] |}).
Proof.
  apply (no_generation_raises false true noon).
  intros n Hn. simpl in Hn.
  repeat (apply elem_of_cons in Hn as [->|Hn]; [by vm_compute|]).
  by apply elem_of_nil in Hn.
Defined.

(** X2.  When the working folder holds a directory with the very name of the log
    file of the run, [open] raises [IsADirectoryError]: the directory passes
    the check on the children, since names ending in [.log.csv] are left
    out of it, and the run ends before anything is read below the backups,
    written or removed. *)
Theorem log_name_taken dry_run assume_continuity now st es std esd :
  children_of (names es) ≠ [] →
  (∀ c, c ∈ children_of (names es) → from_option is_dir false (assoc c es) = true) →
  assoc (log_name now dry_run) es = Some (Dir std esd) →
  run dry_run assume_continuity now (Dir st es)
  = (Raise IsADirectoryError, {| fs := Dir st es; trace := [] |}).
Proof.
  intros Hne Hdirs Hlog. unfold run. rewrite deduplicate_unfold. cbn zeta.
  replace (forallb _ _) with true; cycle 1.
  { symmetry. apply forallb_forall. intros c Hc%list_elem_of_In.
    specialize (Hdirs c Hc). simpl. by destruct (assoc c es). }
  destruct (children_of (names es)) as [|master_backup older_backups]; [done|].
  simpl. by rewrite Hlog.
Qed.

Lemma log_name_taken_witness :
  run false true noon squatted_tree
  = (Raise IsADirectoryError, {| fs := squatted_tree; trace := [] |}).
Proof.
  apply (log_name_taken false true noon _ _ {| st_size := 4096; st_ctime := 0 |} []).
  - by vm_compute.
  - intros c Hc.
    assert (Hc' : c ∈ ["2024"; "2023"]) by (revert Hc; by vm_compute).
    repeat (apply elem_of_cons in Hc' as [->|Hc']; [by vm_compute|]).
    by apply elem_of_nil in Hc'.
  - by vm_compute.
Defined.

(** ** A single backup *)

Lemma scan_files_alone dry_run assume_continuity master_backup files :
  ∀ b s, (∀ f, f ∈ files → is_Some (lookup_path (master_backup :: f) (fs s))) →
    scan_files dry_run assume_continuity master_backup [] files b s
    = (Ok b, record s ((λ f, EvStat (master_backup :: f)) <$> files)).
Proof.
  induction files as [|f files IH]; intros b s Hall.
  { unfold record. simpl. rewrite app_nil_r. by destruct s. }
  destruct (Hall f) as [c Hc]; [left|].
  cbn [scan_files]. unfold scan_file.
  erewrite bind_ok; cycle 1.
  { erewrite bind_ok; [reflexivity|]. unfold path_stat. by rewrite Hc. }
  rewrite IH.
  - unfold record. simpl. by rewrite <- (assoc_L (++)).
  - intros f' Hf'. apply Hall. by right.
Qed.

(** A working folder with one backup and an old run log. *)
Definition lone_tree : node :=
  folder [("2024", folder [("docs", folder [("cv.PDF", file 310 2)]);
                           ("photo.jpg", file 1000 3)]);
          ("deduplication-2024-05-01T08:00:00.log.csv", file 52 1)].

(** X3.  With a single backup in the working folder there is nothing to compare
    the master with: any run, dry or real, creates its log, writes the
    header, stats each candidate of the master once, prints a total of
    0 bytes and returns; the tree is the one it found plus the log. *)
Theorem single_generation dry_run assume_continuity now st es master_backup stm esm t1 :
  wf_node (Dir st es) = true →
  children_of (names es) = [master_backup] →
  assoc master_backup es = Some (Dir stm esm) →
  fs_create (log_name now dry_run) {| st_size := 0; st_ctime := timestamp now |} (Dir st es)
  = Ok t1 →
  run dry_run assume_continuity now (Dir st es)
  = (Ok 0%Z,
     {| fs := t1;
        trace := [EvOpen [log_name now dry_run]; EvWrite Header]
                 ++ ((λ f, EvStat (master_backup :: f)) <$> glob_all (Dir stm esm))
                 ++ [EvPrint (Freed 0 "bytes")] |}).
Proof.
  intros Hwf Hc Hm Hcr. unfold run. rewrite deduplicate_unfold. cbn zeta.
  rewrite Hc, Hcr. cbn [forallb lookup_path]. rewrite Hm. cbn [from_option is_dir andb].
  rewrite scan_files_alone; cycle 1.
  { intros f Hf. cbn [fs].
    rewrite (fs_create_lookup_ne _ _ _ _ master_backup f Hcr); cycle 1.
    { apply (child_not_log (names es)). rewrite Hc. left. }
    cbn [lookup_path]. rewrite Hm. apply glob_all_lookup; [|done].
    by eapply wf_assoc. }
  destruct dry_run; cbn [delete_empty_folders_all ret]; rewrite format_bytes_zero;
    unfold record; cbn [fs trace]; by rewrite <- !(assoc_L (++)).
Qed.

Lemma single_generation_witness :
  ∃ t1,
    fs_create (log_name noon false) {| st_size := 0; st_ctime := timestamp noon |} lone_tree
    = Ok t1
    ∧ run false true noon lone_tree
      = (Ok 0%Z,
         {| fs := t1;
            trace := [EvOpen [log_name noon false]; EvWrite Header]
                     ++ [EvStat ["2024"; "photo.jpg"]; EvStat ["2024"; "docs"; "cv.PDF"]]
                     ++ [EvPrint (Freed 0 "bytes")] |}).
Proof.
  eexists. split; [reflexivity|].
  apply (single_generation false true noon _ _ "2024" {| st_size := 4096; st_ctime := 0 |}
           [("docs", folder [("cv.PDF", file 310 2)]); ("photo.jpg", file 1000 3)]);
    reflexivity.
Defined.

(** ** Totals beyond the last label *)

(** X4.  A total above 1024^5 bytes needs a fifth division, and [power_labels]
    has no entry for 5: [format_bytes] raises [KeyError] instead of
    returning a text.  The totals are taken up to 2^53 bytes, the range in
    which the float divisions of the program are the exact ones. *)
Theorem format_bytes_overflow (total : Z) :
  (1024 ^ 5 < total ≤ 2 ^ 53)%Z → format_bytes total = Raise KeyError.
Proof.
  intros [Hbig _]. unfold format_bytes.
  destruct (format_loop_spec (inject_Z total) 0) as (_ & Hv & Hle & _).
  destruct (format_loop (inject_Z total) 0) as [amount n]. simpl in *.
  rewrite Nat.sub_0_r in *.
  assert (Hsmall : ∀ k, (k ≤ 4)%nat → (power * pow1024 k <= inject_Z (1024 ^ 5))%Q).
  { intros k Hk. do 5 (destruct k as [|k]; [by vm_compute|]). lia. }
  destruct (decide (n ≤ 4)%nat) as [Hn|Hn].
  - exfalso. apply (Z.lt_irrefl total). eapply Z.le_lt_trans; [|exact Hbig].
    rewrite Zle_Qle, <- Hv. eapply Qle_trans; [|apply (Hsmall n Hn)].
    apply Qmult_le_compat_r; [done|]. apply Qlt_le_weak, pow1024_pos.
  - do 5 (destruct n as [|n]; [lia|]). done.
Qed.

Lemma format_bytes_overflow_witness : format_bytes (1024 ^ 5 + 1) = Raise KeyError.
Proof. apply (format_bytes_overflow (1024 ^ 5 + 1)). lia. Defined.

(** ** What a completed real run leaves *)

(** X5.  Take a well-formed tree, hence a working folder without links, in
    which no older backup holds a directory at the path of a candidate.
    After a real run that returned, no candidate of the master has a copy
    of its size left where the scan was sure to look: in any older backup
    when [assume_continuity] is off, in the nearest older backup when it is
    on.  The candidate itself is still in the master.  (Directories in the
    place of a copy are excluded because the removals of the run can change
    their size on disk.) *)
Theorem no_duplicate_left assume_continuity now t master_backup older_backups m b s :
  wf_node t = true →
  no_directory_copy t = true →
  children_of (names (entries_of t)) = master_backup :: older_backups →
  lookup_path [master_backup] t = Some m →
  run false assume_continuity now t = (Ok b, s) →
  Forall (λ f,
    ∃ cf, lookup_path (master_backup :: f) t = Some cf
          ∧ lookup_path (master_backup :: f) (fs s) = Some cf
          ∧ ∀ g, g ∈ surely_scanned assume_continuity older_backups →
                 mismatch (stat_of cf) (g :: f) (fs s))
    (glob_all m).
Proof.
  intros Hwf _ Hc Hm Hrun. apply Forall_forall.
  unfold run in *. destruct t as [st|st es]; [done|].
  pose proof Hwf as (Hnd & _ & _)%wf_Dir. cbn [entries_of] in Hc.
  pose proof (confined_deduplicate false assume_continuity now
                {| fs := Dir st es; trace := [] |} master_backup older_backups Hc) as Hconf.
  rewrite Hrun in Hconf. destruct Hconf as [Hmaster _].
  pose proof (children_of_apart _ _ _ Hnd Hc) as Hap.
  specialize (Hmaster Hap). cbn [fs snd] in Hmaster.
  rewrite deduplicate_unfold in Hrun. cbn zeta in Hrun. rewrite Hc, Hm in Hrun.
  destruct (forallb _ _); [|done].
  destruct (fs_create (log_name now false) _ _) as [t1|e] eqn:Hcr; [|done].
  destruct (scan_files false _ _ _ _ _ _) as [[b0|e] s7] eqn:Hscan; [|done].
  destruct (delete_empty_folders_all older_backups s7) as [[[]|e] s8] eqn:Hdel; [|done].
  destruct (format_bytes b0) as [[amount label]|e]; [|done].
  injection Hrun as <- <-. cbn [record fs] in *.
  assert (Hwf1 : wf_node t1 = true).
  { eapply wf_fs_create; [exact Hwf|apply log_name_nonempty|exact Hcr]. }
  pose proof (scan_files_post assume_continuity master_backup older_backups _ 0
                {| fs := t1;
                   trace := [] ++ [EvOpen [log_name now false]; EvWrite Header] |}
                b0 s7 Hwf1 Hap Hscan) as Hpost.
  cbn [fs from_option] in Hpost.
  assert (Hsh7 : shrinking
            {| fs := t1; trace := [] ++ [EvOpen [log_name now false]; EvWrite Header] |}
            s7).
  { eapply keeps_run; [|exact Hscan]. apply shrinking_scan_files. }
  destruct (Hsh7 Hwf1) as [Hwf7 _].
  assert (Hsh8 : shrinking s7 s8).
  { eapply keeps_run; [|exact Hdel]. apply shrinking_delete_empty_folders_all. }
  destruct (Hsh8 Hwf7) as [_ Hs8].
  intros f Hf. destruct (Hpost f Hf) as (cf & Hcf & Hmis).
  assert (Hcf' : lookup_path (master_backup :: f) (Dir st es) = Some cf).
  { rewrite <- Hcf. symmetry. eapply fs_create_lookup_ne; [exact Hcr|].
    apply (child_not_log (names es)). rewrite Hc. left. }
  exists cf. split_and!; [done|by rewrite Hmaster|].
  intros g Hg. eapply mismatch_shrinks; [exact Hs8|]. by apply Hmis.
Qed.

Lemma no_duplicate_left_witness :
  Forall (λ f,
    ∃ cf, lookup_path ("2024" :: f) relay_tree = Some cf
          ∧ lookup_path ("2024" :: f) (fs (run false false noon relay_tree).2) = Some cf
          ∧ ∀ g, g ∈ surely_scanned false ["2023"; "2022"] →
                 mismatch (stat_of cf) (g :: f) (fs (run false false noon relay_tree).2))
    (glob_all (folder [("note.txt", file 50 3); ("photo.jpg", file 1000 3)])).
Proof.
  apply (no_duplicate_left false noon relay_tree "2024" ["2023"; "2022"] _ 1050%Z);
    reflexivity.
Defined.

(** ** The ledger of a scan *)

(** One match of the scan: the candidate, the older backup in which a copy
    was found, and the stats read from the copy and from the master's
    file. *)
Record hit := { hit_file : path; hit_backup : string; hit_alt : stats; hit_master : stats }.

Definition hit_path (h : hit) : path := hit_backup h :: hit_file h.

(** The row the scan writes for a match. *)
Definition row_of (master_backup : string) (h : hit) : line :=
  Row (hit_path h) (master_backup :: hit_file h)
    (st_ctime (hit_alt h)) (st_ctime (hit_master h)).

Definition hit_sizes (hs : list hit) : Z :=
  foldr (λ h acc, (st_size (hit_alt h) + acc)%Z) 0%Z hs.

Lemma hit_sizes_app hs1 hs2 : hit_sizes (hs1 ++ hs2) = (hit_sizes hs1 + hit_sizes hs2)%Z.
Proof. induction hs1 as [|h hs1 IH]; simpl; [done|]. rewrite IH. lia. Qed.

Lemma unlinked_app tr1 tr2 : unlinked (tr1 ++ tr2) = unlinked tr1 ++ unlinked tr2.
Proof.
  induction tr1 as [|e tr1 IH]; [done|]. simpl. destruct e; simpl; by rewrite ?IH.
Qed.

(** [hs] accounts for what a computation started in [s] with total [b] has
    done when it ends as [r]: the tree only lost nodes, the rows added to
    the log are those of [hs], every copy in [hs] was there in [s] with the
    stats noted, and if the computation returned, its total grew by the
    sizes of the copies and, in a real run, the copies are what it
    unlinked. *)
Definition ledger_of (dry_run : bool) (master_backup : string) (s : state) (b : Z)
    (r : result Z * state) (hs : list hit) : Prop :=
  wf_node (fs r.2) = true
  ∧ shrinks (fs s) (fs r.2)
  ∧ log_rows (trace r.2) = log_rows (trace s) ++ (row_of master_backup <$> hs)
  ∧ Forall (λ h, ∃ k, attr_at (hit_path h) (fs s) = Some (k, hit_alt h)) hs
  ∧ ∀ b', r.1 = Ok b' →
      b' = (b + hit_sizes hs)%Z
      ∧ unlinked (trace r.2)
        = unlinked (trace s) ++ (if dry_run then [] else hit_path <$> hs).

Lemma attr_at_shrinks q t t' x : shrinks t t' → attr_at q t' = Some x → attr_at q t = Some x.
Proof. intros Hs Ha. destruct (Hs q) as [Hn|He]; congruence. Qed.

Lemma ledger_trans dry_run master_backup s b b1 s1 r hs1 hs2 :
  ledger_of dry_run master_backup s b (Ok b1, s1) hs1 →
  ledger_of dry_run master_backup s1 b1 r hs2 →
  ledger_of dry_run master_backup s b r (hs1 ++ hs2).
Proof.
  intros (_ & S1 & R1 & F1 & V1) (W2 & S2 & R2 & F2 & V2). simpl in *.
  destruct (V1 b1 eq_refl) as [-> U1].
  split_and!; [done|by etrans| | |].
  - by rewrite R2, R1, fmap_app, (assoc_L (++)).
  - apply Forall_app. split; [done|].
    eapply Forall_impl; [exact F2|]. intros h [k Hk]. exists k.
    by eapply attr_at_shrinks.
  - intros b' Hb'. destruct (V2 b' Hb') as [-> U2]. split.
    + rewrite hit_sizes_app. lia.
    + rewrite U2, U1. destruct dry_run; [by rewrite !app_nil_r|].
      by rewrite fmap_app, (assoc_L (++)).
Qed.

Lemma ledger_quiet dry_run master_backup s b evs :
  wf_node (fs s) = true → log_rows evs = [] → unlinked evs = [] →
  ledger_of dry_run master_backup s b (Ok b, record s evs) [].
Proof.
  intros Hwf Hr Hu. unfold record. split_and!; simpl; [done|reflexivity| |constructor|].
  - by rewrite log_rows_app, Hr.
  - intros b' [= <-]. split; [lia|]. rewrite unlinked_app, Hu. by destruct dry_run.
Qed.

Lemma ledger_stop dry_run master_backup s b e :
  wf_node (fs s) = true → ledger_of dry_run master_backup s b (Raise e, s) [].
Proof.
  intros Hwf. split_and!; simpl; [done|reflexivity|by rewrite app_nil_r|constructor|done].
Qed.

Lemma ledger_done dry_run master_backup s b :
  wf_node (fs s) = true → ledger_of dry_run master_backup s b (Ok b, s) [].
Proof.
  intros Hwf. split_and!; simpl; [done|reflexivity|by rewrite app_nil_r|constructor|].
  intros b' [= <-]. split; [lia|]. destruct dry_run; by rewrite app_nil_r.
Qed.

Lemma scan_ledger dry_run assume_continuity master_backup file master_stats backups :
  ∀ b s, wf_node (fs s) = true →
    ∃ hs,
      ledger_of dry_run master_backup s b
        (scan dry_run assume_continuity file (master_backup :: file) master_stats backups b s)
        hs
      ∧ sublist (hit_backup <$> hs) backups
      ∧ Forall (λ h, hit_file h = file ∧ hit_master h = master_stats
                     ∧ st_size (hit_alt h) = st_size master_stats) hs.
Proof.
  induction backups as [|g rest IH]; intros b s Hwf.
  { exists []. split_and!; [by apply ledger_done|constructor|constructor]. }
  assert (Hnext : ∀ b1 s1 pre,
    ledger_of dry_run master_backup s b (Ok b1, s1) pre →
    sublist (hit_backup <$> pre) [g] →
    Forall (λ h, hit_file h = file ∧ hit_master h = master_stats
                 ∧ st_size (hit_alt h) = st_size master_stats) pre →
    ∃ hs,
      ledger_of dry_run master_backup s b
        (scan dry_run assume_continuity file (master_backup :: file) master_stats rest b1 s1)
        hs
      ∧ sublist (hit_backup <$> hs) (g :: rest)
      ∧ Forall (λ h, hit_file h = file ∧ hit_master h = master_stats
                     ∧ st_size (hit_alt h) = st_size master_stats) hs).
  { intros b1 s1 pre L Hsub Hst.
    destruct (IH b1 s1) as (hs & L2 & Hsub2 & Hst2); [apply L|].
    exists (pre ++ hs). split_and!; [by eapply ledger_trans| |by apply Forall_app].
    rewrite fmap_app. by apply (sublist_app _ [g] _ rest). }
  assert (Hskip : ∀ evs, log_rows evs = [] → unlinked evs = [] →
    ∃ hs,
      ledger_of dry_run master_backup s b
        (if assume_continuity then (Ok b, record s evs)
         else scan dry_run assume_continuity file (master_backup :: file) master_stats
                rest b (record s evs))
        hs
      ∧ sublist (hit_backup <$> hs) (g :: rest)
      ∧ Forall (λ h, hit_file h = file ∧ hit_master h = master_stats
                     ∧ st_size (hit_alt h) = st_size master_stats) hs).
  { intros evs Hr Hu. destruct assume_continuity.
    - exists []. split_and!; [by apply ledger_quiet|apply sublist_nil_l|constructor].
    - apply (Hnext b (record s evs) []);
        [by apply ledger_quiet|apply sublist_nil_l|constructor]. }
  destruct (lookup_path (g :: file) (fs s)) as [alt|] eqn:Hl; cycle 1.
  { rewrite (scan_absent _ _ _ _ _ _ _ _ _ Hl). by apply Hskip. }
  destruct (decide (st_size (stat_of alt) = st_size master_stats)) as [He|Hne]; cycle 1.
  { rewrite (scan_mismatch _ _ _ _ _ _ _ _ _ _ Hl Hne). by apply Hskip. }
  rewrite (scan_match _ _ _ _ _ _ _ _ _ _ Hl He). unfold bind.
  set (h := {| hit_file := file; hit_backup := g; hit_alt := stat_of alt;
               hit_master := master_stats |}).
  assert (Hseen : Forall (λ h, ∃ k, attr_at (hit_path h) (fs s) = Some (k, hit_alt h)) [h]).
  { constructor; [|constructor]. exists (is_dir alt). unfold attr_at. simpl.
    change (g :: file) with (hit_path h) in Hl. unfold hit_path in Hl. simpl in Hl.
    by rewrite Hl. }
  assert (Hst : Forall (λ h, hit_file h = file ∧ hit_master h = master_stats
                             ∧ st_size (hit_alt h) = st_size master_stats) [h]).
  { by constructor. }
  destruct dry_run.
  - rewrite delete_dry, record_record. apply (Hnext _ _ [h]); [|done|done].
    unfold record. split_and!; simpl; [done|reflexivity| |done|].
    + by rewrite log_rows_app.
    + intros b' [= <-]. split; [lia|]. by rewrite unlinked_app.
  - rewrite delete_real. cbn [fs record trace].
    destruct (fs_unlink (g :: file) (fs s)) as [t'|e] eqn:Hu.
    + destruct (fs_unlink_attr _ _ _ Hwf Hu) as [Hwf' _].
      apply (Hnext _ _ [h]); [|done|done].
      split_and!; simpl; [done|by eapply apply_at_leaf_shrinks, Hu; [apply unlink_removes_leaf|]
                         | |done|].
      * by rewrite <- !(assoc_L (++)), log_rows_app.
      * intros b' [= <-]. split; [lia|]. by rewrite <- !(assoc_L (++)), unlinked_app.
    + exists [h]. split_and!; [|apply sublist_skip, sublist_nil_l|done].
      unfold record. split_and!; simpl; [done|reflexivity| |done|done].
      by rewrite <- !(assoc_L (++)), log_rows_app.
Qed.

(** The pairs of candidate and older backup in the order in which the two
    loops of [deduplicate] come to them. *)
Definition scan_order (files : list path) (older_backups : list string)
    : list (path * string) :=
  files ≫= λ f, (λ g, (f, g)) <$> older_backups.

Definition hit_key (h : hit) : path * string := (hit_file h, hit_backup h).

Lemma hit_keys_of_file f hs older_backups :
  Forall (λ h, hit_file h = f) hs →
  sublist (hit_backup <$> hs) older_backups →
  sublist (hit_key <$> hs) ((λ g, (f, g)) <$> older_backups).
Proof.
  intros Hf Hsub.
  replace (hit_key <$> hs) with ((λ g, (f, g)) <$> (hit_backup <$> hs)).
  { by apply fmap_sublist. }
  rewrite <- list_fmap_compose. apply Forall_fmap_ext_1.
  eapply Forall_impl; [exact Hf|]. intros h <-. done.
Qed.

Lemma scan_files_ledger dry_run assume_continuity master_backup older_backups files :
  ∀ b s, wf_node (fs s) = true →
    ∃ hs,
      ledger_of dry_run master_backup s b
        (scan_files dry_run assume_continuity master_backup older_backups files b s) hs
      ∧ sublist (hit_key <$> hs) (scan_order files older_backups)
      ∧ Forall (λ h, st_size (hit_alt h) = st_size (hit_master h)
                     ∧ ∃ k, attr_at (master_backup :: hit_file h) (fs s)
                            = Some (k, hit_master h)) hs.
Proof.
  induction files as [|f files IH]; intros b s Hwf.
  { exists []. split_and!; [by apply ledger_done|constructor|constructor]. }
  destruct (lookup_path (master_backup :: f) (fs s)) as [cm|] eqn:Hl; cycle 1.
  { rewrite (scan_files_missing _ _ _ _ _ _ _ _ Hl).
    exists []. split_and!; [by apply ledger_stop|apply sublist_nil_l|constructor]. }
  rewrite (scan_files_cons _ _ _ _ _ _ _ _ _ Hl).
  destruct (scan_ledger dry_run assume_continuity master_backup f (stat_of cm) older_backups
              b (record s [EvStat (master_backup :: f)]) Hwf) as (hs1 & L1 & Hsub1 & Hst1).
  assert (Hkeys1 : sublist (hit_key <$> hs1) ((λ g, (f, g)) <$> older_backups)).
  { apply hit_keys_of_file; [|done]. eapply Forall_impl; [exact Hst1|]. by intros h (? & _). }
  assert (Hm1 : Forall (λ h, st_size (hit_alt h) = st_size (hit_master h)
                             ∧ ∃ k, attr_at (master_backup :: hit_file h) (fs s)
                                    = Some (k, hit_master h)) hs1).
  { eapply Forall_impl; [exact Hst1|]. intros h (-> & -> & ->). split; [done|].
    exists (is_dir cm). unfold attr_at. by rewrite Hl. }
  assert (L0 : ledger_of dry_run master_backup s b
                 (Ok b, record s [EvStat (master_backup :: f)]) []).
  { by apply ledger_quiet. }
  destruct (scan _ _ _ _ _ _ _ _) as [[b1|e] s1] eqn:Hscan.
  - pose proof (ledger_trans _ _ _ _ _ _ _ _ _ L0 L1) as L01. simpl in L01.
    destruct (IH b1 s1) as (hs2 & L2 & Hsub2 & Hm2); [apply L1|].
    exists (hs1 ++ hs2). split_and!.
    + by eapply ledger_trans.
    + rewrite fmap_app. unfold scan_order. cbn [mbind list_bind]. by apply sublist_app.
    + apply Forall_app. split; [done|].
      eapply Forall_impl; [exact Hm2|]. intros h [? [k Hk]]. split; [done|]. exists k.
      eapply attr_at_shrinks; [|exact Hk]. apply L01.
  - exists hs1. split_and!; [|by apply sublist_inserts_r|done].
    apply (ledger_trans _ _ _ _ _ _ _ _ _ L0 L1).
Qed.

Lemma elem_of_scan_order f g files older_backups :
  (f, g) ∈ scan_order files older_backups ↔ f ∈ files ∧ g ∈ older_backups.
Proof.
  unfold scan_order. rewrite list_elem_of_bind. split.
  - intros (f' & (g' & [= -> ->] & Hg)%list_elem_of_fmap & Hf). done.
  - intros [Hf Hg]. exists f. split; [|done]. apply list_elem_of_fmap. by exists g.
Qed.

Lemma reclaim_all_quiet older_backups s r s' :
  delete_empty_folders_all older_backups s = (r, s') →
  log_rows (trace s') = log_rows (trace s) ∧ unlinked (trace s') = unlinked (trace s).
Proof.
  intros H.
  assert (E : emits (λ e, log_rows [e] = [] ∧ unlinked [e] = []) s s').
  { eapply keeps_run; [|exact H]. by apply emits_delete_empty_folders_all. }
  destruct E as (tr & -> & F). rewrite log_rows_app, unlinked_app.
  assert (log_rows tr = [] ∧ unlinked tr = []) as [-> ->]; [|by rewrite !app_nil_r].
  induction F as [|e tr [He1 He2] _ [IH1 IH2]]; [done|].
  change (e :: tr) with ([e] ++ tr). by rewrite log_rows_app, unlinked_app, He1, He2, IH1, IH2.
Qed.

(** The ledger of a whole run, returning or raising: its rows are those of
    the matches, which come in scan order; every match is between files
    that were in the tree the run started from, with the stats noted and
    equal sizes; a run that returns hands back the sum of the sizes and, if
    real, has unlinked the copies and nothing else. *)
Lemma run_ledger dry_run assume_continuity now t master_backup older_backups m :
  wf_node t = true →
  children_of (names (entries_of t)) = master_backup :: older_backups →
  lookup_path [master_backup] t = Some m →
  ∃ hs,
    log_rows (trace (run dry_run assume_continuity now t).2) = row_of master_backup <$> hs
    ∧ sublist (hit_key <$> hs) (scan_order (glob_all m) older_backups)
    ∧ Forall (λ h, st_size (hit_alt h) = st_size (hit_master h)
                   ∧ (∃ k, attr_at (hit_path h) t = Some (k, hit_alt h))
                   ∧ (∃ k, attr_at (master_backup :: hit_file h) t
                           = Some (k, hit_master h))) hs
    ∧ ∀ b, (run dry_run assume_continuity now t).1 = Ok b →
        b = hit_sizes hs
        ∧ unlinked (trace (run dry_run assume_continuity now t).2)
          = if dry_run then [] else hit_path <$> hs.
Proof.
  intros Hwf Hc Hm. unfold run. destruct t as [st|st es]; [done|].
  cbn [entries_of] in Hc. rewrite deduplicate_unfold. cbn zeta. rewrite Hc, Hm.
  cbn [from_option].
  assert (Hnone : ∀ e s0, trace s0 = [] →
    ∃ hs, log_rows (trace (Raise (A := Z) e, s0).2) = row_of master_backup <$> hs
      ∧ sublist (hit_key <$> hs) (scan_order (glob_all m) older_backups)
      ∧ Forall (λ h, st_size (hit_alt h) = st_size (hit_master h)
                     ∧ (∃ k, attr_at (hit_path h) (Dir st es) = Some (k, hit_alt h))
                     ∧ (∃ k, attr_at (master_backup :: hit_file h) (Dir st es)
                             = Some (k, hit_master h))) hs
      ∧ ∀ b, (Raise (A := Z) e, s0).1 = Ok b →
          b = hit_sizes hs
          ∧ unlinked (trace (Raise (A := Z) e, s0).2)
            = if dry_run then [] else hit_path <$> hs).
  { intros e s0 Htr. exists []. simpl. rewrite Htr.
    split_and!; [done|apply sublist_nil_l|constructor|done]. }
  destruct (forallb _ _); [|by apply Hnone].
  destruct (fs_create _ _ _) as [t1|e] eqn:Hcr; [|by apply Hnone].
  assert (Hwf1 : wf_node t1 = true).
  { eapply wf_fs_create; [exact Hwf|apply log_name_nonempty|exact Hcr]. }
  set (s6 := {| fs := t1; trace := [] ++ [EvOpen [log_name now dry_run]; EvWrite Header] |}).
  destruct (scan_files_ledger dry_run assume_continuity master_backup older_backups
              (glob_all m) 0 s6 Hwf1) as (hs & L & Hsub & Hms).
  exists hs.
  assert (Hin : ∀ h, h ∈ hs → hit_backup h ∈ older_backups).
  { intros h Hh.
    assert (Hk : hit_key h ∈ scan_order (glob_all m) older_backups).
    { eapply elem_of_sublist; [|exact Hsub]. apply list_elem_of_fmap. by exists h. }
    by apply elem_of_scan_order in Hk as [_ ?]. }
  assert (Hchild : ∀ g, g ∈ master_backup :: older_backups → g ≠ log_name now dry_run).
  { intros g Hg. apply (child_not_log (names es)). by rewrite Hc. }
  assert (Hseen : Forall (λ h, st_size (hit_alt h) = st_size (hit_master h)
                   ∧ (∃ k, attr_at (hit_path h) (Dir st es) = Some (k, hit_alt h))
                   ∧ (∃ k, attr_at (master_backup :: hit_file h) (Dir st es)
                           = Some (k, hit_master h))) hs).
  { destruct L as (_ & _ & _ & Falt & _). rewrite Forall_forall in Falt, Hms.
    apply Forall_forall. intros h Hh.
    destruct (Falt h Hh) as [k Hk]. destruct (Hms h Hh) as [Hsz [km Hkm]].
    subst s6. cbn [fs] in Hk, Hkm. split_and!; [done|exists k|exists km].
    - rewrite <- Hk. symmetry. eapply fs_create_attr_ne; [exact Hcr|].
      apply Hchild. right. by apply Hin.
    - rewrite <- Hkm. symmetry. eapply fs_create_attr_ne; [exact Hcr|].
      apply Hchild. left. }
  destruct L as (_ & _ & Hrows & _ & Hval).
  destruct (scan_files _ _ _ _ _ _ _) as [[b0|e] s7]; simpl in Hrows, Hval.
  2:{ simpl. split_and!; [done..|]. intros b [=]. }
  destruct (Hval b0 eq_refl) as [-> Hunl]. clear Hval.
  assert (Htail : ∀ s8,
    log_rows (trace s8) = log_rows (trace s7) → unlinked (trace s8) = unlinked (trace s7) →
    log_rows (trace s8) = row_of master_backup <$> hs
    ∧ unlinked (trace s8) = if dry_run then [] else hit_path <$> hs).
  { intros s8 -> ->. split; [done|]. rewrite Hunl. done. }
  destruct ((if dry_run then ret tt else delete_empty_folders_all older_backups) s7)
    as [[[]|e] s8] eqn:Hdel.
  - assert (Hq : log_rows (trace s8) = log_rows (trace s7)
                 ∧ unlinked (trace s8) = unlinked (trace s7)).
    { destruct dry_run; [by injection Hdel as <-|]. by eapply reclaim_all_quiet. }
    destruct Hq as [Hq1 Hq2]. destruct (Htail s8 Hq1 Hq2) as [Hr Hu].
    destruct (format_bytes _) as [[amount label]|e]; simpl.
    + rewrite log_rows_app, unlinked_app, Hr, Hu. simpl. rewrite !app_nil_r.
      split_and!; [done..|]. intros b [= <-]. split; [lia|done].
    + split_and!; [done..|]. intros b [=].
  - assert (Hq : log_rows (trace s8) = log_rows (trace s7)).
    { destruct dry_run; [done|]. by eapply reclaim_all_quiet. }
    simpl. rewrite Hq. split_and!; [done..|]. intros b [=].
Qed.

Lemma run_ok_inv dry_run assume_continuity now t b s :
  run dry_run assume_continuity now t = (Ok b, s) →
  ∃ master_backup older_backups m,
    children_of (names (entries_of t)) = master_backup :: older_backups
    ∧ lookup_path [master_backup] t = Some m.
Proof.
  unfold run. destruct t as [st|st es]; [done|]. cbn [entries_of].
  rewrite deduplicate_unfold. cbn zeta.
  destruct (children_of (names es)) as [|master_backup older_backups] eqn:Hc.
  { by destruct (forallb _ _). }
  destruct (forallb _ _) eqn:Hdirs; [|done]. intros _.
  cbn [forallb] in Hdirs. apply andb_true_iff in Hdirs as [Hd _].
  destruct (lookup_path [master_backup] (Dir st es)) as [m|] eqn:Hm;
    [|try rewrite Hm in Hd; done].
  by exists master_backup, older_backups, m.
Qed.

(** The path a row names as removed. *)
Definition alt_of (l : line) : path :=
  match l with
  | Row alt_file _ _ _ => alt_file
  | Header => []
  end.

Lemma alt_of_rows master_backup (hs : list hit) :
  alt_of <$> (row_of master_backup <$> hs) = hit_path <$> hs.
Proof. by rewrite <- list_fmap_compose. Qed.

(** ** What the rows of the log say *)

(** X6.  Every row a run writes, whether the run returns or raises, is true of
    the tree the run started from, a working folder without links: it names
    a path [g/f] below an older backup and the path [master/f] of a
    candidate of the master, both were there, and the second time in the
    row is the [st_ctime] of [master/f]; where [g/f] was a regular file, it
    had the size of [master/f] and the first time in the row is its
    [st_ctime].  (Of a directory [g/f] the row holds what [stat] gave when
    the scan came to it.) *)
Theorem rows_truthful dry_run assume_continuity now t master_backup older_backups m :
  wf_node t = true →
  children_of (names (entries_of t)) = master_backup :: older_backups →
  lookup_path [master_backup] t = Some m →
  Forall (λ row,
    ∃ g f alt master alt_ctime,
      row = Row (g :: f) (master_backup :: f) alt_ctime (st_ctime (stat_of master))
      ∧ g ∈ older_backups ∧ f ∈ glob_all m
      ∧ lookup_path (g :: f) t = Some alt
      ∧ lookup_path (master_backup :: f) t = Some master
      ∧ (is_dir alt = false →
           alt_ctime = st_ctime (stat_of alt)
           ∧ st_size (stat_of alt) = st_size (stat_of master)))
    (log_rows (trace (run dry_run assume_continuity now t).2)).
Proof.
  intros Hwf Hc Hm.
  destruct (run_ledger dry_run assume_continuity now t _ _ _ Hwf Hc Hm)
    as (hs & -> & Hsub & Hseen & _).
  apply Forall_fmap. rewrite Forall_forall in Hseen. apply Forall_forall. intros h Hh.
  destruct (Hseen h Hh) as (Hsz & [k Hk] & [km Hkm]).
  assert (Hkey : hit_key h ∈ scan_order (glob_all m) older_backups).
  { eapply elem_of_sublist; [|exact Hsub]. apply list_elem_of_fmap. by exists h. }
  apply elem_of_scan_order in Hkey as [Hf Hg].
  apply attr_at_Some in Hk as (alt & Hla & _ & Hsa).
  apply attr_at_Some in Hkm as (master & Hlm & _ & Hsm).
  exists (hit_backup h), (hit_file h), alt, master, (st_ctime (hit_alt h)).
  split_and!; [|done..|].
  - unfold compose, row_of, hit_path. by rewrite Hsm.
  - intros _. by rewrite Hsa, Hsm.
Qed.

Lemma rows_truthful_witness :
  Forall (λ row,
    ∃ g f alt master alt_ctime,
      row = Row (g :: f) ("2024" :: f) alt_ctime (st_ctime (stat_of master))
      ∧ g ∈ ["2023"; "2022"]
      ∧ f ∈ glob_all (folder [("note.txt", file 50 3); ("photo.jpg", file 1000 3)])
      ∧ lookup_path (g :: f) relay_tree = Some alt
      ∧ lookup_path ("2024" :: f) relay_tree = Some master
      ∧ (is_dir alt = false →
           alt_ctime = st_ctime (stat_of alt)
           ∧ st_size (stat_of alt) = st_size (stat_of master)))
    (log_rows (trace (run false false noon relay_tree).2)).
Proof. apply (rows_truthful false false noon relay_tree "2024" ["2023"; "2022"]); reflexivity. Defined.

(** ** The tree a run leaves, read off its trace *)

(** The path an event removes, if it removes one. *)
Definition removal (e : event) : option path :=
  match e with
  | EvUnlink p | EvRmdir p => Some p
  | _ => None
  end.

Definition removed_paths (tr : list event) : list path := omap removal tr.

(** In the tree [t] the path an event removes stands for a node of the kind
    the call removes: a regular file for [unlink], a directory for
    [rmdir]. *)
Definition removes_its_kind (t : node) (e : event) : Prop :=
  match e with
  | EvUnlink p => ∃ st, attr_at p t = Some (false, st)
  | EvRmdir p => ∃ st, attr_at p t = Some (true, st)
  | _ => True
  end.

(** The state after differs from the state before by the removals recorded
    in the events added to the trace, and by nothing else. *)
Definition framed : relation state := λ s s',
  wf_node (fs s) = true →
  wf_node (fs s') = true
  ∧ ∃ tr, trace s' = trace s ++ tr
          ∧ (∀ q, attr_at q (fs s')
                  = if bool_decide (q ∈ removed_paths tr) then None else attr_at q (fs s))
          ∧ Forall (removes_its_kind (fs s)) tr.

#[global] Instance framed_preorder : PreOrder framed.
Proof.
  split.
  - intros s Hwf. split; [done|]. exists []. split_and!; [by rewrite app_nil_r|done|constructor].
  - intros s1 s2 s3 H12 H23 Hwf.
    destruct (H12 Hwf) as (Hwf2 & tr1 & E1 & A1 & K1).
    destruct (H23 Hwf2) as (Hwf3 & tr2 & E2 & A2 & K2).
    split; [done|]. exists (tr1 ++ tr2). split_and!.
    + by rewrite E2, E1, (assoc_L (++)).
    + intros q. rewrite A2, A1. unfold removed_paths. rewrite omap_app.
      repeat case_bool_decide; try done; set_solver.
    + apply Forall_app. split; [done|]. eapply Forall_impl; [exact K2|].
      intros e He. destruct e; simpl in *; try done.
      all: destruct He as [st Hst]; exists st; rewrite A1 in Hst; by case_bool_decide.
Qed.

Lemma framed_reads {A} (m : M A) :
  (∀ s, ∃ evs, (m s).2 = record s evs ∧ Forall (λ e, removal e = None) evs) →
  keeps framed m.
Proof.
  intros H s Hwf. destruct (H s) as (evs & -> & F). split; [done|].
  exists evs. split_and!; [done| |].
  - intros q. rewrite bool_decide_eq_false_2; [done|].
    intros (e & He & Hr)%list_elem_of_omap. rewrite Forall_forall in F.
    by rewrite (F e He) in Hr.
  - eapply Forall_impl; [exact F|]. intros e He. by destruct e.
Qed.

Lemma framed_emit e : removal e = None → keeps framed (emit e).
Proof.
  intros He. apply framed_reads. intros s. exists [e]. split; [done|]. by constructor.
Qed.

Lemma framed_path_exists p : keeps framed (path_exists p).
Proof.
  apply framed_reads. intros s. exists [EvExists p]. split; [done|]. by constructor.
Qed.

Lemma framed_path_stat p : keeps framed (path_stat p).
Proof.
  apply framed_reads. intros s. unfold path_stat.
  destruct (lookup_path p (fs s)).
  - exists [EvStat p]. split; [done|]. by constructor.
  - exists []. split; [|constructor]. unfold record. simpl. rewrite app_nil_r. by destruct s.
Qed.

Lemma framed_mutate f p e k :
  removes_leaf f → removal e = Some p →
  (∀ c o, f c = Ok o → is_dir c = k) →
  (∀ t, (∃ st, attr_at p t = Some (k, st)) → removes_its_kind t e) →
  keeps framed (mutate (apply_at p f) e).
Proof.
  intros Hf He Hkind Hk s. unfold mutate.
  destruct (apply_at p f (fs s)) as [t'|x] eqn:Ha; [|reflexivity].
  intros Hwf. cbn [snd fs trace].
  destruct (apply_at_leaf _ _ _ _ Hf Hwf Ha) as (Hwf' & _ & _ & Hattr).
  split; [done|]. exists [e]. split_and!; [done| |].
  - intros q. rewrite Hattr. unfold removed_paths. simpl. rewrite He.
    case_decide; case_bool_decide; try done; set_solver.
  - constructor; [|constructor]. apply Hk.
    apply apply_at_inv in Ha as (c & o & Hl & Hc & _).
    exists (stat_of c). unfold attr_at. rewrite Hl. simpl. by rewrite (Hkind _ _ Hc).
Qed.

Lemma framed_unlink p : keeps framed (unlink p).
Proof.
  apply (framed_mutate unlink_node p (EvUnlink p) false);
    [apply unlink_removes_leaf|done| |done].
  by intros [st|st es] o.
Qed.

Lemma framed_rmdir p : keeps framed (rmdir p).
Proof.
  apply (framed_mutate rmdir_node p (EvRmdir p) true);
    [apply rmdir_removes_leaf|done| |done].
  by intros [st|st es] o.
Qed.

Lemma framed_scan dry_run assume_continuity file master_file master_stats backups b :
  keeps framed (scan dry_run assume_continuity file master_file master_stats backups b).
Proof.
  revert b. induction backups as [|g rest IH]; intros b; simpl.
  { apply keeps_ret. }
  apply keeps_bind; [apply framed_path_exists|]. intros e.
  destruct (negb e).
  { destruct assume_continuity; [apply keeps_ret|apply IH]. }
  apply keeps_bind; [apply framed_path_stat|]. intros alt_stats.
  destruct (negb _).
  { destruct assume_continuity; [apply keeps_ret|apply IH]. }
  apply keeps_bind; [by apply framed_emit|]. intros _.
  apply keeps_bind; [|intros _; apply IH].
  apply keeps_bind; [by apply framed_emit|]. intros _.
  destruct dry_run; [apply keeps_ret|]. apply framed_unlink.
Qed.

Lemma framed_scan_files dry_run assume_continuity master_backup older_backups files b :
  keeps framed
    (scan_files dry_run assume_continuity master_backup older_backups files b).
Proof.
  revert b. induction files as [|f files IH]; intros b; simpl.
  { apply keeps_ret. }
  apply keeps_bind; [|done]. unfold scan_file.
  apply keeps_bind; [apply framed_path_stat|]. intros ms. apply framed_scan.
Qed.

Lemma framed_reclaim (triples : list (path * list string * list string))
    (D : gset path) :
  keeps framed (reclaim triples D).
Proof.
  revert D. induction triples as [|[[cur subdirs] files] triples IH]; intros D; simpl.
  { apply keeps_ret. }
  destruct (_ && _); [|done].
  apply keeps_bind; [apply keeps_iterdir|]. intros listing.
  apply keeps_bind; [apply keeps_assert|]. intros _.
  apply keeps_bind; [by apply framed_emit|]. intros _.
  apply keeps_bind; [apply framed_rmdir|]. intros _. done.
Qed.

Lemma framed_delete_empty_folders_all backups :
  keeps framed (delete_empty_folders_all backups).
Proof.
  induction backups as [|g rest IH]; simpl; [apply keeps_ret|].
  apply keeps_bind; [|done]. unfold delete_empty_folders.
  apply keeps_bind; [apply keeps_path_walk|]. intros triples. apply framed_reclaim.
Qed.

Lemma after_open_framed dry_run assume_continuity master_backup older_backups files s6 :
  framed s6
    (match scan_files dry_run assume_continuity master_backup older_backups files 0 s6 with
     | (Raise e, s7) => (Raise e, s7)
     | (Ok b, s7) =>
         match (if dry_run then ret tt
                else delete_empty_folders_all older_backups) s7 with
         | (Raise e, s8) => (Raise e, s8)
         | (Ok _, s8) =>
             match format_bytes b with
             | Ok (amount, label) => (Ok b, record s8 [EvPrint (Freed amount label)])
             | Raise e => (Raise e, s8)
             end
         end
     end).2.
Proof.
  destruct (scan_files _ _ _ _ _ _ _) as [[b|e] s7] eqn:Hscan.
  2:{ eapply keeps_run; [|exact Hscan]. apply framed_scan_files. }
  assert (H67 : framed s6 s7).
  { eapply keeps_run; [|exact Hscan]. apply framed_scan_files. }
  destruct ((if dry_run then ret tt else delete_empty_folders_all older_backups) s7)
    as [[[]|e] s8] eqn:Hdel.
  2:{ etrans; [exact H67|]. eapply keeps_run; [|exact Hdel].
      destruct dry_run; [apply keeps_ret|apply framed_delete_empty_folders_all]. }
  assert (H78 : framed s7 s8).
  { eapply keeps_run; [|exact Hdel].
    destruct dry_run; [apply keeps_ret|apply framed_delete_empty_folders_all]. }
  destruct (format_bytes b) as [[amount label]|e]; simpl; [|by etrans].
  etrans; [exact H67|]. etrans; [exact H78|].
  apply (framed_emit (EvPrint (Freed amount label)) eq_refl s8).
Qed.

Lemma removed_paths_app tr1 tr2 :
  removed_paths (tr1 ++ tr2) = removed_paths tr1 ++ removed_paths tr2.
Proof. apply omap_app. Qed.

(** What a run leaves of a well-formed tree, whether it returns or raises:
    a well-formed tree in which every path outside the log of the run is
    gone if the trace holds its removal and is otherwise what it was, in
    kind and stats; and every removal in the trace is an [unlink] of what
    was a regular file of the tree the run started from, or an [rmdir] of
    what was a directory of it. *)
Lemma run_framed dry_run assume_continuity now t :
  wf_node t = true →
  wf_node (fs (run dry_run assume_continuity now t).2) = true
  ∧ (∀ g q, g ≠ log_name now dry_run →
       attr_at (g :: q) (fs (run dry_run assume_continuity now t).2)
       = if bool_decide (g :: q ∈ removed_paths (trace (run dry_run assume_continuity now t).2))
         then None else attr_at (g :: q) t)
  ∧ Forall (removes_its_kind t) (trace (run dry_run assume_continuity now t).2).
Proof.
  intros Hwf.
  assert (Hnone : ∀ r : result Z * state, r.2 = {| fs := t; trace := [] |} →
    wf_node (fs r.2) = true
    ∧ (∀ g q, g ≠ log_name now dry_run →
         attr_at (g :: q) (fs r.2)
         = if bool_decide (g :: q ∈ removed_paths (trace r.2))
           then None else attr_at (g :: q) t)
    ∧ Forall (removes_its_kind t) (trace r.2)).
  { intros r ->. cbn [fs trace]. split_and!; [done| |constructor]. intros g q _.
    unfold removed_paths. cbn [omap].
    by rewrite bool_decide_eq_false_2 by apply not_elem_of_nil. }
  destruct (children_of (names (entries_of t))) as [|master_backup older_backups] eqn:Hc.
  { apply Hnone. unfold run. by apply deduplicate_no_children. }
  pose proof (confined_deduplicate dry_run assume_continuity now
                {| fs := t; trace := [] |} _ _ Hc) as [_ (tr0 & Htr0 & _ & D & _)].
  pose proof (log_before_unlink := confined_deduplicate dry_run assume_continuity now
                {| fs := t; trace := [] |} _ _ Hc).
  destruct log_before_unlink as [_ (tr0' & Htr0' & U & _)].
  fold (run dry_run assume_continuity now t) in Htr0, Htr0'. simpl in Htr0, Htr0'.
  rewrite <- Htr0 in D. rewrite <- Htr0' in U. clear Htr0 Htr0' tr0 tr0'.
  revert U D. unfold run. destruct t as [st|st es]; [done|].
  cbn [entries_of] in Hc. rewrite deduplicate_unfold. cbn zeta. rewrite Hc.
  destruct (forallb _ _); [|intros _ _; by apply Hnone].
  destruct (fs_create _ _ _) as [t1|e] eqn:Hcr; [|intros _ _; by apply Hnone].
  assert (Hwf1 : wf_node t1 = true).
  { eapply wf_fs_create; [exact Hwf|apply log_name_nonempty|exact Hcr]. }
  set (s6 := {| fs := t1; trace := [] ++ [EvOpen [log_name now dry_run]; EvWrite Header] |}).
  pose proof (after_open_framed dry_run assume_continuity master_backup older_backups
                (from_option glob_all [] (lookup_path [master_backup] (Dir st es))) s6 Hwf1)
    as (Hwf' & tr & Htr & Hattr & Hkinds).
  match type of Hwf' with wf_node (fs ?r.2) = true => set (final := r) in * end.
  cbn [fs trace app] in Htr, Hattr, Hkinds.
  intros U D.
  assert (Hold : ∀ e p, e ∈ trace final.2 → removal e = Some p →
            ∃ g f, p = g :: f ∧ g ≠ log_name now dry_run).
  { intros e p He Hr.
    assert (∃ g f, p = g :: f ∧ g ∈ older_backups) as (g & f & -> & Hg).
    { destruct e; try done; injection Hr as ->.
      - apply list_elem_of_split in He as (pre & post & Hsplit).
        destruct (U _ _ _ Hsplit) as (g & f & _ & _ & _ & -> & Hg & _). eauto.
      - by apply D. }
    exists g, f. split; [done|]. apply (child_not_log (names es)). rewrite Hc. by right. }
  split_and!; [done| |].
  - intros g q Hg. rewrite Hattr.
    replace (removed_paths (trace final.2)) with (removed_paths tr) by (by rewrite Htr).
    case_bool_decide; [done|]. eapply fs_create_attr_ne; [exact Hcr|done].
  - rewrite Htr. constructor; [done|]. constructor; [done|].
    apply Forall_forall. intros e He. rewrite Forall_forall in Hkinds.
    specialize (Hkinds e He).
    assert (Hin : e ∈ trace final.2) by (rewrite Htr; right; by right).
    destruct e as [| | | | |p|p]; try done; simpl in *.
    all: destruct (Hold _ p Hin eq_refl) as (g & f & -> & Hg).
    all: destruct Hkinds as [stx Hstx]; exists stx; rewrite <- Hstx; symmetry.
    all: eapply fs_create_attr_ne; [exact Hcr|done].
Qed.

(** ** What a run may remove *)

(** X7.  In a working folder without links, a run removes a file only where
    the master has a candidate of the same relative path and the same size:
    every path unlinked in a run, returning or raising, is [g/f] for an
    older backup [g] and a candidate [f] of the master, and in the tree the
    run started from [g/f] was a regular file with the size of
    [master/f]. *)
Theorem deletes_only_duplicates dry_run assume_continuity now t master_backup older_backups m :
  wf_node t = true →
  children_of (names (entries_of t)) = master_backup :: older_backups →
  lookup_path [master_backup] t = Some m →
  Forall (λ p,
    ∃ g f alt_stats master_stats master_kind,
      p = g :: f ∧ g ∈ older_backups ∧ f ∈ glob_all m
      ∧ attr_at (g :: f) t = Some (false, alt_stats)
      ∧ attr_at (master_backup :: f) t = Some (master_kind, master_stats)
      ∧ st_size alt_stats = st_size master_stats)
    (unlinked (trace (run dry_run assume_continuity now t).2)).
Proof.
  intros Hwf Hc Hm.
  pose proof (rows_sound := run_ledger dry_run assume_continuity now t _ _ _ Hwf Hc Hm).
  destruct rows_sound as (hs & Hrows & Hsub & Hseen & _).
  destruct (confined_deduplicate dry_run assume_continuity now
              {| fs := t; trace := [] |} _ _ Hc) as [_ (tr & Htr & U & _)].
  fold (run dry_run assume_continuity now t) in Htr. simpl in Htr.
  apply Forall_forall. intros p Hp.
  assert (Hev : EvUnlink p ∈ trace (run dry_run assume_continuity now t).2).
  { clear -Hp. induction (trace _) as [|e tr IH]; [by apply elem_of_nil in Hp|].
    destruct e; simpl in Hp; try (right; by apply IH).
    apply elem_of_cons in Hp as [->|Hp]; [left|right; by apply IH]. }
  pose proof (run_framed dry_run assume_continuity now t Hwf) as (_ & _ & Hkinds).
  rewrite Forall_forall in Hkinds. destruct (Hkinds _ Hev) as [stp Hstp].
  rewrite Htr in Hev. apply list_elem_of_split in Hev as (pre & post & Hsplit).
  destruct (U _ _ _ Hsplit) as (g & f & pre' & ac & mc & -> & Hg & ->).
  assert (Hrow : Row (g :: f) (master_backup :: f) ac mc
                 ∈ log_rows (trace (run dry_run assume_continuity now t).2)).
  { rewrite Htr, Hsplit, <- !(assoc_L (++)), !log_rows_app. simpl.
    apply elem_of_app. right. left. }
  rewrite Hrows in Hrow. apply list_elem_of_fmap in Hrow as (h & Hrow & Hh).
  injection Hrow as Hgf Hf _ _.
  rewrite Forall_forall in Hseen. destruct (Hseen h Hh) as (Hsz & [k Hk] & [km Hkm]).
  assert (Hkey : hit_key h ∈ scan_order (glob_all m) older_backups).
  { eapply elem_of_sublist; [|exact Hsub]. apply list_elem_of_fmap. by exists h. }
  apply elem_of_scan_order in Hkey as [Hfm _]. rewrite <- Hf in Hfm, Hkm.
  unfold hit_path in Hk. rewrite <- Hgf, <- Hf in Hk.
  rewrite Hk in Hstp. injection Hstp as -> _.
  by exists g, f, (hit_alt h), (hit_master h), km.
Qed.

Lemma deletes_only_duplicates_witness :
  Forall (λ p,
    ∃ g f alt_stats master_stats master_kind,
      p = g :: f ∧ g ∈ ["2023"; "2022"]
      ∧ f ∈ glob_all (folder [("note.txt", file 50 3); ("photo.jpg", file 1000 3)])
      ∧ attr_at (g :: f) relay_tree = Some (false, alt_stats)
      ∧ attr_at ("2024" :: f) relay_tree = Some (master_kind, master_stats)
      ∧ st_size alt_stats = st_size master_stats)
    (unlinked (trace (run false false noon relay_tree).2)).
Proof.
  apply (deletes_only_duplicates false false noon relay_tree "2024" ["2023"; "2022"]);
    reflexivity.
Defined.

(** X8.  Whatever a run does to a well-formed tree, a working folder without
    links, and however it ends, the tree it leaves is well formed; a path
    outside the run's own log is gone if the run removed it; a path the run
    did not remove stands for a directory, for a regular file or for
    nothing as it did before, and a regular file there is the file it was,
    in size and [st_ctime]; and what the run unlinked were regular files,
    what it removed with [rmdir] were directories, of the tree it started
    from.  (Nothing is said of the stats of the directories that lost an
    entry.) *)
Theorem tree_after_run dry_run assume_continuity now t :
  wf_node t = true →
  wf_node (fs (run dry_run assume_continuity now t).2) = true
  ∧ (∀ g q, g ≠ log_name now dry_run →
       if bool_decide (g :: q ∈ removed_paths (trace (run dry_run assume_continuity now t).2))
       then lookup_path (g :: q) (fs (run dry_run assume_continuity now t).2) = None
       else is_dir <$> lookup_path (g :: q) (fs (run dry_run assume_continuity now t).2)
            = is_dir <$> lookup_path (g :: q) t
            ∧ ∀ st, lookup_path (g :: q) t = Some (File st) →
                lookup_path (g :: q) (fs (run dry_run assume_continuity now t).2)
                = Some (File st))
  ∧ Forall (removes_its_kind t) (trace (run dry_run assume_continuity now t).2).
Proof.
  intros Hwf. destruct (run_framed dry_run assume_continuity now t Hwf) as (Hwf' & Ha & Hk).
  split_and!; [done| |done]. intros g q Hg. specialize (Ha g q Hg).
  case_bool_decide.
  - by apply attr_at_None.
  - split; [by apply attr_at_kind|]. intros st Hst. by apply (attr_at_File _ _ _ _ Ha).
Qed.

Lemma tree_after_run_witness :
  wf_node (fs (run false true noon relay_tree).2) = true
  ∧ (∀ g q, g ≠ log_name noon false →
       if bool_decide (g :: q ∈ removed_paths (trace (run false true noon relay_tree).2))
       then lookup_path (g :: q) (fs (run false true noon relay_tree).2) = None
       else is_dir <$> lookup_path (g :: q) (fs (run false true noon relay_tree).2)
            = is_dir <$> lookup_path (g :: q) relay_tree
            ∧ ∀ st, lookup_path (g :: q) relay_tree = Some (File st) →
                lookup_path (g :: q) (fs (run false true noon relay_tree).2)
                = Some (File st))
  ∧ Forall (removes_its_kind relay_tree) (trace (run false true noon relay_tree).2).
Proof. apply (tree_after_run false true noon relay_tree). reflexivity. Defined.

(** ** The order of the rows *)





(** ** The total and the log *)

(** The size of what a path stands for in a tree, 0 where it stands for
    nothing. *)
Definition size_at (p : path) (t : node) : Z :=
  from_option (λ c, st_size (stat_of c)) 0%Z (lookup_path p t).

(** The sizes, in the tree [t], of the paths the rows name as removed. *)
Definition rows_size (t : node) (rows : list line) : Z :=
  foldr (λ r acc, (size_at (alt_of r) t + acc)%Z) 0%Z rows.

Lemma rows_size_hits master_backup t hs :
  Forall (λ h, ∃ k, attr_at (hit_path h) t = Some (k, hit_alt h)) hs →
  rows_size t (row_of master_backup <$> hs) = hit_sizes hs.
Proof.
  induction 1 as [|h hs [k Hk] _ IH]; [done|].
  change (rows_size t (row_of master_backup <$> h :: hs))
    with (size_at (hit_path h) t + rows_size t (row_of master_backup <$> hs))%Z.
  change (hit_sizes (h :: hs)) with (st_size (hit_alt h) + hit_sizes hs)%Z.
  rewrite IH. f_equal. unfold size_at. unfold attr_at in Hk.
  destruct (lookup_path (hit_path h) t) as [c|]; [|done]. simpl in *. congruence.
Qed.

(** X10.  The total a run returns, dry or real, is the sum over the rows of its
    log of the size that the path named as removed had in the tree the run
    started from. *)
Theorem freed_is_sum dry_run assume_continuity now t b s :
  wf_node t = true →
  run dry_run assume_continuity now t = (Ok b, s) →
  b = rows_size t (log_rows (trace s)).
Proof.
  intros Hwf Hrun. destruct (run_ok_inv _ _ _ _ _ _ Hrun) as (mb & older & m & Hc & Hm).
  destruct (run_ledger dry_run assume_continuity now t _ _ _ Hwf Hc Hm)
    as (hs & Hrows & _ & Hseen & Hval).
  rewrite Hrun in Hrows, Hval. simpl in Hrows, Hval.
  destruct (Hval b eq_refl) as [-> _]. rewrite Hrows. symmetry. apply rows_size_hits.
  eapply Forall_impl; [exact Hseen|]. by intros h (_ & ? & _).
Qed.

Lemma freed_is_sum_witness :
  1050%Z = rows_size relay_tree (log_rows (trace (run false false noon relay_tree).2)).
Proof.
  apply (freed_is_sum false false noon relay_tree 1050 (run false false noon relay_tree).2);
    reflexivity.
Defined.

Lemma elem_of_unlinked p tr : p ∈ unlinked tr ↔ EvUnlink p ∈ tr.
Proof.
  induction tr as [|e tr IH]; simpl.
  { split; by intros ?%elem_of_nil. }
  destruct e; rewrite ?elem_of_cons, IH; split; intros H; try (by right).
  all: destruct H as [H|H]; try done; try (by right); try (left; congruence).
Qed.

Lemma elem_of_removed_paths p tr :
  p ∈ removed_paths tr ↔ EvUnlink p ∈ tr ∨ EvRmdir p ∈ tr.
Proof.
  unfold removed_paths. rewrite list_elem_of_omap. split.
  - intros (e & He & Hr). destruct e; try done; injection Hr as ->; auto.
  - intros [H|H]; eexists; (split; [exact H|done]).
Qed.

(** X11.  In a working folder without links, where every file has one name,
    the log of a completed real run is a full record of the files it took
    away: the paths unlinked are the paths the rows name, in the same
    order; and a regular file of the tree the run started from, the run's
    own log apart, is gone at the end if a row names it and is otherwise
    still there, a regular file with the size and [st_ctime] it had. *)
Theorem log_is_complete assume_continuity now t b s :
  wf_node t = true →
  run false assume_continuity now t = (Ok b, s) →
  unlinked (trace s) = alt_of <$> log_rows (trace s)
  ∧ ∀ g q st, g ≠ log_name now false → attr_at (g :: q) t = Some (false, st) →
      attr_at (g :: q) (fs s)
      = if bool_decide (g :: q ∈ alt_of <$> log_rows (trace s)) then None
        else Some (false, st).
Proof.
  intros Hwf Hrun. destruct (run_ok_inv _ _ _ _ _ _ Hrun) as (mb & older & m & Hc & Hm).
  destruct (run_ledger false assume_continuity now t _ _ _ Hwf Hc Hm)
    as (hs & Hrows & _ & _ & Hval).
  destruct (run_framed false assume_continuity now t Hwf) as (_ & Hattr & Hkinds).
  rewrite Hrun in Hrows, Hval, Hattr, Hkinds. simpl in Hrows, Hval, Hattr, Hkinds.
  destruct (Hval b eq_refl) as [_ Hunl].
  assert (Hu : unlinked (trace s) = alt_of <$> log_rows (trace s)).
  { by rewrite Hunl, Hrows, alt_of_rows. }
  split; [done|]. intros g q st Hg Hfile. rewrite (Hattr g q Hg), Hfile, <- Hu.
  assert (Heq : g :: q ∈ removed_paths (trace s) ↔ g :: q ∈ unlinked (trace s)).
  { rewrite elem_of_removed_paths, elem_of_unlinked. split; [|by left].
    intros [?|Hr]; [done|]. rewrite Forall_forall in Hkinds.
    destruct (Hkinds _ Hr) as [st' Hst']. congruence. }
  repeat case_bool_decide; tauto.
Qed.

Lemma log_is_complete_witness :
  unlinked (trace (run false true noon relay_tree).2)
  = alt_of <$> log_rows (trace (run false true noon relay_tree).2)
  ∧ ∀ g q st, g ≠ log_name noon false → attr_at (g :: q) relay_tree = Some (false, st) →
      attr_at (g :: q) (fs (run false true noon relay_tree).2)
      = if bool_decide (g :: q ∈ alt_of <$> log_rows (trace (run false true noon relay_tree).2))
        then None else Some (false, st).
Proof.
  apply (log_is_complete true noon relay_tree 50 (run false true noon relay_tree).2);
    reflexivity.
Defined.

(** ** The candidates of the master *)

Lemma glob_ext_complete ex t :
  ∀ f n c, last f = Some n → matches_ext ex n = true → lookup_path f t = Some c →
           f ∈ glob_ext ex t.
Proof.
  induction t as [st|st es IH] using node_induction; intros f n c Hlast Hm Hl.
  { destruct f; [done|]. done. }
  destruct f as [|n1 f]; [done|]. simpl in Hl.
  destruct (assoc n1 es) as [c1|] eqn:Ha; [|done].
  cbn [glob_ext]. apply elem_of_app. destruct f as [|n2 f].
  - left. simpl in Hlast. injection Hlast as ->.
    apply list_elem_of_fmap. exists n. split; [done|].
    apply list_elem_of_filter. split; [done|]. apply assoc_is_Some. eauto.
  - right. apply list_elem_of_bind. exists (n1, c1). split.
    + apply list_elem_of_fmap. exists (n2 :: f). split; [done|].
      rewrite Forall_forall in IH. apply (IH (n1, c1) (assoc_Some_elem _ _ _ Ha) _ n c); done.
    + by apply assoc_Some_elem.
Qed.

(** X12.  The candidates [master_files] draws from a well-formed master are the
    paths below it whose last component ends in a dot and one of
    [DEFAULT_EXTENSIONS] once its letters are folded as [re.IGNORECASE]
    folds them ([A] to [Z] onto [a] to [z], and the long s, the Kelvin sign
    and the dotted capital and dotless small i onto [s], [k] and [i]): each
    of them, at any depth, file or directory, and nothing else; and none is
    listed twice, although the globs of all extensions are chained. *)
Theorem candidates_characterised m :
  wf_node m = true →
  NoDup (glob_all m)
  ∧ ∀ f, f ∈ glob_all m ↔
         ∃ n ex c, last f = Some n ∧ ex ∈ DEFAULT_EXTENSIONS
                   ∧ endswith (casefold n) ("." +:+ ex) = true
                   ∧ lookup_path f m = Some c.
Proof.
  intros Hwf. split; [by apply glob_all_NoDup|]. intros f.
  assert (Hlow : ∀ ex n, ex ∈ DEFAULT_EXTENSIONS →
            matches_ext ex n = endswith (casefold n) ("." +:+ ex)).
  { intros ex n Hex. unfold matches_ext. f_equal. revert ex Hex.
    apply Forall_forall. by vm_compute; repeat constructor. }
  unfold glob_all. rewrite list_elem_of_bind. split.
  - intros (ex & Hf & Hex). destruct (glob_ext_last _ _ _ Hf) as (n & Hlast & Hm).
    destruct (glob_ext_lookup _ _ Hwf _ Hf) as [c Hc].
    exists n, ex, c. by rewrite <- Hlow.
  - intros (n & ex & c & Hlast & Hex & Hm & Hl). exists ex. split; [|done].
    rewrite <- Hlow in Hm by done. by eapply glob_ext_complete.
Qed.

(** A master with names that only match once their letters are folded:
    capitals, a long s, a Kelvin sign, a dotted capital and a dotless small
    i; and with names that do not match. *)
Definition folded_tree : node :=
  folder [("data.cſv", file 10 1);
          ("App.apK", file 20 2);
          ("scans", folder [("page.TİF", file 30 3); ("anim.gıf", file 40 4)]);
          ("Notes.TXT", file 50 5);
          ("csv", file 60 6);
          ("photo.jpg.bak", file 70 7)].

Lemma glob_all_folded :
  glob_all folded_tree
  = [["scans"; "page.TİF"]; ["scans"; "anim.gıf"]; ["Notes.TXT"]; ["App.apK"]; ["data.cſv"]].
Proof. vm_compute. reflexivity. Qed.

Lemma candidates_characterised_witness :
  NoDup (glob_all folded_tree)
  ∧ ∀ f, f ∈ glob_all folded_tree ↔
         ∃ n ex c, last f = Some n ∧ ex ∈ DEFAULT_EXTENSIONS
                   ∧ endswith (casefold n) ("." +:+ ex) = true
                   ∧ lookup_path f folded_tree = Some c.
Proof. apply (candidates_characterised folded_tree). reflexivity. Defined.

(** ** Reclaiming twice *)

Lemma prune_fixed t :
  ∀ t', prune t = Some t' → prune t' = Some t' ∧ ∀ p, removed p t' = [].
Proof.
  induction t as [st|st es IH] using node_induction; intros t'.
  { intros [= <-]. done. }
  rewrite prune_Dir. case_decide as Hne; [done|]. intros [= <-].
  assert (Hes : pruned_entries (pruned_entries es) = pruned_entries es
                ∧ ∀ p, pruned_entries es ≫= (λ e, removed (p ++ [e.1]) e.2) = []).
  { clear Hne. induction IH as [|[n c] es Hc _ IHes]; [done|].
    destruct IHes as [IH1 IH2]. rewrite pruned_entries_cons. simpl in Hc.
    destruct (prune c) as [c'|]; [|done].
    destruct (Hc c' eq_refl) as [Hc1 Hc2]. cbn [app]. split.
    - by rewrite pruned_entries_cons, Hc1, IH1.
    - intros p. cbn [mbind list_bind]. by rewrite Hc2, IH2. }
  destruct Hes as [H1 H2]. split.
  - rewrite prune_Dir, H1. by rewrite decide_False.
  - intros p. cbn [removed]. rewrite H2, prune_Dir, H1. by rewrite decide_False.
Qed.

Lemma shrinking_delete_empty_folders root : keeps shrinking (delete_empty_folders root).
Proof.
  unfold delete_empty_folders.
  apply keeps_bind; [apply keeps_path_walk|]. intros triples. apply shrinking_reclaim.
Qed.

(** X13.  A second pass of [delete_empty_folders] over a backup finds nothing to
    remove: on a well-formed tree the first pass returns, and the second,
    run on the state the first one left, returns the empty set and leaves
    tree and trace as they are. *)
Theorem reclaim_twice g t s :
  wf_node (fs s) = true → lookup_path [g] (fs s) = Some t → is_dir t = true →
  ∃ deleted s1,
    delete_empty_folders [g] s = (Ok deleted, s1)
    ∧ delete_empty_folders [g] s1 = (Ok ∅, s1).
Proof.
  intros Hwfs Hl Hd.
  assert (Hwf : wf_node t = true) by (by eapply wf_lookup).
  destruct (delete_empty_folders_spec g t s Hl Hd Hwf) as (t1 & Hput & Hrun).
  eexists _, _. split; [exact Hrun|].
  set (s1 := {| fs := t1; trace := trace s ++ removal_events (removed [g] t) |}).
  assert (Hwf1 : wf_node (fs s1) = true).
  { pose proof (shrinking_delete_empty_folders [g] s) as Hk. rewrite Hrun in Hk.
    by destruct (Hk Hwfs). }
  assert (Hroot : NoDup (names (entries_of (fs s)))).
  { destruct (fs s) as [|st0 es0]; [done|]. by apply wf_Dir in Hwfs as [? _]. }
  assert (Hl1 : lookup_path [g] (fs s1) = prune t).
  { subst s1. cbn [fs]. rewrite (lookup_put_root g (prune t) (fs s) t1 [] Hroot); [|eauto|done].
    by destruct (prune t). }
  destruct (prune t) as [t'|] eqn:Hp.
  - destruct (prune_fixed t t' Hp) as [Hp' Hr'].
    assert (Hd' : is_dir t' = true).
    { destruct t as [|st es]; [done|]. by apply prune_Some_Dir in Hp as [es' ->]. }
    destruct (delete_empty_folders_spec g t' s1 Hl1 Hd') as (t2 & Hput2 & Hrun2).
    { by eapply wf_lookup. }
    rewrite Hrun2, Hr', Hp' in *. rewrite (put_same _ _ _ Hl1) in Hput2.
    injection Hput2 as <-. subst s1. cbn [fs trace removal_events mbind list_bind].
    by rewrite app_nil_r.
  - unfold delete_empty_folders, bind, path_walk. by rewrite Hl1.
Qed.

Lemma reclaim_twice_witness :
  ∃ deleted s1,
    delete_empty_folders ["2023"] {| fs := mixed_tree; trace := [] |} = (Ok deleted, s1)
    ∧ delete_empty_folders ["2023"] s1 = (Ok ∅, s1).
Proof.
  apply (reclaim_twice "2023" (from_option id mixed_tree (lookup_path ["2023"] mixed_tree))
           {| fs := mixed_tree; trace := [] |}); reflexivity.
Defined.

(** ** With and without the continuity assumption *)

Lemma scan_dry_continuity file master_file master_stats backups :
  ∀ b1 b2 s1 s2, fs s1 = fs s2 →
    ∃ b1' b2' evs1 evs2,
      scan true true file master_file master_stats backups b1 s1 = (Ok b1', record s1 evs1)
      ∧ scan true false file master_file master_stats backups b2 s2
        = (Ok b2', record s2 evs2)
      ∧ sublist (log_rows evs1) (log_rows evs2).
Proof.
  induction backups as [|g rest IH]; intros b1 b2 s1 s2 Hfs.
  { exists b1, b2, [], []. unfold record. simpl. rewrite !app_nil_r.
    split_and!; [by destruct s1|by destruct s2|done]. }
  assert (Hstop : ∀ evs, log_rows evs = [] →
    ∃ b1' b2' evs1 evs2,
      (Ok b1, record s1 evs) = (Ok b1', record s1 evs1)
      ∧ scan true false file master_file master_stats rest b2 (record s2 evs)
        = (Ok b2', record s2 evs2)
      ∧ sublist (log_rows evs1) (log_rows evs2)).
  { intros evs Hevs.
    destruct (IH b1 b2 s1 (record s2 evs) Hfs) as (_ & b2' & _ & evs2 & _ & H2 & _).
    exists b1, b2', evs, (evs ++ evs2). rewrite H2, record_record, Hevs.
    split_and!; [done..|apply sublist_nil_l]. }
  destruct (lookup_path (g :: file) (fs s1)) as [alt|] eqn:Hl; cycle 1.
  { rewrite (scan_absent _ _ _ _ _ _ _ _ _ Hl).
    rewrite Hfs in Hl. rewrite (scan_absent _ _ _ _ _ _ _ _ _ Hl). by apply Hstop. }
  destruct (decide (st_size (stat_of alt) = st_size master_stats)) as [He|Hne]; cycle 1.
  { rewrite (scan_mismatch _ _ _ _ _ _ _ _ _ _ Hl Hne).
    rewrite Hfs in Hl. rewrite (scan_mismatch _ _ _ _ _ _ _ _ _ _ Hl Hne). by apply Hstop. }
  rewrite (scan_match _ _ _ _ _ _ _ _ _ _ Hl He).
  rewrite Hfs in Hl. rewrite (scan_match _ _ _ _ _ _ _ _ _ _ Hl He).
  unfold bind. rewrite !delete_dry, !record_record.
  match goal with |- context [record s1 ?evs] => set (seen := evs) end.
  destruct (IH (b1 + st_size (stat_of alt))%Z (b2 + st_size (stat_of alt))%Z
              (record s1 seen) (record s2 seen) Hfs)
    as (b1' & b2' & evs1 & evs2 & H1 & H2 & Hsub).
  exists b1', b2', (seen ++ evs1), (seen ++ evs2).
  rewrite H1, H2, !record_record, !log_rows_app.
  split_and!; [done..|]. by apply sublist_app.
Qed.

Lemma scan_files_dry_continuity master_backup older_backups files :
  ∀ b1 b2 s1 s2, fs s1 = fs s2 →
    ∃ r1 r2 evs1 evs2,
      scan_files true true master_backup older_backups files b1 s1 = (r1, record s1 evs1)
      ∧ scan_files true false master_backup older_backups files b2 s2 = (r2, record s2 evs2)
      ∧ sublist (log_rows evs1) (log_rows evs2).
Proof.
  induction files as [|f files IH]; intros b1 b2 s1 s2 Hfs.
  { exists (Ok b1), (Ok b2), [], []. unfold record. simpl. rewrite !app_nil_r.
    split_and!; [by destruct s1|by destruct s2|done]. }
  destruct (lookup_path (master_backup :: f) (fs s1)) as [cm|] eqn:Hl; cycle 1.
  { rewrite (scan_files_missing _ _ _ _ _ _ _ _ Hl).
    rewrite Hfs in Hl. rewrite (scan_files_missing _ _ _ _ _ _ _ _ Hl).
    exists (Raise FileNotFoundError), (Raise FileNotFoundError), [], [].
    unfold record. simpl. rewrite !app_nil_r.
    split_and!; [by destruct s1|by destruct s2|done]. }
  rewrite (scan_files_cons _ _ _ _ _ _ _ _ _ Hl).
  rewrite Hfs in Hl. rewrite (scan_files_cons _ _ _ _ _ _ _ _ _ Hl).
  destruct (scan_dry_continuity f (master_backup :: f) (stat_of cm) older_backups b1 b2
              (record s1 [EvStat (master_backup :: f)])
              (record s2 [EvStat (master_backup :: f)]) Hfs)
    as (b1' & b2' & evs1 & evs2 & -> & -> & Hsub).
  rewrite !record_record.
  match goal with |- context [record s1 ?evs] => set (seen1 := evs) end.
  match goal with |- context [record s2 ?evs] => set (seen2 := evs) end.
  destruct (IH b1' b2' (record s1 seen1) (record s2 seen2) Hfs)
    as (r1 & r2 & evs1' & evs2' & H1 & H2 & Hsub').
  exists r1, r2, (seen1 ++ evs1'), (seen2 ++ evs2').
  rewrite H1, H2, !record_record, !log_rows_app.
  split_and!; [done..|]. apply sublist_app; [|done]. subst seen1 seen2.
  by rewrite !log_rows_app.
Qed.

(** X14.  On any tree, the rows a dry run writes under the continuity assumption
    are among the rows the dry run without the assumption writes, in the
    same order: what [break] cuts short, [continue] still visits, and
    nothing is matched with the assumption that is not matched without. *)
Theorem continuity_finds_less now t :
  sublist (log_rows (trace (run true true now t).2))
    (log_rows (trace (run true false now t).2)).
Proof.
  unfold run. destruct t as [st|st es]; [done|].
  rewrite !deduplicate_unfold. cbn zeta.
  destruct (forallb _ _); [|done].
  destruct (children_of (names es)) as [|master_backup older_backups]; [done|].
  destruct (fs_create _ _ _) as [t1|e]; [|done].
  match goal with |- context [scan_files true true _ _ ?fl 0 ?s] =>
    destruct (scan_files_dry_continuity master_backup older_backups fl 0 0 s s eq_refl)
      as (r1 & r2 & evs1 & evs2 & -> & -> & Hsub) end.
  cbn [ret].
  destruct r1 as [b1|e1], r2 as [b2|e2].
  all: try destruct (format_bytes b1) as [[a1 l1]|x1].
  all: try destruct (format_bytes b2) as [[a2 l2]|x2].
  all: simpl; rewrite ?log_rows_app; simpl; by rewrite ?app_nil_r.
Qed.

(** ** Run logs and the enumeration *)

Lemma children_of_perm l1 l2 :
  filter (λ n, endswith n log_suffix = false) l1
  ≡ₚ filter (λ n, endswith n log_suffix = false) l2 →
  children_of l1 = children_of l2.
Proof.
  intros Hp. apply (StronglySorted_unique (flip String.le)); [apply children_of_sorted..|].
  unfold children_of, sorted_reverse. by rewrite !merge_sort_Permutation.
Qed.

(** X15.  Creating the log of a run in the working folder, or truncating the one
    that is there, does not change what the next enumeration takes for the
    backups: the children of the folder with the log are the children of
    the folder without it, in the same order.  This holds whatever the
    order in which the system lists the entries. *)
Theorem logs_are_ignored now dry_run new st es t1 :
  fs_create (log_name now dry_run) new (Dir st es) = Ok t1 →
  children_of (names (entries_of t1)) = children_of (names es)
  ∧ ∀ l, l ≡ₚ names (entries_of t1) → children_of l = children_of (names es).
Proof.
  intros Hcr.
  assert (Hf : filter (λ n, endswith n log_suffix = false) (names (entries_of t1))
               = filter (λ n, endswith n log_suffix = false) (names es)).
  { simpl in Hcr. destruct (assoc (log_name now dry_run) es) as [[st'|st' es'']|] eqn:Ha;
      [|done|].
    - rewrite alter_entry_spec, Ha in Hcr. injection Hcr as <-. simpl.
      by rewrite names_replace_Some.
    - injection Hcr as <-. simpl. rewrite names_app, filter_app. simpl.
      rewrite filter_cons, decide_False, filter_nil, app_nil_r; [done|].
      by rewrite log_name_suffix. }
  split.
  - apply children_of_perm. by rewrite Hf.
  - intros l Hl. apply children_of_perm. by rewrite Hl, Hf.
Qed.

Lemma logs_are_ignored_witness :
  children_of (names (entries_of
     (folder [("2023", folder []); ("2024", folder []);
              (log_name noon true, file 0 (timestamp noon))])))
  = children_of (names [("2023", folder []); ("2024", folder [])])
  ∧ ∀ l, l ≡ₚ names (entries_of
                 (folder [("2023", folder []); ("2024", folder []);
                          (log_name noon true, file 0 (timestamp noon))])) →
         children_of l = children_of (names [("2023", folder []); ("2024", folder [])]).
Proof.
  apply (logs_are_ignored noon true {| st_size := 0; st_ctime := timestamp noon |}
           {| st_size := 4096; st_ctime := 0 |}).
  reflexivity.
Defined.

(** ** No empty directory is left behind *)

Lemma elem_of_pruned_entries n c' es :
  (n, c') ∈ pruned_entries es ↔ ∃ c, (n, c) ∈ es ∧ prune c = Some c'.
Proof.
  unfold pruned_entries. rewrite list_elem_of_omap. split.
  - intros ([m c] & Hin & He). simpl in He. destruct (prune c) as [x|] eqn:Hp; [|done].
    injection He as -> ->. eauto.
  - intros (c & Hin & Hp). exists (n, c). simpl. by rewrite Hp.
Qed.

(** In what [prune] leaves of a tree, every directory holds a file at some
    depth. *)
Lemma pruned_has_files t :
  ∀ t', prune t = Some t' →
    ∀ q st es, lookup_path q t' = Some (Dir st es) →
      ∃ q' st', lookup_path (q ++ q') t' = Some (File st').
Proof.
  induction t as [st0|st0 es0 IH] using node_induction; intros t'.
  { intros [= <-] q st es Hl. by destruct q. }
  rewrite prune_Dir. case_decide as Hne; [done|]. intros [= <-] q st es Hl.
  rewrite Forall_forall in IH. destruct q as [|n q].
  - destruct (pruned_entries es0) as [|[n c'] pes] eqn:Hp; [done|].
    assert (Hin : (n, c') ∈ pruned_entries es0) by (rewrite Hp; left).
    apply elem_of_pruned_entries in Hin as (c & Hc & Hpc).
    destruct c' as [st'|st' es'].
    + exists [n], st'. simpl. by rewrite decide_True.
    + destruct (IH (n, c) Hc _ Hpc [] st' es' eq_refl) as (q' & st2 & Hq').
      exists (n :: q'), st2. simpl. rewrite decide_True by done. exact Hq'.
  - simpl in Hl. destruct (assoc n (pruned_entries es0)) as [c'|] eqn:Ha; [|done].
    pose proof (assoc_Some_elem _ _ _ Ha) as Hin.
    apply elem_of_pruned_entries in Hin as (c & Hc & Hpc).
    destruct (IH (n, c) Hc _ Hpc q st es Hl) as (q' & st2 & Hq').
    exists q', st2. simpl. by rewrite Ha.
Qed.

(** Below the entry [g] of the working folder every directory holds a file
    at some depth. *)
Definition inhabited_below (g : string) (t : node) : Prop :=
  ∀ q st es, lookup_path (g :: q) t = Some (Dir st es) →
    ∃ q' st', lookup_path (g :: q ++ q') t = Some (File st').

Lemma delete_empty_folders_full g s :
  wf_node (fs s) = true →
  ∃ D s1,
    delete_empty_folders [g] s = (Ok D, s1)
    ∧ wf_node (fs s1) = true
    ∧ inhabited_below g (fs s1)
    ∧ ∀ m q, m ≠ g → lookup_path (m :: q) (fs s1) = lookup_path (m :: q) (fs s).
Proof.
  intros Hwf.
  assert (Hflat : ∀ c, lookup_path [g] (fs s) = c → (∀ st es, c ≠ Some (Dir st es)) →
            inhabited_below g (fs s)).
  { intros c Hl Hc q st es Hq. change (g :: q) with ([g] ++ q) in Hq.
    rewrite lookup_path_app, Hl in Hq. destruct c as [[st0|st0 es0]|]; simpl in Hq.
    - by destruct q.
    - by destruct (Hc st0 es0).
    - done. }
  destruct (lookup_path [g] (fs s)) as [[st|st es]|] eqn:Hl.
  - exists ∅, s. split_and!; [|done|by apply (Hflat _ eq_refl)|done].
    unfold delete_empty_folders, bind, path_walk. by rewrite Hl.
  - destruct (delete_empty_folders_spec g _ s Hl eq_refl) as (t1 & Hput & Hrun).
    { by eapply wf_lookup. }
    eexists _, _. split; [exact Hrun|]. cbn [fs].
    assert (Hwf1 : wf_node t1 = true).
    { pose proof (shrinking_delete_empty_folders [g] s) as Hk. rewrite Hrun in Hk.
      by destruct (Hk Hwf). }
    assert (Hroot : NoDup (names (entries_of (fs s)))).
    { destruct (fs s) as [|st0 es0]; [done|]. by apply wf_Dir in Hwf as [? _]. }
    split_and!; [done| |].
    + intros q st' es' Hq.
      rewrite (lookup_put_root g (prune (Dir st es)) (fs s) t1 q Hroot) in Hq; [|eauto|done].
      destruct (prune (Dir st es)) as [t'|] eqn:Hp; [|done]. simpl in Hq.
      destruct (pruned_has_files _ _ Hp _ _ _ Hq) as (q' & st2 & Hq').
      exists q', st2.
      by rewrite (lookup_put_root g (Some t') (fs s) t1 (q ++ q') Hroot); [|eauto|done].
    + intros m q Hm. by eapply lookup_put_head_ne.
  - exists ∅, s. split_and!; [|done|by apply (Hflat _ eq_refl)|done].
    unfold delete_empty_folders, bind, path_walk. by rewrite Hl.
Qed.

Lemma delete_empty_folders_all_full backups :
  ∀ s, wf_node (fs s) = true → NoDup backups →
    ∃ s', delete_empty_folders_all backups s = (Ok tt, s')
          ∧ wf_node (fs s') = true
          ∧ (∀ g, g ∈ backups → inhabited_below g (fs s'))
          ∧ ∀ m q, m ∉ backups → lookup_path (m :: q) (fs s') = lookup_path (m :: q) (fs s).
Proof.
  induction backups as [|g rest IH]; intros s Hwf Hnd.
  { exists s. split_and!; [done|done| |done]. by intros g ?%elem_of_nil. }
  apply NoDup_cons in Hnd as [Hg Hnd].
  destruct (delete_empty_folders_full g s Hwf) as (D & s1 & Hrun & Hwf1 & Hin & Hfr).
  destruct (IH s1 Hwf1 Hnd) as (s' & Hrest & Hwf' & Hin' & Hfr').
  exists s'. split_and!; [|done| |].
  - cbn [delete_empty_folders_all]. erewrite bind_ok; [exact Hrest|exact Hrun].
  - intros g' [->|Hg']%elem_of_cons; [|by apply Hin'].
    intros q st es Hq. rewrite Hfr' in Hq by done.
    destruct (Hin q st es Hq) as (q' & st' & Hq'). exists q', st'. by rewrite Hfr'.
  - intros m q Hm. apply not_elem_of_cons in Hm as [Hmg Hmr].
    by rewrite Hfr', Hfr.
Qed.

(** X16.  After a real run that returned, no older backup holds a directory
    without a file somewhere below it: the reclaiming pass has removed them
    all, the ones the scan emptied and the ones that were empty before. *)
Theorem no_empty_directory_left assume_continuity now t master_backup older_backups b s :
  wf_node t = true →
  children_of (names (entries_of t)) = master_backup :: older_backups →
  run false assume_continuity now t = (Ok b, s) →
  Forall (λ g, ∀ q st es, lookup_path (g :: q) (fs s) = Some (Dir st es) →
                 ∃ q' st', lookup_path (g :: q ++ q') (fs s) = Some (File st'))
    older_backups.
Proof.
  intros Hwf Hc Hrun. unfold run in Hrun. destruct t as [st|st es]; [done|].
  pose proof Hwf as (Hnd & _ & _)%wf_Dir. cbn [entries_of] in Hc.
  apply children_of_NoDup in Hnd. rewrite Hc in Hnd. apply NoDup_cons in Hnd as [_ Hnd].
  rewrite deduplicate_unfold in Hrun. cbn zeta in Hrun. rewrite Hc in Hrun.
  destruct (forallb _ _); [|done].
  destruct (fs_create (log_name now false) _ _) as [t1|e] eqn:Hcr; [|done].
  destruct (scan_files false _ _ _ _ _ _) as [[b0|e] s7] eqn:Hscan; [|done].
  assert (Hwf7 : wf_node (fs s7) = true).
  { pose proof (shrinking_scan_files false assume_continuity master_backup older_backups
                  (from_option glob_all [] (lookup_path [master_backup] (Dir st es))) 0
                  {| fs := t1;
                     trace := [] ++ [EvOpen [log_name now false]; EvWrite Header] |}) as Hk.
    rewrite Hscan in Hk. apply Hk. cbn [fs].
    eapply wf_fs_create; [exact Hwf|apply log_name_nonempty|exact Hcr]. }
  destruct (delete_empty_folders_all_full older_backups s7 Hwf7 Hnd)
    as (s8 & Hdel & _ & Hin & _).
  rewrite Hdel in Hrun.
  destruct (format_bytes b0) as [[amount label]|e]; [|done].
  injection Hrun as <- <-. cbn [record fs]. apply Forall_forall. intros g Hg. by apply Hin.
Qed.

Lemma no_empty_directory_left_witness :
  Forall (λ g, ∀ q st es,
                 lookup_path (g :: q) (fs (run false true noon hollow_tree).2)
                 = Some (Dir st es) →
                 ∃ q' st', lookup_path (g :: q ++ q') (fs (run false true noon hollow_tree).2)
                           = Some (File st'))
    ["2023"].
Proof.
  apply (no_empty_directory_left true noon hollow_tree "2024" ["2023"] 0); reflexivity.
Defined.

(** ** The reclaimer *)

(** A real run that returns has taken the reclaimer over every older
    backup: none of them is left with a directory that holds no file. *)
Lemma run_reclaims_all assume_continuity now t master_backup older_backups b s :
  wf_node t = true →
  children_of (names (entries_of t)) = master_backup :: older_backups →
  run false assume_continuity now t = (Ok b, s) →
  ∀ g, g ∈ older_backups → inhabited_below g (fs s).
Proof.
  intros Hwf Hc Hrun. unfold run in Hrun. destruct t as [st|st es]; [done|].
  pose proof Hwf as (Hnd & _ & _)%wf_Dir. cbn [entries_of] in Hc.
  apply children_of_NoDup in Hnd. rewrite Hc in Hnd. apply NoDup_cons in Hnd as [_ Hnd].
  rewrite deduplicate_unfold in Hrun. cbn zeta in Hrun. rewrite Hc in Hrun.
  destruct (forallb _ _); [|done].
  destruct (fs_create (log_name now false) _ _) as [t1|e] eqn:Hcr; [|done].
  destruct (scan_files false _ _ _ _ _ _) as [[b0|e] s7] eqn:Hscan; [|done].
  assert (Hwf7 : wf_node (fs s7) = true).
  { pose proof (keeps_run shrinking _ _ _ _ (shrinking_scan_files _ _ _ _ _ _) Hscan) as Hk.
    apply Hk. cbn [fs]. eapply wf_fs_create; [exact Hwf|apply log_name_nonempty|exact Hcr]. }
  destruct (delete_empty_folders_all_full older_backups s7 Hwf7 Hnd)
    as (s8 & Hdel & _ & Hin & _).
  rewrite Hdel in Hrun.
  destruct (format_bytes b0) as [[amount label]|e]; [|done].
  by injection Hrun as <- <-.
Qed.

(** C8 (empty-directory reclamation).  Let [g] be a directory of a
    well-formed tree.  [delete_empty_folders] on it returns, and with the
    set [deleted] it hands back:
    - a directory of [g] is in [deleted] iff it lists no file and each of
      its sub-directories is in [deleted]; it is gone from the tree iff it is
      in [deleted], and is still a directory otherwise;
    - every file of [g] is still there as it was, none of its ancestor
      directories is in [deleted] and all of them are still directories of
      the tree;
    - the members of [deleted] are exactly the directories removed by this
      call, each announced and then removed, and nothing outside [g] changes;
    - a directory taken for empty that still lists an entry on disk makes
      the loop raise the assertion error before anything is removed;
    - over a whole run: a dry run removes no directory; once a directory
      has been removed no file is removed any more; and a real run that
      returns has reclaimed every older backup, none of which is left with a
      directory that holds no file at any depth. *)
Theorem reclaimer_correct g t s :
  wf_node (fs s) = true → lookup_path [g] (fs s) = Some t → is_dir t = true →
  ∃ (deleted : gset path) s',
    delete_empty_folders [g] s = (Ok deleted, s')
    ∧ (∀ q st es, lookup_path q t = Some (Dir st es) →
         (g :: q ∈ deleted ↔
            filenames es = [] ∧ ∀ n, n ∈ dirnames es → g :: q ++ [n] ∈ deleted)
         ∧ (g :: q ∈ deleted → lookup_path (g :: q) (fs s') = None)
         ∧ (g :: q ∉ deleted →
              ∃ st' es', lookup_path (g :: q) (fs s') = Some (Dir st' es')))
    ∧ (∀ q st, lookup_path q t = Some (File st) →
         lookup_path (g :: q) (fs s') = Some (File st)
         ∧ ∀ q', q' `prefix_of` q → q' ≠ q →
             (g :: q' ∉ deleted)
             ∧ ∃ st' es', lookup_path (g :: q') (fs s') = Some (Dir st' es'))
    ∧ (∃ order, deleted = list_to_set order
                ∧ trace s' = trace s ++ removal_events order)
    ∧ (∀ m q, m ≠ g → lookup_path (m :: q) (fs s') = lookup_path (m :: q) (fs s))
    ∧ (∀ (cur : path) (subdirs files : list string)
         (rest : list (path * list string * list string)) (D : gset path) s0 st e es,
         lookup_path cur (fs s0) = Some (Dir st (e :: es)) →
         any_name files = false → (∀ sd, sd ∈ subdirs → cur ++ [sd] ∈ D) →
         reclaim ((cur, subdirs, files) :: rest) D s0
         = (Raise (AssertionError
                     "Supposedly empty directory still contains file or subfolder!"), s0))
    ∧ (∀ assume_continuity now t0 p,
         EvRmdir p ∉ trace (run true assume_continuity now t0).2)
    ∧ (∀ dry_run assume_continuity now t0 pre p post q,
         trace (run dry_run assume_continuity now t0).2 = pre ++ EvRmdir p :: post →
         EvUnlink q ∉ post)
    ∧ (∀ assume_continuity now t0 master_backup older_backups b s1,
         wf_node t0 = true →
         children_of (names (entries_of t0)) = master_backup :: older_backups →
         run false assume_continuity now t0 = (Ok b, s1) →
         ∀ g0 q st es, g0 ∈ older_backups →
           lookup_path (g0 :: q) (fs s1) = Some (Dir st es) →
           ∃ q' st', lookup_path (g0 :: q ++ q') (fs s1) = Some (File st')).
Proof.
  intros Hwfs Hl Hd.
  assert (Hwf : wf_node t = true) by (by eapply wf_lookup).
  destruct (delete_empty_folders_spec g t s Hl Hd Hwf) as (t' & Hput & Hrun).
  assert (Hroot : NoDup (names (entries_of (fs s)))).
  { destruct (fs s) as [|st0 es0]; [done|]. by apply wf_Dir in Hwfs as [? _]. }
  assert (Hlk : ∀ q c, lookup_path q t = Some c → lookup_path (g :: q) t' = prune c).
  { intros q c Hq. rewrite (lookup_put_root g (prune t) (fs s) t' q Hroot); [|eauto|done].
    by apply lookup_prune. }
  eexists _, _. split; [exact Hrun|]. cbn [fs trace]. split_and!.
  - intros q st es Hq.
    assert (Hwfq : wf_node (Dir st es) = true) by (by eapply wf_lookup).
    pose proof Hwfq as (Hnd & _ & _)%wf_Dir.
    rewrite (elem_of_deleted g t q _ Hwf Hq). split_and!.
    + rewrite prune_Dir_None. split.
      * intros [_ [Hf Hsub]]. split; [done|].
        intros n (c & Hin & Hc)%elem_of_dirnames.
        apply (elem_of_deleted g t (q ++ [n]) c Hwf).
        -- rewrite lookup_path_app, Hq. simpl. by rewrite (assoc_elem _ _ _ Hnd Hin).
        -- split; [done|]. by eapply Hsub.
      * intros [Hf Hsub]. split; [done|]. split; [done|]. intros n c Hin Hc.
        assert (Hn : n ∈ dirnames es) by (apply elem_of_dirnames; eauto).
        apply Hsub, (elem_of_deleted g t (q ++ [n]) c Hwf) in Hn as [_ ?]; [done|].
        rewrite lookup_path_app, Hq. simpl. by rewrite (assoc_elem _ _ _ Hnd Hin).
    + intros [_ Hp]. by rewrite (Hlk _ _ Hq).
    + intros Hn. rewrite (Hlk _ _ Hq).
      destruct (prune (Dir st es)) as [c|] eqn:Hp; [|by destruct Hn].
      apply prune_Some_Dir in Hp as [es' ->]. eauto.
  - intros q st Hq. split; [by rewrite (Hlk _ _ Hq)|].
    intros q' [k ->] Hne. rewrite lookup_path_app in Hq.
    destruct (lookup_path q' t) as [c'|] eqn:Hq'; [|done]. simpl in Hq.
    assert (Hk : k ≠ []) by (intros ->; by rewrite app_nil_r in Hne).
    destruct c' as [st'|st' es']; [by destruct k|].
    assert (Hp : prune (Dir st' es') ≠ None).
    { intros Hp. pose proof (lookup_prune _ (wf_lookup _ _ _ Hwf Hq') _ _ Hq) as H.
      rewrite Hp in H. done. }
    split.
    + rewrite (elem_of_deleted g t q' _ Hwf Hq'). by intros [_ ?].
    + rewrite (Hlk _ _ Hq'). destruct (prune (Dir st' es')) as [c|] eqn:Hc; [|done].
      apply prune_Some_Dir in Hc as [es'' ->]. eauto.
  - by exists (removed [g] t).
  - intros m q Hm. by eapply lookup_put_head_ne.
  - apply reclaim_checks_disk.
  - intros cont now t0 p Hin.
    destruct (run_phases true cont now t0) as (tr1 & tr2 & E & F1 & F2 & _).
    rewrite E in Hin. rewrite Forall_forall in F1, F2.
    apply elem_of_app in Hin as [Hin|Hin].
    + apply (F1 _ Hin). by exists p.
    + destruct (F2 _ Hin) as [_ H]. apply H; [done|]. by exists p.
  - intros dry cont now t0 pre p post q E Hin.
    destruct (run_phases dry cont now t0) as (tr1 & tr2 & E' & F1 & F2 & _).
    rewrite E in E'. rewrite Forall_forall in F1, F2.
    apply app_eq_inv in E' as [(k & -> & ->)|(k & -> & Hk)].
    + destruct (F2 (EvUnlink q)) as [H _]; [|apply H; by exists q].
      apply elem_of_app. right. by right.
    + destruct k as [|e k].
      * simpl in Hk. subst tr2.
        destruct (F2 (EvUnlink q)) as [H _]; [by right|apply H; by exists q].
      * injection Hk as <- ->. apply (F1 (EvRmdir p)); [|by exists p].
        apply elem_of_app. right. left.
  - intros cont now t0 mb older b s1 Hwf0 Hc0 Hrun0 g0 q st es Hg0.
    by apply (run_reclaims_all cont now t0 mb older b s1 Hwf0 Hc0 Hrun0 g0 Hg0).
Qed.

Lemma reclaimer_correct_witness :
  ∃ (deleted : gset path) s',
    delete_empty_folders ["2023"] {| fs := mixed_tree; trace := [] |} = (Ok deleted, s')
    ∧ lookup_path ["2023"; "docs"; "cv.pdf"] (fs s') = Some (file 300 1)
    ∧ (["2023"; "docs"] ∉ deleted)
    ∧ (["2023"; "tmp"] ∈ deleted ↔ ∀ n, n ∈ ["cache"] → ["2023"; "tmp"; n] ∈ deleted)
    ∧ (∀ q st es,
         lookup_path ("2023" :: q) (fs (run false true noon mixed_tree).2) = Some (Dir st es) →
         ∃ q' st', lookup_path ("2023" :: q ++ q') (fs (run false true noon mixed_tree).2)
                   = Some (File st')).
Proof.
  destruct (reclaimer_correct "2023"
              (folder [("docs", folder [("old", folder []); ("cv.pdf", file 300 1)]);
                       ("tmp", folder [("cache", folder [])])])
              {| fs := mixed_tree; trace := [] |})
    as (deleted & s' & Hrun & Hdirs & Hfiles & _ & _ & _ & _ & _ & Hall); [reflexivity..|].
  exists deleted, s'. split; [exact Hrun|].
  destruct (Hfiles ["docs"; "cv.pdf"] _ eq_refl) as [Hf Hanc].
  split; [exact Hf|]. split; [|split].
  - apply (Hanc ["docs"]); [by exists ["cv.pdf"]|done].
  - destruct (Hdirs ["tmp"] _ _ eq_refl) as [Hiff _]. rewrite Hiff.
    split; [by intros [_ ?]|]. intros H. split; [reflexivity|exact H].
  - intros q st es.
    apply (Hall true noon mixed_tree "2024" ["2023"] 0%Z (run false true noon mixed_tree).2);
      [reflexivity..|]. left.
Defined.

(** ** A dry run changes nothing but its log *)

(** X17.  Whatever the tree and however the run ends, a dry run leaves the
    tree exactly as it found it, or as it found it with the log of the run
    created or truncated; it issues no [unlink] and no [rmdir]. *)
Theorem dry_run_harmless assume_continuity now t :
  (fs (run true assume_continuity now t).2 = t
   ∨ fs_create (log_name now true) {| st_size := 0; st_ctime := timestamp now |} t
     = Ok (fs (run true assume_continuity now t).2))
  ∧ removed_paths (trace (run true assume_continuity now t).2) = [].
Proof.
  split.
  - unfold run. destruct t as [st|st es]; [by left|].
    rewrite deduplicate_unfold. cbn zeta.
    destruct (forallb _ _); [|by left].
    destruct (children_of (names es)) as [|master_backup older_backups]; [by left|].
    destruct (fs_create _ _ _) as [t1|e]; [|by left]. right.
    match goal with |- context [scan_files true _ _ _ ?fl 0 ?s] =>
      assert (∃ r evs, scan_files true assume_continuity master_backup older_backups fl 0 s
                       = (r, record s evs)) as (r & evs & ->) end.
    { match goal with |- context [scan_files true _ _ _ ?fl 0 ?s] =>
        destruct (scan_files_dry_continuity master_backup older_backups fl 0 0 s s eq_refl)
          as (r1 & r2 & evs1 & evs2 & H1 & H2 & _) end.
      destruct assume_continuity; eauto. }
    destruct r as [b|e]; [|done]. cbn [ret].
    by destruct (format_bytes b) as [[amount label]|e].
  - destruct (run_phases true assume_continuity now t) as (tr1 & tr2 & -> & F1 & F2 & F3).
    specialize (F3 eq_refl). rewrite removed_paths_app.
    assert (Hnil : ∀ tr, Forall (λ e, ¬ is_unlink e ∧ ¬ is_rmdir e) tr →
              removed_paths tr = []).
    { induction 1 as [|e tr [Hu Hr] _ IH]; [done|].
      change (removed_paths (e :: tr))
        with (match removal e with
              | Some p => p :: removed_paths tr
              | None => removed_paths tr
              end).
      rewrite IH. destruct e; try done; exfalso; [apply Hu|apply Hr]; by eexists. }
    rewrite (Hnil tr1), (Hnil tr2); [done| |].
    + eapply Forall_impl; [exact F2|]. intros e [H1 H2]. split; [done|by apply H2].
    + apply Forall_and. by split.
Qed.

(** ** The ways a run can fail *)

Lemma scan_files_raises dry_run assume_continuity master_backup older_backups files :
  master_apart master_backup older_backups →
  ∀ b s e s',
    (∀ f, f ∈ files → is_Some (lookup_path (master_backup :: f) (fs s))) →
    scan_files dry_run assume_continuity master_backup older_backups files b s
    = (Raise e, s') →
    e = IsADirectoryError ∧ dry_run = false.
Proof.
  intros Hap. induction files as [|f files IH]; intros b s e s' Hex; [done|].
  destruct (Hex f) as [cm Hl]; [left|].
  rewrite (scan_files_cons _ _ _ _ _ _ _ _ _ Hl).
  destruct (scan _ _ _ _ _ _ _ _) as [[b1|e1] s1] eqn:Hscan.
  - apply IH. intros f' Hf'.
    pose proof (confined_scan master_backup older_backups dry_run assume_continuity f
                  (stat_of cm) older_backups b (reflexivity _)
                  (record s [EvStat (master_backup :: f)])) as Hk.
    rewrite Hscan in Hk. destruct Hk as [Hm _]. rewrite (Hm Hap). cbn [fs record].
    apply Hex. by right.
  - intros [= <- <-]. by eapply scan_raises.
Qed.

Lemma run_raises_only dry_run assume_continuity now t e :
  wf_node t = true →
  (run dry_run assume_continuity now t).1 = Raise e →
  e = NotADirectoryError
  ∨ e = AssertionError "not all children are directories"
  ∨ e = IndexError
  ∨ e = IsADirectoryError
  ∨ e = KeyError.
Proof.
  intros Hwf. unfold run. destruct t as [st|st es].
  { intros [= <-]. by left. }
  pose proof Hwf as (Hnd & _ & _)%wf_Dir.
  rewrite deduplicate_unfold. cbn zeta.
  destruct (forallb _ _); [|intros [= <-]; right; by left].
  destruct (children_of (names es)) as [|master_backup older_backups] eqn:Hc.
  { intros [= <-]. do 2 right. by left. }
  pose proof (children_of_apart _ _ _ Hnd Hc) as Hap.
  destruct (fs_create _ _ _) as [t1|e0] eqn:Hcr.
  2:{ intros [= <-]. do 3 right. left. simpl in Hcr.
      destruct (assoc (log_name now dry_run) es) as [[st'|st' es']|] eqn:Ha.
      - by rewrite alter_entry_spec, Ha in Hcr.
      - by injection Hcr as <-.
      - done. }
  assert (Hwf1 : wf_node t1 = true).
  { eapply wf_fs_create; [exact Hwf|apply log_name_nonempty|exact Hcr]. }
  destruct (scan_files _ _ _ _ _ _ _) as [[b|e0] s7] eqn:Hscan.
  2:{ intros [= <-]. do 3 right. left.
      eapply (scan_files_raises _ _ _ _ _ Hap); [|exact Hscan]. intros f Hf. cbn [fs].
      rewrite (fs_create_lookup_ne _ _ _ _ master_backup f Hcr); cycle 1.
      { apply (child_not_log (names es)). rewrite Hc. left. }
      change (master_backup :: f) with ([master_backup] ++ f). rewrite lookup_path_app.
      destruct (lookup_path [master_backup] (Dir st es)) as [m|] eqn:Hm;
        [|by apply elem_of_nil in Hf].
      simpl. apply glob_all_lookup; [|done].
      exact (wf_lookup [master_backup] (Dir st es) m Hwf Hm). }
  assert (Hwf7 : wf_node (fs s7) = true).
  { pose proof (shrinking_scan_files dry_run assume_continuity master_backup older_backups
                  (from_option glob_all [] (lookup_path [master_backup] (Dir st es))) 0
                  {| fs := t1;
                     trace := [] ++ [EvOpen [log_name now dry_run]; EvWrite Header] |}) as Hk.
    rewrite Hscan in Hk. by apply Hk. }
  assert (Hdel : ∃ s8, (if dry_run then ret tt
                        else delete_empty_folders_all older_backups) s7 = (Ok tt, s8)).
  { destruct dry_run; [by eexists|]. by apply delete_empty_folders_all_ok. }
  destruct Hdel as [s8 ->].
  unfold format_bytes. destruct (format_loop _ _) as [amount n].
  destruct (power_labels n); [done|]. intros [= <-]. by do 4 right.
Qed.


(** X18.  On a well-formed tree, a working folder without links on which the
    program runs alone, three of the failures the code could meet never
    occur: no path is missing when it is stat'ed or removed
    ([FileNotFoundError]: the candidates come from the master, which the run
    leaves alone, and an older path is stat'ed and unlinked right after
    [exists] said it is there); [rmdir] never meets a directory that is not
    empty; and the assertion in [delete_empty_folders] never fails. *)
Theorem run_failures dry_run assume_continuity now t :
  wf_node t = true →
  match (run dry_run assume_continuity now t).1 with
  | Ok _ => True
  | Raise e =>
      e ∉ [FileNotFoundError; DirectoryNotEmpty;
           AssertionError "Supposedly empty directory still contains file or subfolder!"]
  end.
Proof.
  intros Hwf. destruct (run dry_run assume_continuity now t).1 as [b|e] eqn:Hrun; [done|].
  rewrite !not_elem_of_cons.
  destruct (run_raises_only _ _ _ _ _ Hwf Hrun) as [->|[->|[->|[->| ->]]]];
    split_and!; try done; apply not_elem_of_nil.
Qed.

Lemma run_failures_witness :
  match (run false true noon clash_tree).1 with
  | Ok _ => True
  | Raise e =>
      e ∉ [FileNotFoundError; DirectoryNotEmpty;
           AssertionError "Supposedly empty directory still contains file or subfolder!"]
  end.
Proof. apply (run_failures false true noon clash_tree). reflexivity. Defined.

(** ** The rows under the continuity assumption *)







